(** * The real-time safety-monitoring core of women-safety-be

    A shallow embedding of the presence registry ([index.js], the
    [io.on('connection')] handler), of the journey deviation engine
    ([createJourneyRoutes], the file imported by [index.js] as
    [routes/journey.js]) and of the proximity and SOS routes
    ([createEmergencyRoutes], imported as [routes/emergency.js]), followed by
    the properties established about them.

    Conventions of the embedding:
    - a JavaScript number is a real number ([R]); the one place where the
      code uses [Infinity] is typed with [JS.number].  Rounding of IEEE
      doubles is not represented, and neither is [NaN]: in exact arithmetic
      [Math.sqrt] of a negative number does not occur for latitudes within
      [-90, 90] (lemma [haversine_arg_bounds]).  Module [Rounded] is the
      exception: it follows NaN through the distance loop for a term that
      the rounding has moved out of [0, 1];
    - a [Date] is its epoch time in milliseconds ([Z]); one request reads one
      clock value [now];
    - an identifier (user id, socket id) is a string; a registry lookup that
      finds a socket id finds a truthy one;
    - a request body is typed: a coordinate is a number, [isOkay] a boolean, a
      route path a list of pairs of numbers;
    - a route handler is a function from the request (the authenticated user
      document, the body, the shared registry, the clock) to an [Outcome]:
      the response passed to [sendSuccess], [sendError] or
      [sendValidationError], the user document as the handler leaves it, and
      the effects it performed, in order.  The store and the transport do
      not fail. *)

From Stdlib Require Import Reals Lra Lia ZArith List Permutation Sorted Ascii String.
From stdpp Require Import gmap strings pretty.

(** ** JavaScript primitives used by the routes *)

Module JS.
Local Open Scope R_scope.

#[export] Instance Rlt_decision (x y : R) : Decision (x < y) := Rlt_dec x y.
#[export] Instance Rle_decision (x y : R) : Decision (x <= y) := Rle_dec x y.
#[export] Instance Req_decision : EqDecision R := Req_dec_T.

(** A number that may be [Infinity] (the initial value of [minDistance]). *)
Inductive number : Type :=
| Num (r : R)
| Infinity.

(** [a < b] *)
Definition lt (a b : number) : bool :=
  match a, b with
  | Num x, Num y => bool_decide (x < y)
  | Num _, Infinity => true
  | Infinity, _ => false
  end.

(** [a > b] *)
Definition gt (a b : number) : bool := lt b a.

(** [Math.atan2(y, x)] on the reals (signed zeros are not represented). *)
Definition atan2 (y x : R) : R :=
  if Rlt_dec 0 x then atan (y / x)
  else if Rlt_dec x 0 then
    (if Rle_dec 0 y then atan (y / x) + PI else atan (y / x) - PI)
  else if Rlt_dec 0 y then PI / 2
  else if Rlt_dec y 0 then - (PI / 2)
  else 0.

(** [parseFloat(x.toFixed(2))]: the multiple of 1/100 nearest to [x], the
    larger magnitude on a tie; a negative [x] is rounded on [-x]. *)
Definition roundHundredths (x : R) : R := IZR (Zfloor (x * 100 + / 2)) / 100.

Definition toFixed2 (x : R) : R :=
  if Rlt_dec x 0 then - roundHundredths (- x) else roundHundredths x.

(** Truthiness of a number that may be missing: [undefined] and [0] are
    falsy. *)
Definition truthyNum (x : option R) : bool :=
  match x with
  | Some r => bool_decide (r <> 0)
  | None => false
  end.

(** [a || b] on strings that may be missing: the empty string is falsy. *)
Definition orStr (a b : option string) : option string :=
  match a with
  | Some s => if bool_decide (s = "") then b else Some s
  | None => b
  end.

(** [s.includes(c)] for a character [c]. *)
Fixpoint includes (c : ascii) (s : string) : bool :=
  match s with
  | EmptyString => false
  | String c' rest => bool_decide (c' = c) || includes c rest
  end.

(** [new Date(d)] for a stored date or [null]: [null] gives the epoch. *)
Definition newDate (d : option Z) : Z := default 0%Z d.
End JS.
Export JS.

(** ** Geospatial helper ([calculateDistance], the same text in both route
    files) *)

Module Geo.
Local Open Scope R_scope.

Definition calculateDistance (lat1 lng1 lat2 lng2 : R) : R :=
  let R := 6371 in
  let dLat := (lat2 - lat1) * PI / 180 in
  let dLng := (lng2 - lng1) * PI / 180 in
  let a := sin (dLat / 2) * sin (dLat / 2) +
           cos (lat1 * PI / 180) * cos (lat2 * PI / 180) *
           sin (dLng / 2) * sin (dLng / 2) in
  let c := 2 * JS.atan2 (sqrt a) (sqrt (1 - a)) in
  R * c.

(** [validateCoordinates] of [utils/helpers.js] (its text is in the sources
    at [src/utils/logger.js], lines 86-91), on numbers: a latitude in
    [-90, 90] and a longitude in [-180, 180]. *)
Definition validateCoordinates (lat lng : R) : bool :=
  bool_decide (-90 <= lat) && bool_decide (lat <= 90) &&
  bool_decide (-180 <= lng) && bool_decide (lng <= 180).

(** The spec's wording of the distance: the haversine of the central angle
    between the two points, turned into an arc on a sphere of radius
    6371 km. *)
Definition hav (theta : R) : R := sin (theta / 2) * sin (theta / 2).

Definition rad (deg : R) : R := deg * PI / 180.

Definition haversineKm (lat1 lng1 lat2 lng2 : R) : R :=
  2 * 6371 *
  asin (sqrt (hav (rad lat2 - rad lat1) +
              cos (rad lat1) * cos (rad lat2) * hav (rad lng2 - rad lng1))).
End Geo.
Export Geo.

(** ** Presence registry and rooms ([index.js]) *)

Module Presence.

(** An authenticated socket: its id and the user document attached by
    [authenticateSocket]. *)
Record Socket : Type := {
  id : string;
  userId : string;
  parentId : option string;
  children : list string;
}.

(** The process state: [connectedUsers] (userId -> socketId) and the live
    sockets, each with the rooms it joined. *)
Record Server : Type := {
  connectedUsers : gmap string string;
  sockets : list (Socket * list string);
}.

(** The rooms joined in [io.on('connection')], after the socket's own
    room. *)
Definition joinedRooms (socket : Socket) : list string :=
  [id socket; "user:" +:+ userId socket]
  ++ match parentId socket with
     | Some parentIdStr => ["parent:" +:+ parentIdStr]
     | None => []
     end
  ++ (if bool_decide (0 < length (children socket))%nat
      then map (fun childIdStr => "child:" +:+ childIdStr) (children socket)
      else [])
  ++ ["child:" +:+ userId socket].

(** [io.on('connection', socket => ...)] *)
Definition connection (socket : Socket) (srv : Server) : Server :=
  {| connectedUsers := <[userId socket := id socket]> (connectedUsers srv);
     sockets := sockets srv ++ [(socket, joinedRooms socket)] |}.

(** [socket.on('disconnect', ...)]: the handler of [socket]; the transport
    drops the socket from its rooms. *)
Definition disconnect (socket : Socket) (srv : Server) : Server :=
  {| connectedUsers := delete (userId socket) (connectedUsers srv);
     sockets := filter (fun live => id live.1 <> id socket) (sockets srv) |}.

(** The sockets reached by [io.to(room).emit(...)]. *)
Definition recipients (srv : Server) (room : string) : list Socket :=
  map fst (filter (fun live => room ∈ live.2) (sockets srv)).

(** The registry as the spec words it, for comparison: unregistering
    removes the entry only when the handle is the registered one. *)
Definition unregister_spec (identity handle : string)
    (registry : gmap string string) : gmap string string :=
  if bool_decide (registry !! identity = Some handle)
  then delete identity registry
  else registry.
End Presence.

(** ** Documents, responses and effects shared by the routes *)

Module Model.

Record Coordinates : Type := { lat : R; lng : R }.

(** A named waypoint of the request body ([from], [to]). *)
Record Place : Type := { coordinates : Coordinates }.

(** [user.activeJourney] *)
Record Journey : Type := {
  isActive : bool;
  from : option Place;
  to : option Place;
  selectedRoutePath : list (R * R);
  deviationDetected : bool;
  deviationAlertSent : bool;
  deviationAlertTime : option Z;
  startedAt : option Z;
}.

(** [user.currentLocation] *)
Record Location : Type := {
  latitude : option R;
  longitude : option R;
  address : option string;
  timestamp : option Z;
}.

(** The fields of a user document that the journey and proximity routes
    read or write (the schema is in the sources at [src/models/Alert.js],
    lines 16-86). *)
Record User : Type := {
  _id : string;
  name : string;
  displayName : option string;
  accountId : string;
  parentId : option string;
  isAppEnabled : bool;
  currentLocation : option Location;
  activeJourney : option Journey;
}.

Definition withJourney (user : User) (journey : Journey) : User :=
  {| _id := _id user; name := name user; displayName := displayName user;
     accountId := accountId user; parentId := parentId user;
     isAppEnabled := isAppEnabled user;
     currentLocation := currentLocation user;
     activeJourney := Some journey |}.

(** [req.user.displayName || req.user.name] *)
Definition childName (user : User) : string :=
  default (name user) (JS.orStr (displayName user) None).

(** The alert built by [/sos-broadcast]. *)
Record AlertData : Type := {
  alertId : string;
  alertUserId : string;
  alertUserName : string;
  alertAccountId : string;
  alertLatitude : R;
  alertLongitude : R;
  alertAddress : option string;
  alertTimestamp : Z;
}.

Inductive Payload : Type :=
| ChildJourneyStarted (childId childName : string) (journey : Journey)
| ChildJourneyStopped (childId childName : string)
| ChildDeviationAlert (childId childName : string)
    (currentLocation : Coordinates) (distanceFromRoute : JS.number)
    (timestamp : Z)
| NearbySosAlert (alertData : AlertData) (distance : R).

Inductive Effect : Type :=
| Save (doc : User)               (* await req.user.save() *)
| Find (excluded : string)        (* await User.find({ _id: { $ne }, ... }) *)
| Emit (room event : string) (payload : Payload).
                                  (* io.to(room).emit(event, payload) *)

Inductive Response (A : Type) : Type :=
| Success (data : A) (message : option string)
| Error (message : string) (status : Z)
| ValidationError.
Arguments Success {A}.
Arguments Error {A}.
Arguments ValidationError {A}.

Record Outcome (A : Type) : Type := {
  response : Response A;
  user : User;
  effects : list Effect;
}.
Arguments response {A}.
Arguments user {A}.
Arguments effects {A}.

(** [isFloat({ min, max })] of express-validator on a number. *)
Definition isFloat (min max x : R) : bool :=
  bool_decide (min <= x)%R && bool_decide (x <= max)%R.

Definition isEmit (e : Effect) : bool :=
  match e with Emit _ _ _ => true | _ => false end.

End Model.
Export Model.

(** ** Journey deviation engine ([routes/journey.js]) *)

Module JourneyRoutes.
Local Open Scope R_scope.

(** [POST /start] *)
Definition start (connectedUsers : gmap string string) (now : Z)
    (user : User) (from to : Place)
    (selectedRoutePath : option (list (R * R))) : Outcome Journey :=
  if negb (isFloat (-90) 90 (lat (coordinates from)) &&
           isFloat (-180) 180 (lng (coordinates from)) &&
           isFloat (-90) 90 (lat (coordinates to)) &&
           isFloat (-180) 180 (lng (coordinates to)))
  then {| response := ValidationError; user := user; effects := [] |}
  else if negb (validateCoordinates (lat (coordinates from))
                                    (lng (coordinates from))) ||
          negb (validateCoordinates (lat (coordinates to))
                                    (lng (coordinates to)))
  then {| response := Error "Invalid coordinates" 400; user := user;
          effects := [] |}
  else
    let activeJourney :=
      {| isActive := true;
         from := Some from;
         to := Some to;
         selectedRoutePath := default [] selectedRoutePath;
         deviationDetected := false;
         deviationAlertSent := false;
         deviationAlertTime := None;
         startedAt := Some now |} in
    let user := withJourney user activeJourney in
    let notified :=
      match parentId user with
      | Some parentId =>
          match connectedUsers !! parentId with
          | Some parentSocketId =>
              [Emit parentSocketId "child-journey-started"
                 (ChildJourneyStarted (_id user) (childName user)
                    activeJourney)]
          | None => []
          end
      | None => []
      end in
    {| response := Success activeJourney (Some "Journey started successfully");
       user := user;
       effects := Save user :: notified |}.

(** [POST /stop] *)
Definition stop (connectedUsers : gmap string string) (user : User)
    : Outcome unit :=
  let activeJourney :=
    {| isActive := false;
       from := None;
       to := None;
       selectedRoutePath := [];
       deviationDetected := false;
       deviationAlertSent := false;
       deviationAlertTime := None;
       startedAt := None |} in
  let user := withJourney user activeJourney in
  let notified :=
    match parentId user with
    | Some parentId =>
        match connectedUsers !! parentId with
        | Some parentSocketId =>
            [Emit parentSocketId "child-journey-stopped"
               (ChildJourneyStopped (_id user) (childName user))]
        | None => []
        end
    | None => []
    end in
  {| response := Success () (Some "Journey stopped successfully");
     user := user;
     effects := Save user :: notified |}.

(** [POST /deviation-response].  Writing a field of a missing
    [activeJourney] throws; the handler's [catch] answers 500. *)
Definition deviationResponse (user : User) (isOkay : bool) : Outcome unit :=
  if isOkay then
    match activeJourney user with
    | Some journey =>
        let journey :=
          {| isActive := isActive journey;
             from := from journey;
             to := to journey;
             selectedRoutePath := selectedRoutePath journey;
             deviationDetected := false;
             deviationAlertSent := false;
             deviationAlertTime := None;
             startedAt := startedAt journey |} in
        let user := withJourney user journey in
        {| response := Success () (Some "Response recorded successfully");
           user := user;
           effects := [Save user] |}
    | None =>
        {| response := Error "Failed to record response" 500; user := user;
           effects := [] |}
    end
  else
    {| response := Error "Invalid response" 400; user := user;
       effects := [] |}.

(** The body of a [/check-deviation] answer; a flag that the handler leaves
    out of the object is [false] here, a distance left out is [None]. *)
Record Report : Type := {
  onRoute : bool;
  distanceFromRoute : option JS.number;
  alertSent : bool;
  alertPending : bool;
  parentAlerted : bool;
  message : string;
}.

(** One turn of the [forEach] over the route path. *)
Definition nearer (currentLat currentLng : R) (minDistance : JS.number)
    (point : R * R) : JS.number :=
  let distance := calculateDistance currentLat currentLng point.1 point.2 in
  if JS.lt (Num distance) minDistance then Num distance else minDistance.

(** [minDistance] after the [forEach], from [Infinity]. *)
Definition minDistanceToPath (currentLat currentLng : R)
    (path : list (R * R)) : JS.number :=
  fold_left (nearer currentLat currentLng) path Infinity.

Definition DEVIATION_THRESHOLD : R := 0.2.

(** [(now - alertTime) / 1000 / 60] *)
Definition minutesSince (now alertTime : Z) : R :=
  IZR (now - alertTime) / 1000 / 60.

(** [POST /check-deviation] *)
Definition checkDeviation (connectedUsers : gmap string string) (now : Z)
    (user : User) (currentLat currentLng : R) : Outcome Report :=
  if negb (isFloat (-90) 90 currentLat && isFloat (-180) 180 currentLng)
  then {| response := ValidationError; user := user; effects := [] |}
  else if negb (validateCoordinates currentLat currentLng)
  then {| response := Error "Invalid coordinates" 400; user := user;
          effects := [] |}
  else
    let idle :=
      {| response :=
           Success {| onRoute := true; distanceFromRoute := None;
                      alertSent := false; alertPending := false;
                      parentAlerted := false;
                      message := "No active journey or route path" |} None;
         user := user; effects := [] |} in
    match activeJourney user with
    | None => idle
    | Some journey =>
      if negb (isActive journey) ||
         bool_decide (length (selectedRoutePath journey) = 0%nat)
      then idle
      else
        let minDistance :=
          minDistanceToPath currentLat currentLng
            (selectedRoutePath journey) in
        let isOffRoute := JS.gt minDistance (Num DEVIATION_THRESHOLD) in
        if isOffRoute && negb (deviationAlertSent journey) then
          let journey :=
            {| isActive := isActive journey;
               from := from journey;
               to := to journey;
               selectedRoutePath := selectedRoutePath journey;
               deviationDetected := true;
               deviationAlertSent := true;
               deviationAlertTime := Some now;
               startedAt := startedAt journey |} in
          let user := withJourney user journey in
          {| response :=
               Success {| onRoute := false;
                          distanceFromRoute := Some minDistance;
                          alertSent := true; alertPending := false;
                          parentAlerted := false;
                          message := "You seem to have gone off your planned route. Are you okay?" |}
                       None;
             user := user;
             effects := [Save user] |}
        else if isOffRoute && deviationAlertSent journey then
          let alertTime := JS.newDate (deviationAlertTime journey) in
          let minutesSinceAlert := minutesSince now alertTime in
          match bool_decide (5 < minutesSinceAlert), parentId user with
          | true, Some parentId =>
              let notified :=
                match connectedUsers !! parentId with
                | Some parentSocketId =>
                    [Emit parentSocketId "child-deviation-alert"
                       (ChildDeviationAlert (_id user) (childName user)
                          {| lat := currentLat; lng := currentLng |}
                          minDistance now)]
                | None => []
                end in
              {| response :=
                   Success {| onRoute := false;
                              distanceFromRoute := Some minDistance;
                              alertSent := false; alertPending := false;
                              parentAlerted := true;
                              message := "Parent has been notified" |} None;
                 user := user;
                 effects := notified |}
          | _, _ =>
              {| response :=
                   Success {| onRoute := false;
                              distanceFromRoute := Some minDistance;
                              alertSent := false; alertPending := true;
                              parentAlerted := false;
                              message := "Waiting for response" |} None;
                 user := user;
                 effects := [] |}
          end
        else
          {| response :=
               Success {| onRoute := true;
                          distanceFromRoute := Some minDistance;
                          alertSent := false; alertPending := false;
                          parentAlerted := false;
                          message := "On route" |} None;
             user := user;
             effects := [] |}
    end.

(** The invariant of the data model: the alert time is set exactly when the
    alert flag is. *)
Definition alertTimeConsistent (journey : Journey) : Prop :=
  deviationAlertTime journey <> None <-> deviationAlertSent journey = true.

Definition userConsistent (user : User) : Prop :=
  match activeJourney user with
  | Some journey => alertTimeConsistent journey
  | None => True
  end.
End JourneyRoutes.

(** ** The distance loop on doubles, as far as NaN goes
    ([routes/journey.js], lines 10-19 and 181-187) *)

Module Rounded.
Local Open Scope R_scope.

(** The term [a] of [calculateDistance] (lines 14-16) in exact
    arithmetic. *)
Definition haversineTerm (lat1 lng1 lat2 lng2 : R) : R :=
  let dLat := (lat2 - lat1) * PI / 180 in
  let dLng := (lng2 - lng1) * PI / 180 in
  sin (dLat / 2) * sin (dLat / 2) +
  cos (lat1 * PI / 180) * cos (lat2 * PI / 180) *
  sin (dLng / 2) * sin (dLng / 2).

(** Lines 17-18 on the term [a] as the double arithmetic delivers it, which
    is its exact value moved by the roundings of lines 12-16: [Math.sqrt]
    of a negative number is NaN, and [Math.atan2] and the product pass NaN
    on.  [None] is NaN. *)
Definition distanceOfTerm (a : R) : option R :=
  if bool_decide (0 <= a) && bool_decide (0 <= 1 - a)
  then Some (6371 * (2 * JS.atan2 (sqrt a) (sqrt (1 - a))))
  else None.

(** One turn of the [forEach] (lines 183-186): [distance < minDistance] is
    false when [distance] is NaN. *)
Definition nearer (minDistance : JS.number) (distance : option R)
    : JS.number :=
  match distance with
  | Some d => if JS.lt (Num d) minDistance then Num d else minDistance
  | None => minDistance
  end.

(** [minDistance] after the loop, from the terms that the double arithmetic
    delivers for the vertices of the path, in order. *)
Definition minDistance (terms : list R) : JS.number :=
  fold_left nearer (map distanceOfTerm terms) Infinity.
End Rounded.

(** ** Proximity and SOS routes ([createEmergencyRoutes]) *)

Module EmergencyRoutes.
Local Open Scope R_scope.

(** A document returned by [User.find(...).select('name accountId
    currentLocation')]: the query keeps the documents that carry both
    coordinates, so both are numbers here. *)
Record Candidate : Type := {
  candidateId : string;
  candidateName : string;
  candidateAccountId : string;
  candidateLatitude : R;
  candidateLongitude : R;
  candidateAddress : option string;
}.

(** The query of both routes: not the caller, app enabled,
    [currentLocation.latitude] and [currentLocation.longitude] exist.
    The documents come back in the order of the collection. *)
Definition selected (self : string) (doc : User) : option Candidate :=
  if bool_decide (_id doc <> self) && isAppEnabled doc then
    match currentLocation doc with
    | Some loc =>
        match latitude loc, longitude loc with
        | Some la, Some lo =>
            Some {| candidateId := _id doc;
                    candidateName := name doc;
                    candidateAccountId := accountId doc;
                    candidateLatitude := la;
                    candidateLongitude := lo;
                    candidateAddress := address loc |}
        | _, _ => None
        end
    | None => None
    end
  else None.

Definition find (self : string) (db : list User) : list Candidate :=
  omap (selected self) db.

(** An entry of [nearbyUsers]. *)
Record NearbyUser : Type := {
  userId : string;
  nearbyName : string;
  nearbyAccountId : string;
  distance : R;
  nearbyLatitude : R;
  nearbyLongitude : R;
  nearbyAddress : option string;
}.

(** [user.currentLocation && user.currentLocation.latitude] *)
Definition hasLocation (candidate : Candidate) : bool :=
  JS.truthyNum (Some (candidateLatitude candidate)).

(** The [for ... of allUsers] of [/nearby/users]; [nearbyUsers] is the
    array filled so far. *)
Fixpoint collectNearby (latitude longitude radiusKm : R)
    (allUsers : list Candidate) (nearbyUsers : list NearbyUser)
    : list NearbyUser :=
  match allUsers with
  | [] => nearbyUsers
  | candidate :: rest =>
      if hasLocation candidate then
        let distance :=
          calculateDistance latitude longitude
            (candidateLatitude candidate) (candidateLongitude candidate) in
        if bool_decide (distance <= radiusKm) then
          collectNearby latitude longitude radiusKm rest
            (nearbyUsers ++
             [{| userId := candidateId candidate;
                 nearbyName := candidateName candidate;
                 nearbyAccountId := candidateAccountId candidate;
                 distance := distance;
                 nearbyLatitude := candidateLatitude candidate;
                 nearbyLongitude := candidateLongitude candidate;
                 nearbyAddress :=
                   JS.orStr (candidateAddress candidate) None |}])
        else collectNearby latitude longitude radiusKm rest nearbyUsers
      else collectNearby latitude longitude radiusKm rest nearbyUsers
  end.

(** The comparator [(a, b) => a.distance - b.distance]. *)
Definition byDistance (a b : NearbyUser) : R := distance a - distance b.

(** [Array.prototype.sort] is stable; with a consistent comparator its
    result is the one stable ordering, computed here by insertion. *)
Fixpoint insertSorted (x : NearbyUser) (sorted : list NearbyUser)
    : list NearbyUser :=
  match sorted with
  | [] => [x]
  | y :: rest =>
      if bool_decide (byDistance y x < 0)
      then y :: insertSorted x rest
      else x :: y :: rest
  end.

Definition sort (l : list NearbyUser) : list NearbyUser :=
  foldr insertSorted [] l.

Record NearbyData : Type := {
  nearbyUsers : list NearbyUser;
  count : nat;
  radiusKm : R;
}.

(** [req.user.currentLocation && req.user.currentLocation.latitude] *)
Definition callerLocated (user : User) : bool :=
  match currentLocation user with
  | Some loc => JS.truthyNum (latitude loc)
  | None => false
  end.

(** [POST /nearby/users] *)
Definition nearbyUsersRoute (db : list User) (user : User)
    (latitude longitude : R) (radiusKmBody : option R)
    : Outcome NearbyData :=
  if negb (isFloat (-90) 90 latitude && isFloat (-180) 180 longitude &&
           match radiusKmBody with
           | Some r => isFloat 0 100 r
           | None => true
           end)
  then {| response := ValidationError; user := user; effects := [] |}
  else
    let radiusKm := default 5 radiusKmBody in
    if negb (validateCoordinates latitude longitude)
    then {| response := Error "Invalid coordinates" 400; user := user;
            effects := [] |}
    else if negb (callerLocated user)
    then {| response :=
              Error "Your location is not available. Please enable location updates." 400;
            user := user; effects := [] |}
    else
      let allUsers := find (_id user) db in
      let nearbyUsers :=
        sort (collectNearby latitude longitude radiusKm allUsers []) in
      {| response :=
           Success {| nearbyUsers := nearbyUsers;
                      count := length nearbyUsers;
                      radiusKm := radiusKm |} None;
         user := user;
         effects := [Find (_id user)] |}.

(** [`sos_${req.user._id}_${Date.now()}`] *)
Definition makeAlertId (user : User) (now : Z) : string :=
  "sos_" +:+ _id user +:+ "_" +:+ pretty now.

(** [req.user.currentLocation?.address] *)
Definition callerAddress (user : User) : option string :=
  match currentLocation user with
  | Some loc => address loc
  | None => None
  end.

(** The [for ... of allUsers] of [/sos-broadcast]: the ids pushed so far and
    the events emitted so far. *)
Fixpoint notifyNearby (alertData : AlertData) (latitude longitude radiusKm : R)
    (allUsers : list Candidate) (nearbyUserIds : list string)
    (emitted : list Effect) : list string * list Effect :=
  match allUsers with
  | [] => (nearbyUserIds, emitted)
  | candidate :: rest =>
      if hasLocation candidate then
        let distance :=
          calculateDistance latitude longitude
            (candidateLatitude candidate) (candidateLongitude candidate) in
        if bool_decide (distance <= radiusKm) then
          notifyNearby alertData latitude longitude radiusKm rest
            (nearbyUserIds ++ [candidateId candidate])
            (emitted ++
             [Emit ("user:" +:+ candidateId candidate) "nearby-sos-alert"
                (NearbySosAlert alertData (JS.toFixed2 distance))])
        else
          notifyNearby alertData latitude longitude radiusKm rest
            nearbyUserIds emitted
      else
        notifyNearby alertData latitude longitude radiusKm rest
          nearbyUserIds emitted
  end.

Record SosData : Type := {
  sosAlertId : string;
  nearbyUsersNotified : nat;
  nearbyUserIds : list string;
}.

(** [POST /sos-broadcast]; [address] is the body field after [trim()]. *)
Definition sosBroadcast (db : list User) (now : Z) (user : User)
    (latitude longitude : R) (address : option string) : Outcome SosData :=
  if negb (isFloat (-90) 90 latitude && isFloat (-180) 180 longitude)
  then {| response := ValidationError; user := user; effects := [] |}
  else if negb (validateCoordinates latitude longitude)
  then {| response := Error "Invalid coordinates" 400; user := user;
          effects := [] |}
  else
    let radiusKm := 5 in
    let alertId := makeAlertId user now in
    let allUsers := find (_id user) db in
    let alertData :=
      {| alertId := alertId;
         alertUserId := _id user;
         alertUserName := name user;
         alertAccountId := accountId user;
         alertLatitude := latitude;
         alertLongitude := longitude;
         alertAddress := JS.orStr (JS.orStr address (callerAddress user)) None;
         alertTimestamp := now |} in
    let '(nearbyUserIds, emitted) :=
      notifyNearby alertData latitude longitude radiusKm allUsers [] [] in
    {| response :=
         Success {| sosAlertId := alertId;
                    nearbyUsersNotified := length nearbyUserIds;
                    nearbyUserIds := nearbyUserIds |} None;
       user := user;
       effects := Find (_id user) :: emitted |}.

(** What is delivered: every emitted event reaches the live sockets that
    joined its room, and nobody else. *)
Definition deliveries (srv : Presence.Server) (effects : list Effect)
    : list (Presence.Socket * string * Payload) :=
  flat_map
    (fun e =>
       match e with
       | Emit room event payload =>
           map (fun socket => (socket, event, payload))
               (Presence.recipients srv room)
       | _ => []
       end)
    effects.
End EmergencyRoutes.

(** ** The proximity search in the words of the spec, for comparison *)

Module ProximitySpec.
Local Open Scope R_scope.
Import EmergencyRoutes.

(** [distanceKm] from the origin to a candidate of the snapshot. *)
Definition distanceKm (latitude longitude : R) (c : Candidate) : R :=
  calculateDistance latitude longitude
    (candidateLatitude c) (candidateLongitude c).

(** "retains those <= radiusKm" *)
Definition withinRadius (latitude longitude radiusKm : R) (c : Candidate)
    : bool :=
  bool_decide (distanceKm latitude longitude c <= radiusKm).

(** The entry reported for a retained candidate. *)
Definition entry (latitude longitude : R) (c : Candidate) : NearbyUser :=
  {| userId := candidateId c;
     nearbyName := candidateName c;
     nearbyAccountId := candidateAccountId c;
     distance := distanceKm latitude longitude c;
     nearbyLatitude := candidateLatitude c;
     nearbyLongitude := candidateLongitude c;
     nearbyAddress := JS.orStr (candidateAddress c) None |}.

(** The event published for a matched recipient. *)
Definition sosEvent (alertData : AlertData) (latitude longitude : R)
    (c : Candidate) : Effect :=
  Emit ("user:" +:+ candidateId c) "nearby-sos-alert"
    (NearbySosAlert alertData (JS.toFixed2 (distanceKm latitude longitude c))).

(** "builds the alert payload (reporter identity, name, location,
    timestamp)" *)
Definition sosAlert (reporter : User) (now : Z) (latitude longitude : R)
    (address : option string) : AlertData :=
  {| alertId := makeAlertId reporter now;
     alertUserId := _id reporter;
     alertUserName := name reporter;
     alertAccountId := accountId reporter;
     alertLatitude := latitude;
     alertLongitude := longitude;
     alertAddress :=
       JS.orStr (JS.orStr address (callerAddress reporter)) None;
     alertTimestamp := now |}.

(** "sorted ascending by distance" *)
Definition ascending (l : list NearbyUser) : Prop :=
  StronglySorted (fun a b => distance a <= distance b) l.

(** "stable tie-break: original snapshot order for equal distances": the
    entries at any one distance come in the order they had in [original]. *)
Definition keepsTies (original sorted : list NearbyUser) : Prop :=
  forall d : R,
    filter (fun e => distance e = d) sorted
    = filter (fun e => distance e = d) original.
End ProximitySpec.

(** ** Sample data for the worked cases *)

Module Samples.
Local Open Scope R_scope.

(** A route path running north from one degree of latitude. *)
Definition northPath : list (R * R) := [(1, 0); (2, 0)].

Definition origin : Place := {| coordinates := {| lat := 0; lng := 0 |} |}.

Definition twoNorth : Place := {| coordinates := {| lat := 2; lng := 0 |} |}.

(** An active journey on [northPath], started at time 0. *)
Definition trip (alerted : bool) (alertTime : option Z) : Journey :=
  {| isActive := true;
     from := Some origin;
     to := Some twoNorth;
     selectedRoutePath := northPath;
     deviationDetected := alerted;
     deviationAlertSent := alerted;
     deviationAlertTime := alertTime;
     startedAt := Some 0%Z |}.

Definition traveler (parent : option string) (journey : option Journey)
    : User :=
  {| _id := "child1"; name := "Asha"; displayName := None;
     accountId := "WS-0001"; parentId := parent; isAppEnabled := true;
     currentLocation := None; activeJourney := journey |}.

(** Two sockets of the same user. *)
Definition socketA : Presence.Socket :=
  {| Presence.id := "socketA"; Presence.userId := "parent1";
     Presence.parentId := None; Presence.children := ["child1"] |}.

Definition socketB : Presence.Socket :=
  {| Presence.id := "socketB"; Presence.userId := "parent1";
     Presence.parentId := None; Presence.children := ["child1"] |}.

Definition idleServer : Presence.Server :=
  {| Presence.connectedUsers := ∅; Presence.sockets := [] |}.

(** Six minutes, in milliseconds. *)
Definition sixMinutes : Z := 360000.

(** A user with the app enabled and a stored location. *)
Definition located (uid nm : string) (la lo : R) : User :=
  {| _id := uid; name := nm; displayName := None;
     accountId := "WS-" +:+ uid; parentId := None; isAppEnabled := true;
     currentLocation :=
       Some {| latitude := Some la; longitude := Some lo; address := None;
               timestamp := Some 0%Z |};
     activeJourney := None |}.

(** The latitude reached [km] kilometres due north of the equator. *)
Definition degreesNorth (km : R) : R := km * 180 / (6371 * PI).

Definition caller : User := located "u0" "Meera" (1 / 100) (368 / 10).

(** A user standing on the equator, about 1.1 km south of [caller]. *)
Definition onEquator : User := located "u5" "Kavya" 0 (368 / 10).

(** Users 10 km, 4 km and 1 km north of the point (0, 0), in that order,
    with the caller among them. *)
Definition town : list User :=
  [located "u10" "Divya" (degreesNorth 10) 0;
   located "u4" "Nisha" (degreesNorth 4) 0;
   caller;
   located "u1" "Rekha" (degreesNorth 1) 0].

(** A user 1.234 km north of the point (0, 0). *)
Definition neighbour : User :=
  located "u9" "Pooja" (degreesNorth (1234 / 1000)) 0.

(** A clock reading, in milliseconds. *)
Definition noon : Z := 1700000000000.

(** A user without any stored location. *)
Definition unlocated : User :=
  {| _id := "u7"; name := "Tara"; displayName := None;
     accountId := "WS-u7"; parentId := None; isAppEnabled := true;
     currentLocation := None; activeJourney := None |}.
End Samples.

(** ** The states of the presence registry ([index.js], lines 167-199) *)

Module PresenceRuns.
Import Presence.

(** A socket is live when it is connected. *)
Definition live (srv : Server) (socket : Socket) : Prop :=
  socket ∈ (sockets srv).*1.

(** The states the process goes through: from the empty registry, sockets
    connect and live sockets disconnect.  The transport gives a new socket an
    id that no live socket has; its ids are drawn from letters, digits, "-"
    and "_", so they hold no colon. *)
Inductive reachable : Server -> Prop :=
| reachable_start :
    reachable {| connectedUsers := ∅; sockets := [] |}
| reachable_connection (socket : Socket) (srv : Server) :
    reachable srv ->
    (forall other, live srv other -> id other <> id socket) ->
    JS.includes ":" (id socket) = false ->
    reachable (connection socket srv)
| reachable_disconnect (socket : Socket) (srv : Server) :
    reachable srv ->
    live srv socket ->
    reachable (disconnect socket srv).

(** What holds of every live socket in a run: its rooms are the ones joined
    on connection, its id holds no colon, and no other live socket has its
    id. *)
Definition wellFormed (srv : Server) : Prop :=
  Forall (fun entry => entry.2 = joinedRooms entry.1 /\
                       JS.includes ":" (id entry.1) = false) (sockets srv) /\
  NoDup (map (fun entry => id entry.1) (sockets srv)).
End PresenceRuns.

(** ** Location, app state and battery routes ([createAccountRoutes],
    [routes/accounts.js], lines 167-310) *)

Module AccountRoutes.
Local Open Scope R_scope.

Definition withLocation (user : User) (location : Location) : User :=
  {| _id := _id user; name := name user; displayName := displayName user;
     accountId := accountId user; parentId := parentId user;
     isAppEnabled := isAppEnabled user;
     currentLocation := Some location;
     activeJourney := activeJourney user |}.

Definition withAppEnabled (user : User) (enabled : bool) : User :=
  {| _id := _id user; name := name user; displayName := displayName user;
     accountId := accountId user; parentId := parentId user;
     isAppEnabled := enabled;
     currentLocation := currentLocation user;
     activeJourney := activeJourney user |}.

(** [PUT /location]; [address] is the body field after [trim()]. *)
Definition putLocation (now : Z) (user : User) (latitude longitude : R)
    (address : option string) : Outcome Location :=
  if negb (isFloat (-90) 90 latitude && isFloat (-180) 180 longitude)
  then {| response := ValidationError; user := user; effects := [] |}
  else if negb (validateCoordinates latitude longitude)
  then {| response := Error "Invalid coordinates" 400; user := user;
          effects := [] |}
  else
    let currentLocation :=
      {| Model.latitude := Some latitude;
         Model.longitude := Some longitude;
         Model.address := JS.orStr address None;
         Model.timestamp := Some now |} in
    let user := withLocation user currentLocation in
    {| response := Success currentLocation (Some "Location updated successfully");
       user := user;
       effects := [Save user] |}.

(** The payloads of the events of these routes. *)
Inductive Notice : Type :=
| AppStateChanged (userId : string) (isAppEnabled : bool)
| ChildAppStateChanged (childId : string) (isAppEnabled : bool)
| ParentAppStateChanged (parentId : string) (isAppEnabled : bool)
| ChildBatteryUpdated (childId : string) (batteryLevel : Z)
    (isCharging : bool) (timestamp : Z).

(** [io.to(room).emit(event, notice)] *)
Record Emitted : Type := {
  room : string;
  event : string;
  notice : Notice;
}.

(** [PUT /app-state]; [children] is [req.user.children]. *)
Definition putAppState (user : User) (children : list string)
    (isAppEnabled : bool) : Outcome bool * list Emitted :=
  let user := withAppEnabled user isAppEnabled in
  let toSelf :=
    [{| room := "user:" +:+ _id user; event := "app-state-changed";
        notice := AppStateChanged (_id user) (Model.isAppEnabled user) |}] in
  let toParent :=
    match parentId user with
    | Some parentId =>
        [{| room := "parent:" +:+ parentId;
            event := "child-app-state-changed";
            notice :=
              ChildAppStateChanged (_id user) (Model.isAppEnabled user) |}]
    | None => []
    end in
  let toChildren :=
    if bool_decide (0 < length children)%nat then
      flat_map
        (fun childIdStr =>
           let parentIdStr := _id user in
           [{| room := "child:" +:+ childIdStr;
               event := "parent-app-state-changed";
               notice :=
                 ParentAppStateChanged parentIdStr (Model.isAppEnabled user) |};
            {| room := "user:" +:+ childIdStr;
               event := "parent-app-state-changed";
               notice :=
                 ParentAppStateChanged parentIdStr (Model.isAppEnabled user) |}])
        children
    else [] in
  ({| response :=
        Success (Model.isAppEnabled user) (Some "App state updated successfully");
      user := user;
      effects := [Save user] |},
   toSelf ++ toParent ++ toChildren).

(** The battery fields of the user document. *)
Record Battery : Type := {
  batteryLevel : Z;
  isCharging : bool;
  batteryUpdatedAt : option Z;
}.

(** [POST /battery-status]: the answer, the battery fields as saved, the
    events. *)
Definition postBatteryStatus (now : Z) (user : User) (stored : Battery)
    (batteryLevel : Z) (isCharging : bool)
    : Response Battery * Battery * list Emitted :=
  if negb (bool_decide (0 <= batteryLevel)%Z &&
           bool_decide (batteryLevel <= 100)%Z)
  then (ValidationError, stored, [])
  else
    let saved :=
      {| batteryLevel := batteryLevel; isCharging := isCharging;
         batteryUpdatedAt := Some now |} in
    let toParent :=
      match parentId user with
      | Some parentId =>
          [{| room := "parent:" +:+ parentId;
              event := "child-battery-updated";
              notice :=
                ChildBatteryUpdated (_id user) batteryLevel isCharging now |}]
      | None => []
      end in
    (Success saved (Some "Battery status updated successfully"), saved,
     toParent).

(** What the events reach: each one the live sockets of its room. *)
Definition delivered (srv : Presence.Server) (emitted : list Emitted)
    : list (Presence.Socket * string * Notice) :=
  flat_map
    (fun e =>
       map (fun socket => (socket, event e, notice e))
           (Presence.recipients srv (room e)))
    emitted.
End AccountRoutes.

(** ** Emergency contacts ([createAccountRoutes], [routes/accounts.js],
    lines 313-493) *)

Module ContactRoutes.

(** An entry of [user.emergencyContacts]. *)
Record Contact : Type := {
  id : string;
  name : string;
  phone : string;
}.

(** [notEmpty()] of express-validator, on a field that [trim()] has already
    rewritten. *)
Definition notEmpty (field : string) : bool := negb (bool_decide (field = "")).

(** [contacts.find(c => c.id === id)] *)
Definition findContact (wanted : string) (contacts : list Contact)
    : option Contact :=
  List.find (fun c => bool_decide (id c = wanted)) contacts.

(** [GET /contacts]; [found] is the document read by [User.findById], with
    its contacts. *)
Definition getContacts (found : option (list Contact))
    : Response (list Contact) :=
  match found with
  | None => Error "User not found" 404
  | Some emergencyContacts => Success emergencyContacts None
  end.

(** [POST /contacts]: the answer and the contacts as stored afterwards. *)
Definition postContact (found : option (list Contact))
    (id name phone : string)
    : Response Contact * option (list Contact) :=
  if negb (notEmpty id && notEmpty name && notEmpty phone)
  then (ValidationError, found)
  else
    match found with
    | None => (Error "User not found" 404, found)
    | Some emergencyContacts =>
        match findContact id emergencyContacts with
        | Some existingContact =>
            (Error "Contact with this ID already exists" 400, found)
        | None =>
            let contact := {| id := id; name := name; phone := phone |} in
            (Success contact (Some "Contact added successfully"),
             Some (emergencyContacts ++ [contact]))
        end
    end.

(** [PUT /contacts/sync] *)
Definition putContactsSync (found : option (list Contact))
    (contacts : list Contact)
    : Response (list Contact) * option (list Contact) :=
  if negb (forallb (fun c => notEmpty (id c) && notEmpty (name c) &&
                             notEmpty (phone c)) contacts)
  then (ValidationError, found)
  else
    match found with
    | None => (Error "User not found" 404, found)
    | Some _ =>
        (Success contacts (Some "Contacts synced successfully"),
         Some contacts)
    end.

(** The assignment to the fields of the contact that [find] returned: the
    first contact with that id, in place. *)
Fixpoint assignFirst (wanted : string) (newName newPhone : option string)
    (contacts : list Contact) : list Contact :=
  match contacts with
  | [] => []
  | contact :: rest =>
      if bool_decide (id contact = wanted)
      then {| id := id contact;
              name := default (name contact) newName;
              phone := default (phone contact) newPhone |} :: rest
      else contact :: assignFirst wanted newName newPhone rest
  end.

(** [PUT /contacts/:contactId]; a body field that is left out is [None]. *)
Definition putContact (found : option (list Contact)) (contactId : string)
    (name phone : option string)
    : Response Contact * option (list Contact) :=
  if negb (notEmpty contactId &&
           from_option notEmpty true name &&
           from_option notEmpty true phone)
  then (ValidationError, found)
  else
    match found with
    | None => (Error "User not found" 404, found)
    | Some emergencyContacts =>
        match findContact contactId emergencyContacts with
        | None => (Error "Contact not found" 404, found)
        | Some contact =>
            (Success {| id := id contact;
                        name := default (ContactRoutes.name contact) name;
                        phone := default (ContactRoutes.phone contact) phone |}
                     (Some "Contact updated successfully"),
             Some (assignFirst contactId name phone emergencyContacts))
        end
    end.

(** [DELETE /contacts/:contactId] *)
Definition deleteContact (found : option (list Contact)) (contactId : string)
    : Response unit * option (list Contact) :=
  if negb (notEmpty contactId)
  then (ValidationError, found)
  else
    match found with
    | None => (Error "User not found" 404, found)
    | Some emergencyContacts =>
        (Success () (Some "Contact deleted successfully"),
         Some (List.filter (fun c => negb (bool_decide (id c = contactId)))
                 emergencyContacts))
    end.
End ContactRoutes.

(** ** The journeys written by [/start] and [/stop], and the answer of
    [/check-deviation] without a route ([routes/journey.js]) *)

Module JourneyStates.
Import JourneyRoutes.

Definition startedJourney (now : Z) (from to : Place)
    (selectedRoutePath : option (list (R * R))) : Journey :=
  {| isActive := true; from := Some from; to := Some to;
     selectedRoutePath := default [] selectedRoutePath;
     deviationDetected := false; deviationAlertSent := false;
     deviationAlertTime := None; startedAt := Some now |}.

Definition stoppedJourney : Journey :=
  {| isActive := false; from := None; to := None; selectedRoutePath := [];
     deviationDetected := false; deviationAlertSent := false;
     deviationAlertTime := None; startedAt := None |}.

Definition idleReport : Report :=
  {| onRoute := true; distanceFromRoute := None; alertSent := false;
     alertPending := false; parentAlerted := false;
     message := "No active journey or route path" |}.
End JourneyStates.

(** ** Paged listings ([GET /images] of [createEmergencyRoutes],
    [routes/accounts.js], lines 697-726, and [GET /] of [routes/alerts.js],
    lines 36-73; [GET /children] pages with the same lines) *)

Module Paging.

(** [parseInt(text) || fallback]: [None] is NaN, which is also what a
    parameter that is left out parses to. *)
Definition orDefault (parsed : option Z) (fallback : Z) : Z :=
  match parsed with
  | Some n => if bool_decide (n = 0%Z) then fallback else n
  | None => fallback
  end.

Record Pagination : Type := {
  page : Z;
  limit : Z;
  total : Z;
  totalPages : Z;
  hasNextPage : bool;
  hasPrevPage : bool;
}.

Record Listing (A : Type) : Type := {
  docs : list A;
  pagination : Pagination;
}.
Arguments docs {A}.
Arguments pagination {A}.

(** [.skip(skip).limit(limit)] on the documents that match, in the order of
    the query, for a [skip] that is not negative and a positive [limit]. *)
Definition window {A} (skip limit : Z) (found : list A) : list A :=
  take (Z.to_nat limit) (drop (Z.to_nat skip) found).

(** The paging lines of the three routes; [found] is what the query matches
    and [countDocuments] counts. *)
Definition listing {A} (fallback : Z) (found : list A)
    (queryPage queryLimit : option Z) : Listing A :=
  let page := orDefault queryPage 1 in
  let limit := Z.min (orDefault queryLimit fallback) 100 in
  let skip := ((page - 1) * limit)%Z in
  let docs := window skip limit found in
  let total := Z.of_nat (length found) in
  {| docs := docs;
     pagination :=
       {| page := page;
          limit := limit;
          total := total;
          totalPages := Zceil (IZR total / IZR limit);
          hasNextPage := bool_decide (page * limit < total)%Z;
          hasPrevPage := bool_decide (page > 1)%Z |} |}.

(** [GET /images]; [found] are the images of the caller, newest first. *)
Definition getImages {A} (found : list A) (queryPage queryLimit : option Z)
    : Response (Listing A) :=
  Success (listing 50 found queryPage queryLimit) None.

(** [optional().isInt({ min, max })] of express-validator on a parameter
    that is an integer when it is there. *)
Definition isInt (min : Z) (max : option Z) (value : option Z) : bool :=
  match value with
  | None => true
  | Some n =>
      bool_decide (min <= n)%Z &&
      from_option (fun m => bool_decide (n <= m)%Z) true max
  end.

(** [GET /] of the alert routes; [found] are all alerts, newest first. *)
Definition getAlerts {A} (found : list A) (queryPage queryLimit : option Z)
    : Response (Listing A) :=
  if negb (isInt 1 None queryPage && isInt 1 (Some 100%Z) queryLimit)
  then ValidationError
  else Success (listing 20 found queryPage queryLimit) None.
End Paging.

(** ** Emergency recordings ([POST /upload-audio] of
    [createEmergencyRoutes], [routes/accounts.js], lines 611-694) *)

Module AudioRoutes.






End AudioRoutes.

(** ** Missing posters ([routes/missingPosters.js]) *)

Module MissingPosters.

Record Poster : Type := {
  id : Z;
  userId : string;
  name : string;
  description : string;
  contactNumber : string;
  photoUri : option string;
  createdBy : string;
  createdAt : string;
}.

(** The module state: [missingPosters] and [nextId]. *)
Record Store : Type := {
  missingPosters : list Poster;
  nextId : Z;
}.

Definition initial : Store := {| missingPosters := []; nextId := 1 |}.

(** The fields of [req.user] that the routes read. *)
Record Requester : Type := {
  _id : string;
  userName : string;
  email : string;
}.

(** [res.status(status).json({ message, poster })] *)
Record Reply : Type := {
  status : Z;
  message : string;
  poster : option Poster;
}.

(** A body field is falsy when it is missing or the empty string. *)
Definition falsy (field : option string) : bool :=
  match JS.orStr field None with Some _ => false | None => true end.

(** [POST /] *)
Definition create (nowIso : string) (reqUser : Requester)
    (name description contactNumber photoUri : option string)
    (store : Store) : Reply * Store :=
  if falsy name || falsy description || falsy contactNumber
  then ({| status := 400;
           message := "Name, description, and contact number are required";
           poster := None |}, store)
  else
    let poster :=
      {| id := nextId store;
         userId := _id reqUser;
         name := default "" name;
         description := default "" description;
         contactNumber := default "" contactNumber;
         photoUri := JS.orStr photoUri None;
         createdBy :=
           default (email reqUser) (JS.orStr (Some (userName reqUser)) None);
         createdAt := nowIso |} in
    ({| status := 201; message := "Missing poster created successfully";
        poster := Some poster |},
     {| missingPosters := missingPosters store ++ [poster];
        nextId := (nextId store + 1)%Z |}).

(** [GET /]: [missingPosters.slice().reverse().slice(0, 50)] *)
Definition recentPosters (store : Store) : list Poster :=
  take 50 (rev (missingPosters store)).

(** [missingPosters.findIndex(p => p.id === posterId && p.userId.toString()
    === userId)]; [posterId] is [None] when [parseInt] gives NaN. *)
Fixpoint findIndex (posterId : option Z) (userId' : string)
    (posters : list Poster) : option nat :=
  match posters with
  | [] => None
  | p :: rest =>
      if bool_decide (Some (id p) = posterId) &&
         bool_decide (userId p = userId')
      then Some 0%nat
      else S <$> findIndex posterId userId' rest
  end.

(** [DELETE /:id] *)
Definition delete (reqUser : Requester) (posterId : option Z)
    (store : Store) : Reply * Store :=
  match findIndex posterId (_id reqUser) (missingPosters store) with
  | None =>
      ({| status := 404; message := "Poster not found or unauthorized";
          poster := None |}, store)
  | Some posterIndex =>
      ({| status := 200; message := "Poster deleted successfully";
          poster := None |},
       {| missingPosters := base.delete posterIndex (missingPosters store);
          nextId := nextId store |})
  end.

(** The states of the module over the requests it serves. *)
Inductive reachable : Store -> Prop :=
| reachable_initial : reachable initial
| reachable_create nowIso reqUser name description contactNumber photoUri
    store :
    reachable store ->
    reachable
      (create nowIso reqUser name description contactNumber photoUri store).2
| reachable_delete reqUser posterId store :
    reachable store -> reachable (delete reqUser posterId store).2.
End MissingPosters.

(** ** Removal of duplicate contacts ([cleanup-duplicates.js]) *)

Module Cleanup.
Import ContactRoutes.

(** The characters matched by [/\s|-|\(|\)/]: white space (of the code
    units below 256), the hyphen and the parentheses. *)
Definition stripped (c : ascii) : bool :=
  bool_decide (c ∈ [ascii_of_nat 9; ascii_of_nat 10; ascii_of_nat 11;
                    ascii_of_nat 12; ascii_of_nat 13; ascii_of_nat 32;
                    ascii_of_nat 160;
                    "-"%char; "("%char; ")"%char]).

(** [contact.phone.replace(/\s|-|\(|\)/g, '')] *)
Fixpoint normalizedPhone (phone : string) : string :=
  match phone with
  | EmptyString => EmptyString
  | String c rest =>
      if stripped c then normalizedPhone rest
      else String c (normalizedPhone rest)
  end.

(** The loop over the contacts of one user: [uniqueContacts] after it, from
    the phones seen so far. *)
Fixpoint uniqueContacts (seenPhones : gset string) (contacts : list Contact)
    : list Contact :=
  match contacts with
  | [] => []
  | contact :: rest =>
      let phone := normalizedPhone (phone contact) in
      if bool_decide (phone ∈ seenPhones)
      then uniqueContacts seenPhones rest
      else contact :: uniqueContacts ({[ phone ]} ∪ seenPhones) rest
  end.

(** The body of the loop over the users: the contacts that are saved, or
    [None] when the user is left as it is. *)
Definition cleanupUser (emergencyContacts : option (list Contact))
    : option (list Contact) :=
  match emergencyContacts with
  | None => None
  | Some contacts =>
      if bool_decide (0 < length contacts)%nat then
        let unique := uniqueContacts ∅ contacts in
        if bool_decide (length unique < length contacts)%nat
        then Some unique else None
      else None
  end.
End Cleanup.

(** ** The exemptions of the general rate limiter ([index.js], lines
    97-124) *)

Module RateLimit.

(** [s.startsWith(pattern)] *)
Fixpoint startsWith (pattern s : string) : bool :=
  match pattern, s with
  | EmptyString, _ => true
  | String p pattern, String c s => bool_decide (p = c) && startsWith pattern s
  | String _ _, EmptyString => false
  end.

(** [s.includes(pattern)] *)
Fixpoint includes (pattern s : string) : bool :=
  startsWith pattern s ||
  match s with
  | EmptyString => false
  | String _ rest => includes pattern rest
  end.

Definition skipPatterns : list string :=
  ["emergency/sos-broadcast"; "emergency/upload-image";
   "emergency/upload-audio"; "accounts/location"; "accounts/contacts";
   "auth/register"; "auth/login"].

(** [skip] of [apiLimiter]: [originalUrl] is the request URL with its query
    string, [path] the path below the mount point. *)
Definition skip (originalUrl path : string) : bool :=
  let fullPath := default path (JS.orStr (Some originalUrl) None) in
  existsb (fun pattern => includes pattern fullPath || includes pattern path)
          skipPatterns.
End RateLimit.

(** ** Linking and unlinking child accounts ([POST /add] and
    [DELETE /children/:childId] of [createAccountRoutes],
    [routes/accounts.js], lines 22-75 and 124-165) *)

Module ChildRoutes.

(** The fields of a user document that the two routes read or write. *)
Record Account : Type := {
  _id : string;
  accountId : string;
  name : string;
  displayName : option string;
  parentId : option string;
  children : list string;
}.

(** [doc.save()] on the users collection, which maps [_id] to the
    document. *)
Definition save (doc : Account) (db : gmap string Account)
    : gmap string Account :=
  <[_id doc := doc]> db.

(** [User.findOne({ accountId })] *)
Definition findOne (wanted : string) (db : gmap string Account)
    : option Account :=
  List.find (fun doc => bool_decide (accountId doc = wanted))
            (map snd (map_to_list db)).

Definition linked (doc : Account) (parent : option string)
    (displayName : option string) : Account :=
  {| _id := _id doc; accountId := accountId doc; name := name doc;
     displayName := displayName; parentId := parent;
     children := children doc |}.

Definition withChildren (doc : Account) (children : list string) : Account :=
  {| _id := _id doc; accountId := accountId doc; name := name doc;
     displayName := displayName doc; parentId := parentId doc;
     children := children |}.

Record ChildView : Type := {
  viewId : string;
  viewName : string;
  viewAccountId : string;
  viewDisplayName : string;
}.

(** [POST /add]; [accountId] is the body field as the handler looks it up,
    that is trimmed and in upper case; [reqUser] is the document that the
    authentication loaded.  The answer and the collection afterwards. *)
Definition postAdd (db : gmap string Account) (reqUser : Account)
    (accountId : string) (displayName : option string)
    : Response ChildView * gmap string Account :=
  if negb (ContactRoutes.notEmpty accountId)
  then (ValidationError, db)
  else
    match findOne accountId db with
    | None => (Error "Account with this ID not found" 404, db)
    | Some childUser =>
        if bool_decide (parentId childUser <> None)
        then (Error "This account is already linked to another parent" 400,
              db)
        else if bool_decide (_id childUser = _id reqUser)
        then (Error "Cannot add yourself as a child" 400, db)
        else
          let childUser :=
            linked childUser (Some (_id reqUser))
              (match JS.orStr displayName None with
               | Some given => Some given
               | None => ChildRoutes.displayName childUser
               end) in
          let db := save childUser db in
          let db :=
            if negb (bool_decide (_id childUser ∈ children reqUser))
            then save (withChildren reqUser
                         (children reqUser ++ [_id childUser])) db
            else db in
          (Success
             {| viewId := _id childUser;
                viewName := name childUser;
                viewAccountId := ChildRoutes.accountId childUser;
                viewDisplayName :=
                  default (name childUser)
                    (JS.orStr (ChildRoutes.displayName childUser) None) |}
             (Some "Child account added successfully"),
           db)
    end.

(** [DELETE /children/:childId] past its validation, for a [childId] in
    the spelling that [ObjectId.toString()] prints (lower-case digits),
    where the cast of the lookup changes nothing; [deleteChildRequest]
    below is the route on the path parameter as it arrives. *)
Definition deleteChild (db : gmap string Account) (reqUser : Account)
    (childId : string) : Response unit * gmap string Account :=
  match
    db !! childId ≫= fun doc =>
      if bool_decide (parentId doc = Some (_id reqUser)) then Some doc
      else None
  with
  | None =>
      (Error "Child account not found or does not belong to you" 404, db)
  | Some childUser =>
      let db := save (linked childUser None None) db in
      let db :=
        match db !! _id reqUser with
        | Some parentUser =>
            save (withChildren parentUser
                    (List.filter (fun id => negb (bool_decide (id = childId)))
                       (children parentUser)))
                 db
        | None => db
        end in
      (Success () (Some "Child account removed successfully"), db)
  end.

(** A hexadecimal digit, in either case. *)
Definition isHexDigit (c : ascii) : bool :=
  let n := nat_of_ascii c in
  (48 <=? n)%nat && (n <=? 57)%nat ||
  (65 <=? n)%nat && (n <=? 70)%nat ||
  (97 <=? n)%nat && (n <=? 102)%nat.

(** [isMongoId()] of express-validator: 24 hexadecimal digits. *)
Definition isMongoId (text : string) : bool :=
  bool_decide (String.length text = 24%nat) &&
  forallb isHexDigit (list_ascii_of_string text).

Definition lowerDigit (c : ascii) : ascii :=
  let n := nat_of_ascii c in
  if (65 <=? n)%nat && (n <=? 70)%nat then ascii_of_nat (n + 32) else c.

(** The text of the ObjectId that mongoose casts a string of 24 hexadecimal
    digits to, as [toString()] prints it: the digits in lower case. *)
Fixpoint objectIdText (text : string) : string :=
  match text with
  | EmptyString => EmptyString
  | String c rest => String (lowerDigit c) (objectIdText rest)
  end.

(** [DELETE /children/:childId] on the path parameter as it arrives:
    [param('childId').isMongoId()] with [validate], then the lookup, which
    casts [childId] to an ObjectId, and the filter of the parent's children,
    which compares the text of each child's id with [childId] itself. *)
Definition deleteChildRequest (db : gmap string Account) (reqUser : Account)
    (childId : string) : Response unit * gmap string Account :=
  if negb (isMongoId childId)
  then (ValidationError, db)
  else
    match
      db !! objectIdText childId ≫= fun doc =>
        if bool_decide (parentId doc = Some (_id reqUser)) then Some doc
        else None
    with
    | None =>
        (Error "Child account not found or does not belong to you" 404, db)
    | Some childUser =>
        let db := save (linked childUser None None) db in
        let db :=
          match db !! _id reqUser with
          | Some parentUser =>
              save (withChildren parentUser
                      (List.filter
                         (fun id => negb (bool_decide (id = childId)))
                         (children parentUser)))
                   db
          | None => db
          end in
        (Success () (Some "Child account removed successfully"), db)
    end.

(** The links of a collection agree: documents are stored under their id,
    account ids are unique (the schema's index), a child's parent lists the
    child, every listed child names that parent, no child is listed twice,
    and nobody is the parent of oneself. *)
Definition consistent (db : gmap string Account) : Prop :=
  (forall key doc, db !! key = Some doc -> _id doc = key) /\
  (forall key key' doc doc',
     db !! key = Some doc -> db !! key' = Some doc' ->
     accountId doc = accountId doc' -> key = key') /\
  (forall child doc parent,
     db !! child = Some doc -> parentId doc = Some parent ->
     exists parentDoc,
       db !! parent = Some parentDoc /\ child ∈ children parentDoc) /\
  (forall parent parentDoc child,
     db !! parent = Some parentDoc -> child ∈ children parentDoc ->
     exists doc, db !! child = Some doc /\ parentId doc = Some parent) /\
  (forall parent parentDoc,
     db !! parent = Some parentDoc -> NoDup (children parentDoc)) /\
  (forall key doc, db !! key = Some doc -> parentId doc <> Some key).
End ChildRoutes.

(** ** Start-up: connecting to the database with retries ([index.js],
    lines 300-342) *)

Module Startup.
Local Open Scope R_scope.

(** What the start-up does that can be seen from outside. *)
Inductive Event : Type :=
| Connect                 (* await mongoose.connect(...) *)
| Wait (delay : R)        (* await new Promise(r => setTimeout(r, delay)) *)
| Listen                  (* httpServer.listen(...) *)
| Exit (code : Z).        (* process.exit(code) *)

(** The [for] loop from its turn [i], with [turns] turns left; [connected k]
    tells whether the attempt of turn [k] succeeds. *)
Fixpoint connectFrom (connected : nat -> bool) (retries : nat) (i : nat)
    (turns : nat) (delay : R) : list Event :=
  match turns with
  | O => []
  | S turns =>
      Connect ::
      if connected i then [Listen]
      else if bool_decide (i < retries - 1)%nat
      then Wait delay :: connectFrom connected retries (S i) turns
                           (delay * 1.5)
      else [Exit 1]
  end.

(** [connectWithRetry(retries, delay)]; the defaults are 5 and 5000. *)
Definition connectWithRetry (connected : nat -> bool) (retries : nat)
    (delay : R) : list Event :=
  connectFrom connected retries 0 retries delay.
End Startup.

(** ** Sample data for the further properties *)

Module Cases.

(** A socket of the child of "parent1". *)
Definition socketChild : Presence.Socket :=
  {| Presence.id := "socketC"; Presence.userId := "child1";
     Presence.parentId := Some "parent1"; Presence.children := [] |}.

(** The user document of the parent. *)
Definition guardian : User :=
  {| _id := "parent1"; name := "Lakshmi"; displayName := None;
     accountId := "LAKSHMI7Q2X"; parentId := None; isAppEnabled := true;
     currentLocation := None; activeJourney := None |}.

(** The parent connected on socket A, then the child on socket C. *)
Definition family : Presence.Server :=
  Presence.connection socketChild
    (Presence.connection Samples.socketA Samples.idleServer).

(** Two emergency contacts. *)
Definition amma : ContactRoutes.Contact :=
  {| ContactRoutes.id := "c1"; ContactRoutes.name := "Amma";
     ContactRoutes.phone := "+91 98765 43210" |}.

Definition anil : ContactRoutes.Contact :=
  {| ContactRoutes.id := "c2"; ContactRoutes.name := "Anil";
     ContactRoutes.phone := "9876501234" |}.

Definition book : list ContactRoutes.Contact := [amma; anil].

(** Two users and the poster board after each of them put up a poster. *)
Definition asha : MissingPosters.Requester :=
  {| MissingPosters._id := "u1"; MissingPosters.userName := "Asha";
     MissingPosters.email := "asha@example.org" |}.

Definition bina : MissingPosters.Requester :=
  {| MissingPosters._id := "u2"; MissingPosters.userName := "Bina";
     MissingPosters.email := "bina@example.org" |}.

(** A collection of two accounts that are not linked. *)
Definition mother : ChildRoutes.Account :=
  {| ChildRoutes._id := "p1"; ChildRoutes.accountId := "MEERA7K2Q";
     ChildRoutes.name := "Meera"; ChildRoutes.displayName := None;
     ChildRoutes.parentId := None; ChildRoutes.children := [] |}.

Definition daughter : ChildRoutes.Account :=
  {| ChildRoutes._id := "c1"; ChildRoutes.accountId := "ASHA4T9X";
     ChildRoutes.name := "Asha"; ChildRoutes.displayName := None;
     ChildRoutes.parentId := None; ChildRoutes.children := [] |}.

Definition accounts : gmap string ChildRoutes.Account :=
  <["p1" := mother]> (<["c1" := daughter]> ∅).

(** A parent and its linked child under ObjectId texts. *)
Definition guardianId : string := "64b7f0a1c2d3e4f5a6b7c8d9".

Definition wardId : string := "64b7f0a1c2d3e4f5a6b7c8da".

Definition keeper : ChildRoutes.Account :=
  {| ChildRoutes._id := guardianId; ChildRoutes.accountId := "MEERA7K2Q";
     ChildRoutes.name := "Meera"; ChildRoutes.displayName := None;
     ChildRoutes.parentId := None; ChildRoutes.children := [wardId] |}.

Definition ward : ChildRoutes.Account :=
  {| ChildRoutes._id := wardId; ChildRoutes.accountId := "ASHA4T9X";
     ChildRoutes.name := "Asha"; ChildRoutes.displayName := None;
     ChildRoutes.parentId := Some guardianId; ChildRoutes.children := [] |}.

Definition household : gmap string ChildRoutes.Account :=
  <[guardianId := keeper]> (<[wardId := ward]> ∅).

Definition board : MissingPosters.Store :=
  (MissingPosters.create "2024-01-02T10:00:00.000Z" bina (Some "Ravi")
     (Some "Blue shirt, last seen at the bus stand") (Some "9000000002")
     None
     (MissingPosters.create "2024-01-01T10:00:00.000Z" asha (Some "Lata")
        (Some "Red coat, last seen near the market") (Some "9000000001")
        None MissingPosters.initial).2).2.
End Cases.

(** * Properties *)

(** ** Arithmetic of the distance helper *)

Section DistanceFacts.
Local Open Scope R_scope.

Lemma PI_gt_3 : 3 < PI.
Proof. pose proof PI2_3_2. lra. Qed.

(** [atan2] of a point of the first quadrant of the unit circle is its
    angle. *)
Lemma atan2_sin_cos x : 0 <= x <= PI / 2 -> JS.atan2 (sin x) (cos x) = x.
Proof.
  intros [H0 H1]. unfold JS.atan2.
  destruct (Rlt_dec 0 (cos x)) as [Hc|Hc].
  - assert (x < PI / 2).
    { destruct H1 as [H1|H1]; [done|]. subst. rewrite cos_PI2 in Hc. lra. }
    change (sin x / cos x) with (tan x). apply atan_tan. lra.
  - assert (Hx : x = PI / 2).
    { destruct H1 as [H1|H1]; [|done]. exfalso. apply Hc, cos_gt_0; lra. }
    subst. rewrite cos_PI2, sin_PI2.
    destruct (Rlt_dec 0 0); [lra|]. destruct (Rlt_dec 0 1); [done|lra].
Qed.

(** For [0 <= a <= 1] the code's [atan2(sqrt a, sqrt (1 - a))] is the
    arcsine of [sqrt a]. *)
Lemma atan2_sqrt_asin a :
  0 <= a <= 1 -> JS.atan2 (sqrt a) (sqrt (1 - a)) = asin (sqrt a).
Proof.
  intros [H0 H1]. unfold JS.atan2.
  destruct H1 as [H1|H1].
  - assert (0 < sqrt (1 - a)) by (apply sqrt_lt_R0; lra).
    destruct (Rlt_dec 0 (sqrt (1 - a))); [|lra].
    assert (Hs : sqrt a < 1).
    { rewrite <- sqrt_1. apply sqrt_lt_1; lra. }
    pose proof (sqrt_pos a).
    rewrite asin_atan by lra.
    rewrite Rsqr_sqrt by done. done.
  - subst. replace (1 - 1) with 0 by lra. rewrite sqrt_0, sqrt_1, asin_1.
    destruct (Rlt_dec 0 0); [lra|]. destruct (Rlt_dec 0 1); [done|lra].
Qed.

(** The quantity under the square roots is a proportion when both
    latitudes have a non-negative cosine. *)
Lemma haversine_arg_bounds p1 p2 dl :
  0 <= cos p1 -> 0 <= cos p2 ->
  0 <= sin ((p2 - p1) / 2) * sin ((p2 - p1) / 2) +
       cos p1 * cos p2 * sin (dl / 2) * sin (dl / 2) <= 1.
Proof.
  intros Hc1 Hc2.
  set (s := sin (dl / 2)).
  assert (Hs : 0 <= s * s <= 1).
  { pose proof (sin2_cos2 (dl / 2)) as E. unfold Rsqr in E. fold s in E.
    split; nra. }
  assert (Hh : sin ((p2 - p1) / 2) * sin ((p2 - p1) / 2) =
               (1 - (cos p1 * cos p2 + sin p1 * sin p2)) / 2).
  { pose proof (cos_2a_sin ((p2 - p1) / 2)) as E.
    replace (2 * ((p2 - p1) / 2)) with (p2 - p1) in E by lra.
    rewrite cos_minus in E. lra. }
  rewrite Hh.
  pose proof (COS_bound (p2 - p1)) as [_ Hm]. rewrite cos_minus in Hm.
  pose proof (COS_bound (p2 + p1)) as [_ Hp]. rewrite cos_plus in Hp.
  assert (0 <= cos p1 * cos p2) by nra.
  replace (cos p1 * cos p2 * s * s) with (cos p1 * cos p2 * (s * s)) by ring.
  split; nra.
Qed.

Lemma cos_rad_nonneg d : -90 <= d <= 90 -> 0 <= cos (d * PI / 180).
Proof.
  intros Hd. pose proof PI_RGT_0. apply cos_ge_0; nra.
Qed.

(** The helper is the haversine distance of the spec on every pair of
    points whose latitudes are in range. *)
Lemma calculateDistance_haversine lat1 lng1 lat2 lng2 :
  -90 <= lat1 <= 90 -> -90 <= lat2 <= 90 ->
  calculateDistance lat1 lng1 lat2 lng2 = haversineKm lat1 lng1 lat2 lng2.
Proof.
  intros H1 H2. unfold calculateDistance, haversineKm, hav, rad.
  replace ((lat2 * PI / 180 - lat1 * PI / 180) / 2)
    with ((lat2 - lat1) * PI / 180 / 2) by lra.
  replace ((lng2 * PI / 180 - lng1 * PI / 180) / 2)
    with ((lng2 - lng1) * PI / 180 / 2) by lra.
  set (a := sin _ * sin _ + _).
  assert (Ha : 0 <= a <= 1).
  { unfold a.
    replace ((lat2 - lat1) * PI / 180 / 2)
      with ((lat2 * PI / 180 - lat1 * PI / 180) / 2) by lra.
    pose proof (haversine_arg_bounds (lat1 * PI / 180) (lat2 * PI / 180)
                  ((lng2 - lng1) * PI / 180)
                  (cos_rad_nonneg _ H1) (cos_rad_nonneg _ H2)) as Hb.
    lra. }
  rewrite atan2_sqrt_asin by done.
  replace (sin ((lat2 - lat1) * PI / 180 / 2) *
           sin ((lat2 - lat1) * PI / 180 / 2) +
           cos (lat1 * PI / 180) * cos (lat2 * PI / 180) *
           (sin ((lng2 - lng1) * PI / 180 / 2) *
            sin ((lng2 - lng1) * PI / 180 / 2))) with a by (unfold a; ring).
  ring.
Qed.

(** Due north of the origin the distance is the arc of the meridian. *)
Lemma calculateDistance_meridian L :
  0 <= L <= 180 -> calculateDistance 0 0 L 0 = 6371 * (L * PI / 180).
Proof.
  intros HL. unfold calculateDistance.
  pose proof PI_RGT_0 as Hpi.
  replace ((0 - 0) * PI / 180 / 2) with 0 by lra.
  rewrite sin_0.
  set (x := (L - 0) * PI / 180 / 2).
  assert (Hx : 0 <= x <= PI / 2) by (unfold x; split; nra).
  replace (sin x * sin x + cos (0 * PI / 180) * cos (L * PI / 180) * 0 * 0)
    with (Rsqr (sin x)) by (unfold Rsqr; lra).
  assert (Hs : 0 <= sin x) by (apply sin_ge_0; lra).
  assert (Hc : 0 <= cos x) by (apply cos_ge_0; lra).
  rewrite sqrt_Rsqr by done.
  replace (1 - Rsqr (sin x)) with (Rsqr (cos x))
    by (pose proof (sin2_cos2 x); lra).
  rewrite sqrt_Rsqr by done.
  rewrite atan2_sin_cos by done. unfold x. lra.
Qed.

(** The same along the equator. *)
Lemma calculateDistance_equator l1 l2 :
  0 <= l2 - l1 <= 180 ->
  calculateDistance 0 l1 0 l2 = 6371 * ((l2 - l1) * PI / 180).
Proof.
  intros HL. unfold calculateDistance.
  pose proof PI_RGT_0 as Hpi.
  replace ((0 - 0) * PI / 180 / 2) with 0 by lra.
  replace (0 * PI / 180) with 0 by lra.
  rewrite sin_0, cos_0.
  set (x := (l2 - l1) * PI / 180 / 2).
  assert (Hx : 0 <= x <= PI / 2) by (unfold x; split; nra).
  replace (0 * 0 + 1 * 1 * sin x * sin x)
    with (Rsqr (sin x)) by (unfold Rsqr; lra).
  assert (Hs : 0 <= sin x) by (apply sin_ge_0; lra).
  assert (Hc : 0 <= cos x) by (apply cos_ge_0; lra).
  rewrite sqrt_Rsqr by done.
  replace (1 - Rsqr (sin x)) with (Rsqr (cos x))
    by (pose proof (sin2_cos2 x); lra).
  rewrite sqrt_Rsqr by done.
  rewrite atan2_sin_cos by done. unfold x. lra.
Qed.

Lemma calculateDistance_same lat lng : calculateDistance lat lng lat lng = 0.
Proof.
  unfold calculateDistance.
  replace ((lat - lat) * PI / 180 / 2) with 0 by lra.
  replace ((lng - lng) * PI / 180 / 2) with 0 by lra.
  rewrite sin_0.
  replace (0 * 0 + cos (lat * PI / 180) * cos (lat * PI / 180) * 0 * 0)
    with 0 by lra.
  rewrite sqrt_0. replace (1 - 0) with 1 by lra. rewrite sqrt_1.
  unfold JS.atan2. destruct (Rlt_dec 0 1); [|lra].
  replace (0 / 1) with 0 by lra. rewrite atan_0. lra.
Qed.

(** One degree of latitude, about 111 km, with the bounds [3 < PI <= 4]. *)
Lemma one_degree_north : 106 < calculateDistance 0 0 1 0 < 142.
Proof.
  rewrite calculateDistance_meridian by lra.
  pose proof PI_gt_3. pose proof PI_4. lra.
Qed.
(** Between two points of one meridian the distance is the arc between
    their latitudes. *)
Lemma calculateDistance_along_meridian la lb lng :
  -180 <= lb - la <= 180 ->
  calculateDistance la lng lb lng = 6371 * (Rabs (lb - la) * PI / 180).
Proof.
  intros HL. unfold calculateDistance.
  pose proof PI_RGT_0 as Hpi.
  replace ((lng - lng) * PI / 180 / 2) with 0 by lra.
  rewrite sin_0.
  set (x := Rabs (lb - la) * PI / 180 / 2).
  assert (Habs : 0 <= Rabs (lb - la) <= 180).
  { split; [apply Rabs_pos|]. apply Rabs_le. lra. }
  assert (Hx : 0 <= x <= PI / 2) by (unfold x; split; nra).
  assert (Hsq : sin ((lb - la) * PI / 180 / 2) * sin ((lb - la) * PI / 180 / 2)
                = Rsqr (sin x)).
  { unfold x, Rabs. destruct (Rcase_abs (lb - la)).
    - replace (- (lb - la) * PI / 180 / 2)
        with (- ((lb - la) * PI / 180 / 2)) by lra.
      rewrite sin_neg. unfold Rsqr. ring.
    - reflexivity. }
  replace (sin ((lb - la) * PI / 180 / 2) * sin ((lb - la) * PI / 180 / 2) +
           cos (la * PI / 180) * cos (lb * PI / 180) * 0 * 0)
    with (Rsqr (sin x)) by lra.
  assert (Hs : 0 <= sin x) by (apply sin_ge_0; lra).
  assert (Hc : 0 <= cos x) by (apply cos_ge_0; lra).
  rewrite sqrt_Rsqr by done.
  replace (1 - Rsqr (sin x)) with (Rsqr (cos x))
    by (pose proof (sin2_cos2 x); lra).
  rewrite sqrt_Rsqr by done.
  rewrite atan2_sin_cos by done. unfold x. lra.
Qed.

(** The distance does not depend on the direction of travel. *)
Lemma calculateDistance_sym lat1 lng1 lat2 lng2 :
  calculateDistance lat1 lng1 lat2 lng2 = calculateDistance lat2 lng2 lat1 lng1.
Proof.
  unfold calculateDistance.
  replace ((lat1 - lat2) * PI / 180 / 2)
    with (- ((lat2 - lat1) * PI / 180 / 2)) by lra.
  replace ((lng1 - lng2) * PI / 180 / 2)
    with (- ((lng2 - lng1) * PI / 180 / 2)) by lra.
  rewrite !sin_neg.
  set (u := sin ((lat2 - lat1) * PI / 180 / 2)).
  set (v := sin ((lng2 - lng1) * PI / 180 / 2)).
  replace (- u * - u + cos (lat2 * PI / 180) * cos (lat1 * PI / 180) * - v * - v)
    with (u * u + cos (lat1 * PI / 180) * cos (lat2 * PI / 180) * v * v) by ring.
  reflexivity.
Qed.
End DistanceFacts.

(** ** Minimum distance to the route path *)

Section MinDistance.
Local Open Scope R_scope.
Import JourneyRoutes.

Variables currentLat currentLng : R.

Local Abbreviation dist q := (calculateDistance currentLat currentLng q.1 q.2).

(** From a finite running minimum the loop ends on a finite one: a lower
    bound of the start value and of every vertex seen, and one of them. *)
Lemma fold_nearer_finite path m :
  exists d,
    fold_left (nearer currentLat currentLng) path (Num m) = Num d /\
    d <= m /\
    (forall q, q ∈ path -> d <= dist q) /\
    (d = m \/ exists q, q ∈ path /\ d = dist q).
Proof.
  revert m. induction path as [|p path IH]; intros m; simpl.
  - exists m. split; [done|]. split; [lra|]. split; [|by left].
    intros q Hq. by apply elem_of_nil in Hq.
  - unfold nearer at 2. simpl. fold (dist p).
    case_bool_decide as Hlt.
    + destruct (IH (dist p)) as (d & Hd & Hle & Hall & Hatt).
      exists d. split; [done|]. split; [lra|]. split.
      * intros q [->|Hq]%elem_of_cons; [done|by apply Hall].
      * right. destruct Hatt as [->|(q & Hq & ->)].
        -- exists p. split; [by left|done].
        -- exists q. split; [by right|done].
    + destruct (IH m) as (d & Hd & Hle & Hall & Hatt).
      exists d. split; [done|]. split; [done|]. split.
      * intros q [->|Hq]%elem_of_cons; [lra|by apply Hall].
      * destruct Hatt as [->|(q & Hq & ->)]; [by left|].
        right. exists q. split; [by right|done].
Qed.

Lemma minDistanceToPath_nil : minDistanceToPath currentLat currentLng [] = Infinity.
Proof. reflexivity. Qed.

(** On a path with a vertex the result is the least vertex distance. *)
Lemma minDistanceToPath_least path :
  path <> [] ->
  exists d,
    minDistanceToPath currentLat currentLng path = Num d /\
    (exists q, q ∈ path /\ d = dist q) /\
    (forall q, q ∈ path -> d <= dist q).
Proof.
  destruct path as [|p path]; [done|]. intros _.
  unfold minDistanceToPath. simpl.
  destruct (fold_nearer_finite path (dist p)) as (d & Hd & Hle & Hall & Hatt).
  exists d. split; [done|]. split.
  - destruct Hatt as [->|(q & Hq & ->)].
    + exists p. split; [by left|done].
    + exists q. split; [by right|done].
  - intros q [->|Hq]%elem_of_cons; [done|by apply Hall].
Qed.
End MinDistance.

(** ** The journey routes, case by case *)

Section JourneyFacts.
Local Open Scope R_scope.
Import JourneyRoutes.

Lemma validateCoordinates_isFloat lat lng :
  validateCoordinates lat lng =
  isFloat (-90) 90 lat && isFloat (-180) 180 lng.
Proof. unfold validateCoordinates, isFloat. by rewrite !andb_assoc. Qed.

Lemma validateCoordinates_true lat lng :
  -90 <= lat <= 90 -> -180 <= lng <= 180 ->
  validateCoordinates lat lng = true.
Proof.
  intros [? ?] [? ?]. unfold validateCoordinates.
  by rewrite !bool_decide_eq_true_2.
Qed.

(** Opens [/check-deviation] on a valid request for an active journey
    with a route path: what is left is the choice on the distance. *)
Lemma path_length_nonzero (path : list (R * R)) :
  path <> [] -> bool_decide (length path = 0%nat) = false.
Proof. destruct path; [done|]. intros _. by apply bool_decide_eq_false_2. Qed.

(** Without an active journey with a route path, or on invalid
    coordinates, the handler changes nothing and emits nothing. *)
Lemma checkDeviation_idle connectedUsers now reqUser lat lng :
  (validateCoordinates lat lng = false \/
   activeJourney reqUser = None \/
   exists journey, activeJourney reqUser = Some journey /\
     (isActive journey = false \/ selectedRoutePath journey = [])) ->
  let out := checkDeviation connectedUsers now reqUser lat lng in
  Model.user out = reqUser /\ effects out = [] /\
  forall report msg, response out = Success report msg ->
    distanceFromRoute report = None /\ onRoute report = true.
Proof.
  intros H. unfold checkDeviation.
  destruct (isFloat (-90) 90 lat && isFloat (-180) 180 lng) eqn:Hf; simpl;
    [|done].
  rewrite <- validateCoordinates_isFloat in Hf. rewrite Hf. simpl.
  destruct H as [Hv|[Hn|(journey & Hj & Hc)]].
  - congruence.
  - rewrite Hn. repeat split; intros; cbn in *; simplify_eq; done.
  - rewrite Hj. destruct Hc as [->| ->]; simpl.
    + repeat split; intros; cbn in *; simplify_eq; done.
    + rewrite orb_true_r. repeat split; intros; cbn in *; simplify_eq; done.
Qed.
End JourneyFacts.

Ltac open_checkDeviation Hv Hj Ha Hp :=
  unfold JourneyRoutes.checkDeviation;
  let Hf := fresh "Hf" in
  pose proof Hv as Hf; rewrite validateCoordinates_isFloat in Hf;
  rewrite Hf, Hv, Hj, Ha, (path_length_nonzero _ Hp);
  cbn [negb orb andb].

(** ** The deviation state machine *)

Section JourneyClaims.
Local Open Scope R_scope.
Import JourneyRoutes.

(** Off route means: farther than the threshold from every vertex. *)
Lemma off_route_iff lat lng path :
  path <> [] ->
  JS.gt (minDistanceToPath lat lng path) (Num DEVIATION_THRESHOLD) = true <->
  forall q, q ∈ path ->
    DEVIATION_THRESHOLD < calculateDistance lat lng q.1 q.2.
Proof.
  intros Hp.
  destruct (minDistanceToPath_least lat lng path Hp)
    as (d & -> & (q0 & Hq0 & Hd) & Hall).
  unfold JS.gt, JS.lt. rewrite bool_decide_eq_true. split.
  - intros Hlt q Hq. specialize (Hall q Hq). lra.
  - intros H. rewrite Hd. by apply H.
Qed.

(** Standing on a vertex of the path is on route. *)
Lemma on_route_at_vertex (q : R * R) path :
  q ∈ path ->
  JS.gt (minDistanceToPath q.1 q.2 path) (Num DEVIATION_THRESHOLD) = false.
Proof.
  intros Hq.
  assert (Hp : path <> []) by (intros ->; by apply elem_of_nil in Hq).
  destruct (JS.gt _ _) eqn:E; [|done].
  pose proof (proj1 (off_route_iff _ _ _ Hp) E q Hq) as Hlt.
  rewrite calculateDistance_same in Hlt. unfold DEVIATION_THRESHOLD in Hlt.
  lra.
Qed.

Lemma northPath_off_route :
  JS.gt (minDistanceToPath 0 0 Samples.northPath) (Num DEVIATION_THRESHOLD)
  = true.
Proof.
  apply (proj2 (off_route_iff 0 0 Samples.northPath ltac:(done))).
  pose proof PI_gt_3.
  intros q Hq. unfold Samples.northPath in Hq.
  apply elem_of_cons in Hq as [->|Hq];
    [|apply elem_of_cons in Hq as [->|Hq]; [|by apply elem_of_nil in Hq]];
    cbn [fst snd]; rewrite calculateDistance_meridian by lra;
    unfold DEVIATION_THRESHOLD; lra.
Qed.

Lemma northPath_on_route :
  JS.gt (minDistanceToPath 1 0 Samples.northPath) (Num DEVIATION_THRESHOLD)
  = false.
Proof. apply (on_route_at_vertex (1, 0)). by left. Qed.

Lemma origin_valid : validateCoordinates 0 0 = true.
Proof. apply validateCoordinates_true; lra. Qed.

Lemma oneNorth_valid : validateCoordinates 1 0 = true.
Proof. apply validateCoordinates_true; lra. Qed.

(** C3: on an active journey with a route path and no alert sent yet, a
    check whose minimum distance exceeds the 0.2 km threshold sets
    [deviationDetected] and [deviationAlertSent], stamps
    [deviationAlertTime] with the current time, saves the document, answers
    off route with [alertSent], and emits nothing to anybody. *)
Theorem first_deviation_raises_alert
    (connectedUsers : gmap string string) (now : Z) (reqUser : User)
    (journey : Journey) (lat lng : R) :
  validateCoordinates lat lng = true ->
  activeJourney reqUser = Some journey ->
  isActive journey = true ->
  selectedRoutePath journey <> [] ->
  deviationAlertSent journey = false ->
  JS.gt (minDistanceToPath lat lng (selectedRoutePath journey))
        (Num DEVIATION_THRESHOLD) = true ->
  let out := checkDeviation connectedUsers now reqUser lat lng in
  Model.user out =
    withJourney reqUser
      {| isActive := isActive journey; from := from journey;
         to := to journey;
         selectedRoutePath := selectedRoutePath journey;
         deviationDetected := true; deviationAlertSent := true;
         deviationAlertTime := Some now;
         startedAt := startedAt journey |} /\
  response out =
    Success
      {| onRoute := false;
         distanceFromRoute :=
           Some (minDistanceToPath lat lng (selectedRoutePath journey));
         alertSent := true; alertPending := false; parentAlerted := false;
         message := "You seem to have gone off your planned route. Are you okay?" |}
      None /\
  effects out = [Save (Model.user out)] /\
  filter isEmit (effects out) = [].
Proof.
  intros Hv Hj Ha Hp Hs Hoff. open_checkDeviation Hv Hj Ha Hp.
  rewrite Hoff, Hs. cbn [negb andb]. done.
Qed.

Lemma first_deviation_raises_alert_witness :
  let out :=
    checkDeviation ∅ 1000
      (Samples.traveler (Some "parent1") (Some (Samples.trip false None)))
      0 0 in
  Model.user out =
    Samples.traveler (Some "parent1")
      (Some (Samples.trip true (Some 1000%Z))) /\
  filter isEmit (effects out) = [].
Proof.
  pose proof (first_deviation_raises_alert ∅ 1000
                (Samples.traveler (Some "parent1")
                   (Some (Samples.trip false None)))
                (Samples.trip false None) 0 0
                origin_valid eq_refl eq_refl
                ltac:(discriminate) eq_refl northPath_off_route)
    as (Hu & _ & _ & He).
  split; [exact Hu | exact He].
Defined.

(** Whatever the branch, a check never clears a deviation flag that is set
    and never changes a recorded alert time. *)
Lemma checkDeviation_keeps_alert connectedUsers now reqUser journey lat lng :
  activeJourney reqUser = Some journey ->
  exists journey',
    activeJourney (Model.user (checkDeviation connectedUsers now reqUser lat lng))
      = Some journey' /\
    (deviationAlertSent journey = true ->
     deviationAlertSent journey' = true /\
     deviationAlertTime journey' = deviationAlertTime journey) /\
    (deviationDetected journey = true -> deviationDetected journey' = true).
Proof.
  intros Hj. unfold checkDeviation.
  destruct (negb (isFloat _ _ _ && isFloat _ _ _)); [by exists journey|].
  destruct (negb (validateCoordinates _ _)); [by exists journey|].
  rewrite Hj.
  destruct (negb (isActive journey) || _); [by exists journey|].
  destruct (JS.gt _ _); cbn [andb]; [|by exists journey].
  destruct (deviationAlertSent journey) eqn:Hs; cbn [negb].
  - destruct (bool_decide _), (parentId reqUser); by exists journey.
  - eexists. split; [reflexivity|]. done.
Qed.

(** C4: on an active journey, a check whose minimum distance is at most the
    threshold answers on route with that distance, leaves the user document
    (hence every field of the journey) as it was and performs no effect;
    and no check, on or off route, clears a flag that was set or touches a
    recorded alert time. *)
Theorem on_route_check_changes_nothing
    (connectedUsers : gmap string string) (now : Z) (reqUser : User)
    (journey : Journey) (lat lng : R) :
  validateCoordinates lat lng = true ->
  activeJourney reqUser = Some journey ->
  isActive journey = true ->
  selectedRoutePath journey <> [] ->
  JS.gt (minDistanceToPath lat lng (selectedRoutePath journey))
        (Num DEVIATION_THRESHOLD) = false ->
  let out := checkDeviation connectedUsers now reqUser lat lng in
  (response out =
     Success
       {| onRoute := true;
          distanceFromRoute :=
            Some (minDistanceToPath lat lng (selectedRoutePath journey));
          alertSent := false; alertPending := false; parentAlerted := false;
          message := "On route" |}
       None /\
   Model.user out = reqUser /\
   activeJourney (Model.user out) = Some journey /\
   effects out = []) /\
  (forall now' lat' lng',
     exists journey',
       activeJourney
         (Model.user (checkDeviation connectedUsers now' reqUser lat' lng'))
         = Some journey' /\
       (deviationAlertSent journey = true ->
        deviationAlertSent journey' = true /\
        deviationAlertTime journey' = deviationAlertTime journey) /\
       (deviationDetected journey = true ->
        deviationDetected journey' = true)).
Proof.
  intros Hv Hj Ha Hp Hon. split.
  - open_checkDeviation Hv Hj Ha Hp. rewrite Hon. cbn [andb]. done.
  - intros now' lat' lng'. by apply checkDeviation_keeps_alert.
Qed.

Lemma on_route_check_changes_nothing_witness :
  Model.user
    (checkDeviation ∅ 999000
       (Samples.traveler None (Some (Samples.trip true (Some 1000%Z)))) 1 0)
  = Samples.traveler None (Some (Samples.trip true (Some 1000%Z))).
Proof.
  pose proof (on_route_check_changes_nothing ∅ 999000
                (Samples.traveler None
                   (Some (Samples.trip true (Some 1000%Z))))
                (Samples.trip true (Some 1000%Z)) 1 0
                oneNorth_valid eq_refl eq_refl
                ltac:(discriminate) northPath_on_route)
    as [(_ & Hu & _) _].
  exact Hu.
Defined.
End JourneyClaims.

Section JourneyResponses.
Local Open Scope R_scope.
Import JourneyRoutes.




(** A confirmation on a user document without a journey record fails in
    the handler's [catch] and changes nothing. *)
Lemma deviationResponse_without_journey reqUser :
  activeJourney reqUser = None ->
  deviationResponse reqUser true =
  {| response := Error "Failed to record response" 500; user := reqUser;
     effects := [] |}.
Proof. intros Hj. unfold deviationResponse. by rewrite Hj. Qed.

Lemma consistent_reset (journey : Journey) :
  deviationAlertSent journey = false ->
  deviationAlertTime journey = None ->
  alertTimeConsistent journey.
Proof. unfold alertTimeConsistent. intros -> ->. split; done. Qed.

Lemma consistent_stamped (journey : Journey) (t : Z) :
  deviationAlertSent journey = true ->
  deviationAlertTime journey = Some t ->
  alertTimeConsistent journey.
Proof. unfold alertTimeConsistent. intros -> ->. split; done. Qed.

(** C9: the four operations of the engine keep the invariant "the alert
    time is set exactly when the alert flag is": if the user's journey
    satisfies it before [start], [stop], [checkDeviation] (every branch) or
    [respondOkay], it satisfies it afterwards. *)
Theorem alert_time_invariant_preserved
    (connectedUsers : gmap string string) (now : Z) (reqUser : User)
    (from to : Place) (path : option (list (R * R))) (lat lng : R)
    (isOkay : bool) :
  userConsistent reqUser ->
  userConsistent (Model.user (start connectedUsers now reqUser from to path)) /\
  userConsistent (Model.user (stop connectedUsers reqUser)) /\
  userConsistent (Model.user (checkDeviation connectedUsers now reqUser lat lng)) /\
  userConsistent (Model.user (deviationResponse reqUser isOkay)).
Proof.
  intros Hinv. split; [|split; [|split]].
  - unfold start. do 2 (case_match; [done|]). by apply consistent_reset.
  - by apply consistent_reset.
  - unfold checkDeviation.
    destruct (negb (isFloat _ _ _ && isFloat _ _ _)); [exact Hinv|].
    destruct (negb (validateCoordinates _ _)); [exact Hinv|].
    destruct (activeJourney reqUser) as [journey|] eqn:Hj; [|exact Hinv].
    destruct (negb (isActive journey) || _); [exact Hinv|].
    destruct (JS.gt _ _); cbn [andb]; [|exact Hinv].
    destruct (deviationAlertSent journey) eqn:Hs; cbn [negb].
    + destruct (bool_decide _), (parentId reqUser); exact Hinv.
    + by apply (consistent_stamped _ now).
  - unfold deviationResponse. destruct isOkay; [|exact Hinv].
    destruct (activeJourney reqUser) as [journey|] eqn:Hj; [|exact Hinv].
    by apply consistent_reset.
Qed.

Lemma alert_time_invariant_preserved_witness :
  userConsistent
    (Model.user
       (checkDeviation ∅ 1000
          (Samples.traveler None (Some (Samples.trip false None))) 0 0)).
Proof.
  refine (proj1 (proj2 (proj2
    (alert_time_invariant_preserved ∅ 1000
       (Samples.traveler None (Some (Samples.trip false None)))
       Samples.origin Samples.twoNorth None 0 0 true _)))).
  apply consistent_reset; reflexivity.
Defined.
End JourneyResponses.

Section Escalation.
Local Open Scope R_scope.
Import JourneyRoutes.

(** A check made more than five minutes after the alert, still off route:
    the answer depends on the traveler having a parent, the emitted event
    on that parent being in the registry. *)
Lemma overdue_deviation_outcome connectedUsers now reqUser journey lat lng :
  validateCoordinates lat lng = true ->
  activeJourney reqUser = Some journey ->
  isActive journey = true ->
  selectedRoutePath journey <> [] ->
  deviationAlertSent journey = true ->
  JS.gt (minDistanceToPath lat lng (selectedRoutePath journey))
        (Num DEVIATION_THRESHOLD) = true ->
  5 < minutesSince now (JS.newDate (deviationAlertTime journey)) ->
  let out := checkDeviation connectedUsers now reqUser lat lng in
  let minDistance :=
    minDistanceToPath lat lng (selectedRoutePath journey) in
  Model.user out = reqUser /\
  match parentId reqUser with
  | Some parent =>
      response out =
        Success {| onRoute := false; distanceFromRoute := Some minDistance;
                   alertSent := false; alertPending := false;
                   parentAlerted := true;
                   message := "Parent has been notified" |} None /\
      effects out =
        match connectedUsers !! parent with
        | Some parentSocketId =>
            [Emit parentSocketId "child-deviation-alert"
               (ChildDeviationAlert (_id reqUser) (childName reqUser)
                  {| lat := lat; lng := lng |} minDistance now)]
        | None => []
        end
  | None =>
      response out =
        Success {| onRoute := false; distanceFromRoute := Some minDistance;
                   alertSent := false; alertPending := true;
                   parentAlerted := false;
                   message := "Waiting for response" |} None /\
      effects out = []
  end.
Proof.
  intros Hv Hj Ha Hp Hs Hoff Hlate. open_checkDeviation Hv Hj Ha Hp.
  rewrite Hoff, Hs. cbn [negb andb].
  rewrite (bool_decide_eq_true_2 _ Hlate).
  by destruct (parentId reqUser).
Qed.

(** Within the five minutes the answer is [alertPending], whoever is
    connected. *)
Lemma pending_deviation_outcome connectedUsers now reqUser journey lat lng :
  validateCoordinates lat lng = true ->
  activeJourney reqUser = Some journey ->
  isActive journey = true ->
  selectedRoutePath journey <> [] ->
  deviationAlertSent journey = true ->
  JS.gt (minDistanceToPath lat lng (selectedRoutePath journey))
        (Num DEVIATION_THRESHOLD) = true ->
  minutesSince now (JS.newDate (deviationAlertTime journey)) <= 5 ->
  let out := checkDeviation connectedUsers now reqUser lat lng in
  Model.user out = reqUser /\ effects out = [] /\
  response out =
    Success {| onRoute := false;
               distanceFromRoute :=
                 Some (minDistanceToPath lat lng (selectedRoutePath journey));
               alertSent := false; alertPending := true;
               parentAlerted := false;
               message := "Waiting for response" |} None.
Proof.
  intros Hv Hj Ha Hp Hs Hoff Hearly. open_checkDeviation Hv Hj Ha Hp.
  rewrite Hoff, Hs. cbn [negb andb].
  rewrite bool_decide_eq_false_2 by lra. done.
Qed.

Lemma six_minutes_overdue :
  5 < minutesSince Samples.sixMinutes (JS.newDate (Some 0%Z)).
Proof.
  change (5 < IZR 360000 / 1000 / 60). lra.
Qed.

(** C2, on the code: a traveler whose parent is "parent1", alerted at time
    0 and still more than 100 km off the path six minutes later, while the registry
    is empty.  The handler answers [parentAlerted] with the message
    "Parent has been notified" although it emitted nothing; the claim
    expects [alertPending] there. *)
Theorem escalation_reported_without_parent_connection :
  let out :=
    checkDeviation ∅ Samples.sixMinutes
      (Samples.traveler (Some "parent1")
         (Some (Samples.trip true (Some 0%Z))))
      0 0 in
  response out =
    Success {| onRoute := false;
               distanceFromRoute :=
                 Some (minDistanceToPath 0 0 Samples.northPath);
               alertSent := false; alertPending := false;
               parentAlerted := true;
               message := "Parent has been notified" |} None /\
  effects out = [].
Proof.
  pose proof (overdue_deviation_outcome ∅ Samples.sixMinutes
                (Samples.traveler (Some "parent1")
                   (Some (Samples.trip true (Some 0%Z))))
                (Samples.trip true (Some 0%Z)) 0 0
                origin_valid eq_refl eq_refl ltac:(discriminate) eq_refl
                northPath_off_route six_minutes_overdue) as [_ H].
  exact H.
Qed.

(** In exact arithmetic, where no term of the distance helper leaves
    [0, 1], the distance reported by [/check-deviation] is the least, over
    the vertices of the route path, of the haversine distance (Earth radius
    6371 km) from the current point to the vertex: it is the distance to
    one of the vertices and no vertex is nearer, whatever lies between
    two vertices; the running minimum over an empty path is [Infinity]. *)
Theorem least_vertex_distance_in_exact_arithmetic
    (connectedUsers : gmap string string) (now : Z) (reqUser : User)
    (journey : Journey) (lat lng : R) :
  validateCoordinates lat lng = true ->
  activeJourney reqUser = Some journey ->
  isActive journey = true ->
  selectedRoutePath journey <> [] ->
  Forall (fun q : R * R => -90 <= q.1 <= 90) (selectedRoutePath journey) ->
  minDistanceToPath lat lng [] = Infinity /\
  exists report d,
    response (checkDeviation connectedUsers now reqUser lat lng)
      = Success report None /\
    distanceFromRoute report = Some (Num d) /\
    minDistanceToPath lat lng (selectedRoutePath journey) = Num d /\
    (exists q, q ∈ selectedRoutePath journey /\
               d = haversineKm lat lng q.1 q.2) /\
    (forall q, q ∈ selectedRoutePath journey ->
               d <= haversineKm lat lng q.1 q.2).
Proof.
  intros Hv Hj Ha Hp Hrange. split; [done|].
  assert (Hlat : -90 <= lat <= 90).
  { unfold validateCoordinates in Hv.
    repeat (apply andb_prop in Hv as [Hv ?]).
    split; by eapply bool_decide_eq_true_1. }
  assert (Hhav : forall q, q ∈ selectedRoutePath journey ->
            calculateDistance lat lng q.1 q.2 = haversineKm lat lng q.1 q.2).
  { intros q Hq. apply calculateDistance_haversine; [done|].
    by apply (proj1 (Forall_forall _ _) Hrange q). }
  destruct (minDistanceToPath_least lat lng _ Hp)
    as (d & Hd & (q0 & Hq0 & Hatt) & Hall).
  assert (exists report,
            response (checkDeviation connectedUsers now reqUser lat lng)
              = Success report None /\
            distanceFromRoute report = Some (Num d)) as (report & Hr & Hdist).
  { open_checkDeviation Hv Hj Ha Hp. rewrite Hd.
    destruct (JS.gt _ _); cbn [andb].
    - destruct (deviationAlertSent journey); cbn [negb].
      + destruct (bool_decide _), (parentId reqUser); by eexists.
      + by eexists.
    - by eexists. }
  exists report, d. split; [done|]. split; [done|]. split; [done|]. split.
  - exists q0. split; [done|]. by rewrite <- Hhav.
  - intros q Hq. rewrite <- Hhav by done. by apply Hall.
Qed.

(** Vertex-only: half-way along the leg from (0, 0) to (2, 0) the reported
    distance is the 111 km to either end, although the point is on the leg. *)
Lemma halfway_along_leg_is_far :
  minDistanceToPath 1 0 [(0, 0); (2, 0)] = Num (6371 * (1 * PI / 180)) /\
  JS.gt (minDistanceToPath 1 0 [(0, 0); (2, 0)]) (Num DEVIATION_THRESHOLD)
  = true.
Proof.
  assert (H0 : calculateDistance 1 0 0 0 = 6371 * (1 * PI / 180)).
  { rewrite calculateDistance_along_meridian by lra.
    replace (0 - 1) with (Ropp 1) by lra.
    rewrite Rabs_Ropp, Rabs_pos_eq by lra. reflexivity. }
  assert (H2 : calculateDistance 1 0 2 0 = 6371 * (1 * PI / 180)).
  { rewrite calculateDistance_along_meridian by lra.
    replace (2 - 1) with 1 by lra.
    rewrite Rabs_pos_eq by lra. reflexivity. }
  assert (Hmin : minDistanceToPath 1 0 [(0, 0); (2, 0)]
                 = Num (6371 * (1 * PI / 180))).
  { unfold minDistanceToPath. cbn [fold_left]. unfold nearer. cbn [fst snd].
    rewrite H0, H2. cbn [JS.lt].
    rewrite bool_decide_eq_false_2 by lra. reflexivity. }
  split; [exact Hmin|]. rewrite Hmin. unfold JS.gt, JS.lt.
  apply bool_decide_eq_true_2. pose proof PI_gt_3.
  unfold DEVIATION_THRESHOLD. lra.
Qed.

Lemma northPath_in_range :
  Forall (fun q : R * R => -90 <= q.1 <= 90) Samples.northPath.
Proof. repeat constructor; cbn [fst]; lra. Qed.

Lemma least_vertex_distance_in_exact_arithmetic_witness :
  exists report d,
    response
      (checkDeviation ∅ 1000
         (Samples.traveler None (Some (Samples.trip false None))) 0 0)
      = Success report None /\
    distanceFromRoute report = Some (Num d) /\
    minDistanceToPath 0 0 Samples.northPath = Num d /\
    (exists q, q ∈ Samples.northPath /\ d = haversineKm 0 0 q.1 q.2) /\
    (forall q, q ∈ Samples.northPath -> d <= haversineKm 0 0 q.1 q.2).
Proof.
  exact (proj2 (least_vertex_distance_in_exact_arithmetic ∅ 1000
                  (Samples.traveler None (Some (Samples.trip false None)))
                  (Samples.trip false None) 0 0
                  origin_valid eq_refl eq_refl ltac:(discriminate)
                  northPath_in_range)).
Defined.
End Escalation.

(** ** The distance loop on doubles *)

Section RoundedDistance.
Local Open Scope R_scope.
Import JourneyRoutes.

(** On a term in [0, 1], which every exact term of two points with
    latitudes in range is, lines 17-18 give the distance of the helper. *)
Lemma distanceOfTerm_exact lat1 lng1 lat2 lng2 :
  0 <= Rounded.haversineTerm lat1 lng1 lat2 lng2 <= 1 ->
  Rounded.distanceOfTerm (Rounded.haversineTerm lat1 lng1 lat2 lng2)
  = Some (calculateDistance lat1 lng1 lat2 lng2).
Proof.
  intros [H0 H1]. unfold Rounded.distanceOfTerm.
  rewrite !bool_decide_eq_true_2 by lra. reflexivity.
Qed.

(** A term above 1 gives NaN, and NaN never lowers the running minimum. *)
Lemma distanceOfTerm_above_one (a : R) :
  1 < a -> Rounded.distanceOfTerm a = None.
Proof.
  intros Ha. unfold Rounded.distanceOfTerm.
  rewrite (bool_decide_eq_false_2 (0 <= 1 - a)) by lra.
  by rewrite andb_false_r.
Qed.

Lemma minDistance_all_above_one (terms : list R) :
  Forall (fun a => 1 < a) terms -> Rounded.minDistance terms = Infinity.
Proof.
  intros Hall. unfold Rounded.minDistance. generalize Infinity.
  induction Hall as [|a terms Ha _ IH]; intros m; cbn [map fold_left];
    [done|].
  rewrite (distanceOfTerm_above_one a Ha). apply IH.
Qed.

Lemma antipodal_term :
  Rounded.haversineTerm (-5.67) (-64.77) 5.67 115.23 = 1.
Proof.
  unfold Rounded.haversineTerm.
  replace ((115.23 - -64.77) * PI / 180 / 2) with (PI / 2) by lra.
  replace ((5.67 - -5.67) * PI / 180 / 2) with (5.67 * PI / 180) by lra.
  replace (-5.67 * PI / 180) with (- (5.67 * PI / 180)) by lra.
  rewrite cos_neg, sin_PI2.
  pose proof (sin2_cos2 (5.67 * PI / 180)) as H. unfold Rsqr in H. lra.
Qed.

(** C6: for the position (-5.67, -64.77) and a route path whose only
    vertex is the antipodal point (5.67, 115.23), the term of the distance
    helper is exactly 1 and the haversine distance is 6371 * PI km (half
    the circumference); the double arithmetic delivers 1 + 2^-52 for the
    term, so [Math.sqrt(1 - a)] is NaN, the vertex is skipped by the loop,
    and [minDistance], which the route reports as [distanceFromRoute] and
    compares with the threshold, is still [Infinity] although the path has
    a vertex. *)
Theorem antipodal_vertex_leaves_no_distance :
  validateCoordinates (-5.67) (-64.77) = true /\
  validateCoordinates 5.67 115.23 = true /\
  Rounded.haversineTerm (-5.67) (-64.77) 5.67 115.23 = 1 /\
  haversineKm (-5.67) (-64.77) 5.67 115.23 = 6371 * PI /\
  Rounded.distanceOfTerm (1 + / 2 ^ 52) = None /\
  Rounded.minDistance [1 + / 2 ^ 52] = Infinity /\
  JS.gt (Rounded.minDistance [1 + / 2 ^ 52]) (Num DEVIATION_THRESHOLD)
  = true.
Proof.
  assert (Hulp : 1 < 1 + / 2 ^ 52).
  { assert (0 < / 2 ^ 52); [|lra]. apply Rinv_0_lt_compat, pow_lt. lra. }
  assert (Hmin : Rounded.minDistance [1 + / 2 ^ 52] = Infinity).
  { apply minDistance_all_above_one. by repeat constructor. }
  split; [apply validateCoordinates_true; lra|].
  split; [apply validateCoordinates_true; lra|].
  split; [apply antipodal_term|]. split; [|split; [|split]].
  - rewrite <- calculateDistance_haversine by lra.
    pose proof (distanceOfTerm_exact (-5.67) (-64.77) 5.67 115.23) as H.
    rewrite antipodal_term in H. specialize (H ltac:(lra)).
    unfold Rounded.distanceOfTerm in H.
    rewrite !bool_decide_eq_true_2 in H by lra. cbn [andb] in H.
    injection H as <-. rewrite atan2_sqrt_asin by lra.
    rewrite sqrt_1, asin_1. lra.
  - by apply distanceOfTerm_above_one.
  - exact Hmin.
  - by rewrite Hmin.
Qed.
End RoundedDistance.

(** ** The presence registry *)

Section PresenceClaims.
Import Presence.

(** After a connection the registry maps the user to that socket. *)
Lemma connection_registers socket srv :
  connectedUsers (connection socket srv) !! userId socket = Some (id socket).
Proof. unfold connection. cbn [connectedUsers]. apply lookup_insert_eq. Qed.

(** A later connection of the same user supersedes the earlier one. *)
Lemma connection_supersedes a b srv :
  userId a = userId b ->
  connectedUsers (connection b (connection a srv)) !! userId a
  = Some (id b).
Proof. intros ->. apply connection_registers. Qed.

(** A disconnect removes the entry of the user, whichever socket of the
    user it comes from. *)
Lemma disconnect_unregisters socket srv :
  connectedUsers (disconnect socket srv) !! userId socket = None.
Proof. unfold disconnect. cbn [connectedUsers]. apply lookup_delete_eq. Qed.

(** The entries of other users are not touched. *)
Lemma disconnect_other socket srv (other : string) :
  other <> userId socket ->
  connectedUsers (disconnect socket srv) !! other
  = connectedUsers srv !! other.
Proof.
  intros Hne. unfold disconnect. cbn [connectedUsers].
  by apply lookup_delete_ne.
Qed.

(** Hence the disconnect of a superseded socket leaves the user without
    entry, for every server state and every two sockets of one user. *)
Lemma stale_disconnect_unregisters a b srv :
  userId a = userId b ->
  connectedUsers (disconnect a (connection b (connection a srv)))
    !! userId a = None.
Proof. intros _. apply disconnect_unregisters. Qed.

(** The registry of the spec would keep the newer handle. *)
Lemma unregister_spec_keeps_fresh (identity a b : string)
    (registry : gmap string string) :
  a <> b ->
  unregister_spec identity a (<[identity := b]> (<[identity := a]> registry))
    !! identity = Some b.
Proof.
  intros Hne. unfold unregister_spec.
  rewrite lookup_insert_eq.
  rewrite bool_decide_eq_false_2 by congruence.
  apply lookup_insert_eq.
Qed.

(** C1, on the code: user "parent1" connects with socket A, connects again
    with socket B, then socket A disconnects.  The registry has no entry
    for the user any more, although socket B is still live in the user's
    room; the claim expects the entry to be socket B. *)
Theorem stale_disconnect_evicts_fresh_connection :
  let srv :=
    disconnect Samples.socketA
      (connection Samples.socketB
         (connection Samples.socketA Samples.idleServer)) in
  connectedUsers
    (connection Samples.socketB
       (connection Samples.socketA Samples.idleServer)) !! "parent1"
    = Some "socketB" /\
  connectedUsers srv !! "parent1" = None /\
  recipients srv "user:parent1" = [Samples.socketB].
Proof.
  split; [|split].
  - apply (connection_supersedes Samples.socketA Samples.socketB). done.
  - apply (disconnect_unregisters Samples.socketA).
  - vm_compute. reflexivity.
Qed.
End PresenceClaims.

(** ** The proximity routes *)

Section Sorting.
Local Open Scope R_scope.
Import EmergencyRoutes ProximitySpec.

Lemma insertSorted_perm x l : insertSorted x l ≡ₚ x :: l.
Proof.
  induction l as [|y l IH]; cbn [insertSorted]; [done|].
  case_bool_decide; [|done].
  rewrite IH. apply Permutation_swap.
Qed.

Lemma sort_perm l : sort l ≡ₚ l.
Proof.
  induction l as [|x l IH]; [done|].
  cbn [sort foldr]. fold (sort l).
  by rewrite insertSorted_perm, IH.
Qed.

Lemma insertSorted_ascending x l :
  ascending l -> ascending (insertSorted x l).
Proof.
  unfold ascending.
  induction l as [|y l IH]; intros Hs; cbn [insertSorted].
  - repeat constructor.
  - apply StronglySorted_inv in Hs as [Hl Hy].
    unfold byDistance. case_bool_decide as Hlt.
    + constructor; [by apply IH|].
      apply Forall_forall. intros z Hz.
      rewrite insertSorted_perm in Hz.
      apply elem_of_cons in Hz as [->|Hz]; [lra|].
      by apply (proj1 (Forall_forall _ _) Hy).
    + constructor; [by constructor|].
      constructor; [lra|].
      eapply Forall_impl; [exact Hy|]. cbn. intros z Hz. lra.
Qed.

Lemma sort_ascending l : ascending (sort l).
Proof.
  induction l as [|x l IH]; [constructor|].
  cbn [sort foldr]. by apply insertSorted_ascending.
Qed.

Lemma insertSorted_ties (d : R) x l :
  filter (fun e => distance e = d) (insertSorted x l)
  = filter (fun e => distance e = d) (x :: l).
Proof.
  induction l as [|y l IH]; cbn [insertSorted]; [done|].
  unfold byDistance. case_bool_decide as Hlt; [|done].
  rewrite (filter_cons _ y (insertSorted x l)), IH.
  rewrite (filter_cons _ x (y :: l)), (filter_cons _ y l),
          (filter_cons _ x l).
  repeat case_decide; try done. lra.
Qed.

Lemma sort_keepsTies l : keepsTies l (sort l).
Proof.
  intros d. induction l as [|x l IH]; [done|].
  cbn [sort foldr]. fold (sort l).
  rewrite insertSorted_ties, !filter_cons, IH. done.
Qed.
End Sorting.

Section Loops.
Local Open Scope R_scope.
Import EmergencyRoutes ProximitySpec.

Lemma filter_cons_bool {A} (f : A -> bool) (x : A) (l : list A) :
  filter (fun a => f a) (x :: l)
  = if f x then x :: filter (fun a => f a) l else filter (fun a => f a) l.
Proof.
  rewrite filter_cons. case_decide as H.
  - by rewrite (proj1 (Is_true_true _) H).
  - by rewrite (proj1 (Is_true_false _) H).
Qed.

(** The loop of [/nearby/users] keeps, in order, the candidates with a
    truthy latitude that are within the radius. *)
Lemma collectNearby_filter latitude longitude radiusKm allUsers acc :
  collectNearby latitude longitude radiusKm allUsers acc =
  acc ++ map (entry latitude longitude)
           (filter (fun c => hasLocation c &&
                             withinRadius latitude longitude radiusKm c)
                   allUsers).
Proof.
  revert acc. induction allUsers as [|c rest IH]; intros acc.
  - cbn. by rewrite app_nil_r.
  - cbn [collectNearby]. rewrite filter_cons_bool.
    change (withinRadius latitude longitude radiusKm c)
      with (bool_decide
              (calculateDistance latitude longitude
                 (candidateLatitude c) (candidateLongitude c) <= radiusKm)).
    destruct (hasLocation c); cbn [andb]; [|apply IH].
    destruct (bool_decide _); [|apply IH].
    rewrite IH, <- app_assoc. done.
Qed.

(** The loop of [/sos-broadcast] pushes the id of, and emits to, the same
    candidates. *)
Lemma notifyNearby_filter alertData latitude longitude radiusKm allUsers
    ids emitted :
  notifyNearby alertData latitude longitude radiusKm allUsers ids emitted =
  let matched :=
    filter (fun c => hasLocation c &&
                     withinRadius latitude longitude radiusKm c)
           allUsers in
  (ids ++ map candidateId matched,
   emitted ++ map (sosEvent alertData latitude longitude) matched).
Proof.
  cbv zeta. revert ids emitted.
  induction allUsers as [|c rest IH]; intros ids emitted.
  - cbn. by rewrite !app_nil_r.
  - cbn [notifyNearby]. rewrite filter_cons_bool.
    change (withinRadius latitude longitude radiusKm c)
      with (bool_decide
              (calculateDistance latitude longitude
                 (candidateLatitude c) (candidateLongitude c) <= radiusKm)).
    destruct (hasLocation c); cbn [andb]; [|apply IH].
    destruct (bool_decide _); [|apply IH].
    rewrite IH, <- !app_assoc. done.
Qed.

(** When every candidate has a non-zero latitude the truthiness test of
    the loops lets everybody through. *)
Lemma located_filter latitude longitude radiusKm (allUsers : list Candidate) :
  Forall (fun c => candidateLatitude c <> 0) allUsers ->
  filter (fun c => hasLocation c &&
                   withinRadius latitude longitude radiusKm c) allUsers
  = filter (fun c => withinRadius latitude longitude radiusKm c) allUsers.
Proof.
  induction 1 as [|c rest Hc _ IH]; [done|].
  rewrite !filter_cons_bool, IH.
  unfold hasLocation, JS.truthyNum.
  rewrite (bool_decide_eq_true_2 _ Hc). done.
Qed.

(** The query never returns the caller. *)
Lemma find_excludes_self self db :
  Forall (fun c => candidateId c <> self) (find self db).
Proof.
  unfold find. apply Forall_forall. intros c Hc.
  apply list_elem_of_omap in Hc as (doc & _ & Hsel).
  unfold selected in Hsel.
  case_bool_decide as Hne; cbn [andb] in Hsel; [|done].
  destruct (isAppEnabled doc); [|done].
  destruct (currentLocation doc) as [loc|]; [|done].
  destruct (latitude loc), (longitude loc); simplify_eq. done.
Qed.
End Loops.

Section NearbyUsers.
Local Open Scope R_scope.
Import EmergencyRoutes ProximitySpec.

(** [/nearby/users] on a valid request of a caller whose stored latitude is
    truthy: one query, and the sorted entries of the candidates kept by the
    loop. *)
Lemma nearbyUsersRoute_result db reqUser latitude longitude radius :
  validateCoordinates latitude longitude = true ->
  match radius with Some r => 0 <= r <= 100 | None => True end ->
  callerLocated reqUser = true ->
  nearbyUsersRoute db reqUser latitude longitude radius =
  let nearby :=
    sort (map (entry latitude longitude)
            (filter (fun c => hasLocation c &&
                              withinRadius latitude longitude
                                (default 5 radius) c)
                    (find (_id reqUser) db))) in
  {| response :=
       Success {| nearbyUsers := nearby; count := length nearby;
                  radiusKm := default 5 radius |} None;
     user := reqUser;
     effects := [Find (_id reqUser)] |}.
Proof.
  intros Hv Hr Hloc. unfold nearbyUsersRoute.
  pose proof Hv as Hf. rewrite validateCoordinates_isFloat in Hf.
  rewrite Hf, Hv, Hloc. cbn [andb negb].
  assert (Hrad : match radius with
                 | Some r => isFloat 0 100 r
                 | None => true
                 end = true).
  { destruct radius as [r|]; [|done]. unfold isFloat.
    destruct Hr. by rewrite !bool_decide_eq_true_2. }
  rewrite Hrad. cbn [negb]. rewrite collectNearby_filter. done.
Qed.

(** On a snapshot without a latitude of exactly zero the answer is the
    candidates within the radius, nearest first, ties in snapshot order. *)
Lemma nearby_within_radius_sorted db reqUser latitude longitude radius :
  validateCoordinates latitude longitude = true ->
  match radius with Some r => 0 <= r <= 100 | None => True end ->
  callerLocated reqUser = true ->
  Forall (fun c => candidateLatitude c <> 0) (find (_id reqUser) db) ->
  let within :=
    map (entry latitude longitude)
      (filter (fun c => withinRadius latitude longitude (default 5 radius) c)
              (find (_id reqUser) db)) in
  exists nearby,
    response (nearbyUsersRoute db reqUser latitude longitude radius)
      = Success {| nearbyUsers := nearby; count := length nearby;
                   radiusKm := default 5 radius |} None /\
    nearby ≡ₚ within /\ ascending nearby /\ keepsTies within nearby.
Proof.
  intros Hv Hr Hloc Hnz. cbv zeta.
  rewrite (nearbyUsersRoute_result _ _ _ _ _ Hv Hr Hloc). cbv zeta.
  rewrite (located_filter _ _ _ _ Hnz).
  eexists. split; [reflexivity|].
  split; [apply sort_perm|]. split; [apply sort_ascending|].
  apply sort_keepsTies.
Qed.

Lemma degreesNorth_distance km :
  0 <= km <= 6371 * PI ->
  calculateDistance 0 0 (Samples.degreesNorth km) 0 = km.
Proof.
  intros Hk. pose proof PI_RGT_0 as Hpi. unfold Samples.degreesNorth.
  assert (Hd : km * 180 / (6371 * PI) = km / (6371 * PI) * 180)
    by (field; lra).
  assert (0 <= km / (6371 * PI) <= 1).
  { split.
    - apply Rmult_le_pos; [lra|]. apply Rlt_le, Rinv_0_lt_compat. nra.
    - apply (Rmult_le_reg_r (6371 * PI)); [nra|].
      replace (km / (6371 * PI) * (6371 * PI)) with km by (field; lra).
      lra. }
  rewrite calculateDistance_meridian by (rewrite Hd; nra).
  field. lra.
Qed.

Lemma degreesNorth_nonzero km : 0 < km -> Samples.degreesNorth km <> 0.
Proof.
  intros Hk. pose proof PI_RGT_0 as Hpi. unfold Samples.degreesNorth.
  assert (0 < km * 180 / (6371 * PI)); [|lra].
  apply Rmult_lt_0_compat; [lra|]. apply Rinv_0_lt_compat. nra.
Qed.

Lemma caller_located : callerLocated Samples.caller = true.
Proof.
  unfold callerLocated, Samples.caller, Samples.located. cbn.
  apply bool_decide_eq_true_2. lra.
Qed.

(** The worked case of the spec: candidates 1 km, 4 km and 10 km from the
    origin, radius 5 km; the answer is the first two, nearest first. *)
Lemma town_nearby :
  exists nearby,
    response (nearbyUsersRoute Samples.town Samples.caller 0 0 (Some 5))
      = Success {| nearbyUsers := nearby; count := 2; radiusKm := 5 |} None /\
    map userId nearby = ["u1"; "u4"] /\
    map distance nearby = [1; 4].
Proof.
  pose proof PI_gt_3 as Hpi.
  assert (Hr : 0 <= 5 <= 100) by lra.
  rewrite (nearbyUsersRoute_result Samples.town Samples.caller 0 0 (Some 5)
             origin_valid Hr caller_located).
  cbv zeta.
  change (find (_id Samples.caller) Samples.town)
    with [ {| candidateId := "u10"; candidateName := "Divya";
              candidateAccountId := "WS-u10";
              candidateLatitude := Samples.degreesNorth 10;
              candidateLongitude := 0; candidateAddress := None |};
           {| candidateId := "u4"; candidateName := "Nisha";
              candidateAccountId := "WS-u4";
              candidateLatitude := Samples.degreesNorth 4;
              candidateLongitude := 0; candidateAddress := None |};
           {| candidateId := "u1"; candidateName := "Rekha";
              candidateAccountId := "WS-u1";
              candidateLatitude := Samples.degreesNorth 1;
              candidateLongitude := 0; candidateAddress := None |} ].
  change (default 5 (Some 5)) with 5.
  rewrite !filter_cons_bool, filter_nil.
  unfold hasLocation, JS.truthyNum, withinRadius, distanceKm.
  cbn [candidateLatitude candidateLongitude].
  rewrite !degreesNorth_distance by nra.
  rewrite !(bool_decide_eq_true_2 (Samples.degreesNorth _ <> 0))
    by (apply degreesNorth_nonzero; lra).
  rewrite (bool_decide_eq_false_2 (10 <= 5)) by lra.
  rewrite (bool_decide_eq_true_2 (4 <= 5)) by lra.
  rewrite (bool_decide_eq_true_2 (1 <= 5)) by lra.
  cbn [andb map]. unfold sort. cbn [foldr insertSorted].
  unfold byDistance, entry, distanceKm.
  cbn [distance candidateLatitude candidateLongitude].
  rewrite !degreesNorth_distance by nra.
  rewrite (bool_decide_eq_true_2 (1 - 4 < 0)) by lra.
  eexists. split; [reflexivity|]. split; reflexivity.
Qed.

(** C7, on the code: the caller asks around the point (0.01, 36.8) with the
    default radius; the only other user stands on the equator at (0, 36.8),
    about 1.1 km away.  The query returns that user and the distance is
    within 5 km, yet the answer is empty: a stored latitude of 0 is falsy
    in the loop's test; the claim expects every candidate within the radius. *)
Theorem nearby_skips_candidate_on_equator :
  let onEquator :=
    {| candidateId := "u5"; candidateName := "Kavya";
       candidateAccountId := "WS-u5"; candidateLatitude := 0;
       candidateLongitude := 368 / 10; candidateAddress := None |} in
  find "u0" [Samples.caller; Samples.onEquator] = [onEquator] /\
  withinRadius (1 / 100) (368 / 10) 5 onEquator = true /\
  response
    (nearbyUsersRoute [Samples.caller; Samples.onEquator] Samples.caller
       (1 / 100) (368 / 10) None)
  = Success {| nearbyUsers := []; count := 0; radiusKm := 5 |} None.
Proof.
  cbv zeta. split; [reflexivity|]. split.
  - unfold withinRadius, distanceKm. cbn [candidateLatitude candidateLongitude].
    apply bool_decide_eq_true_2.
    rewrite calculateDistance_along_meridian by lra.
    replace (0 - 1 / 100) with (- (1 / 100)) by lra.
    rewrite Rabs_Ropp, Rabs_pos_eq by lra.
    pose proof PI_4. lra.
  - rewrite nearbyUsersRoute_result;
      [|apply validateCoordinates_true; lra|done|apply caller_located].
    cbv zeta.
    change (find (_id Samples.caller) [Samples.caller; Samples.onEquator])
      with [ {| candidateId := "u5"; candidateName := "Kavya";
                candidateAccountId := "WS-u5"; candidateLatitude := 0;
                candidateLongitude := 368 / 10;
                candidateAddress := None |} ].
    rewrite filter_cons_bool.
    unfold hasLocation, JS.truthyNum. cbn [candidateLatitude].
    rewrite (bool_decide_eq_false_2 (0 <> 0)) by (intros H; by apply H).
    cbn [andb]. reflexivity.
Qed.
End NearbyUsers.

Section SosBroadcast.
Local Open Scope R_scope.
Import EmergencyRoutes ProximitySpec.

(** [/sos-broadcast] on valid coordinates: one query, then one event per
    candidate kept by the loop, in snapshot order; the answer lists the
    same candidates. *)
Lemma sosBroadcast_result db now reqUser latitude longitude address :
  validateCoordinates latitude longitude = true ->
  sosBroadcast db now reqUser latitude longitude address =
  let matched :=
    filter (fun c => hasLocation c && withinRadius latitude longitude 5 c)
           (find (_id reqUser) db) in
  {| response :=
       Success {| sosAlertId := makeAlertId reqUser now;
                  nearbyUsersNotified := length (map candidateId matched);
                  nearbyUserIds := map candidateId matched |} None;
     user := reqUser;
     effects :=
       Find (_id reqUser)
       :: map (sosEvent (sosAlert reqUser now latitude longitude address)
                        latitude longitude) matched |}.
Proof.
  intros Hv. unfold sosBroadcast.
  pose proof Hv as Hf. rewrite validateCoordinates_isFloat in Hf.
  rewrite Hf, Hv. cbn [negb].
  rewrite notifyNearby_filter. done.
Qed.

(** What reaches sockets: for every matched candidate, the live sockets of
    the room of that candidate. *)
Lemma deliveries_of_broadcast srv self alertData latitude longitude matched :
  deliveries srv
    (Find self :: map (sosEvent alertData latitude longitude) matched)
  = flat_map
      (fun c =>
         map (fun socket =>
                (socket, "nearby-sos-alert",
                 NearbySosAlert alertData
                   (JS.toFixed2 (distanceKm latitude longitude c))))
             (Presence.recipients srv ("user:" +:+ candidateId c)))
      matched.
Proof.
  unfold deliveries. cbn [flat_map app].
  induction matched as [|c rest IH]; [done|].
  cbn [map flat_map]. rewrite IH. done.
Qed.

Lemma includes_app_cons (c : ascii) (s rest : string) :
  JS.includes c (s +:+ String c rest) = true.
Proof.
  induction s as [|c' s IH].
  - change (bool_decide (c = c) || JS.includes c rest = true).
    by rewrite bool_decide_eq_true_2.
  - change (bool_decide (c' = c) || JS.includes c (s +:+ String c rest)
            = true).
    by rewrite IH, orb_true_r.
Qed.

(** A string is cut in one way only at its last occurrence of a
    character. *)
Lemma cut_at_last (c : ascii) (s1 s2 d1 d2 : string) :
  JS.includes c d1 = false -> JS.includes c d2 = false ->
  s1 +:+ String c d1 = s2 +:+ String c d2 -> s1 = s2 /\ d1 = d2.
Proof.
  intros H1 H2. revert s2.
  induction s1 as [|a s1 IH]; intros [|b s2] E; simpl in E.
  - by injection E as ->.
  - injection E as _ ->. by rewrite includes_app_cons in H1.
  - injection E as _ <-. by rewrite includes_app_cons in H2.
  - injection E as -> E. by destruct (IH _ E) as [-> ->].
Qed.

Lemma pretty_N_char_digit (c : ascii) (x : N) :
  c <> "0"%char -> c <> "1"%char -> c <> "2"%char -> c <> "3"%char ->
  c <> "4"%char -> c <> "5"%char -> c <> "6"%char -> c <> "7"%char ->
  c <> "8"%char -> c <> "9"%char -> pretty_N_char x <> c.
Proof. intros. unfold pretty_N_char. repeat case_match; congruence. Qed.

Lemma pretty_N_go_includes (x : N) (s : string) :
  JS.includes "_" s = false -> JS.includes "_" (pretty_N_go x s) = false.
Proof.
  revert s. induction (N.lt_wf_0 x) as [x _ IH]; intros s Hs.
  destruct (decide (x = 0)%N) as [->|Hx]; [by rewrite pretty_N_go_0|].
  rewrite pretty_N_go_step by lia.
  apply IH; [apply N.div_lt; lia|].
  change (bool_decide (pretty_N_char (x `mod` 10) = "_"%char)
          || JS.includes "_" s = false).
  rewrite Hs, orb_false_r.
  apply bool_decide_eq_false_2, pretty_N_char_digit; discriminate.
Qed.

(** The decimal rendering of the clock has no underscore. *)
Lemma pretty_Z_includes (z : Z) : JS.includes "_" (pretty z) = false.
Proof.
  destruct z as [|p|p]; [done| |].
  - change (pretty (Z.pos p)) with (pretty (N.pos p)).
    unfold pretty, pretty_N. rewrite decide_False by done.
    by apply pretty_N_go_includes.
  - change (JS.includes "_" (pretty (Z.neg p)))
      with (bool_decide ("-"%char = "_"%char)
            || JS.includes "_" (pretty (N.pos p))).
    rewrite bool_decide_eq_false_2 by discriminate. cbn [orb].
    unfold pretty, pretty_N. rewrite decide_False by done.
    by apply pretty_N_go_includes.
Qed.

(** Two identifiers agree only for the same reporter id at the same clock
    value. *)
Lemma makeAlertId_inj reqUser other (now now' : Z) :
  makeAlertId reqUser now = makeAlertId other now' ->
  _id reqUser = _id other /\ now = now'.
Proof.
  unfold makeAlertId. intros H.
  apply (inj (String.append "sos_")) in H.
  change (_id reqUser +:+ String "_" (pretty now)
          = _id other +:+ String "_" (pretty now')) in H.
  apply cut_at_last in H as [Hid Hclock]; try apply pretty_Z_includes.
  split; [done|]. by apply (inj pretty).
Qed.

Lemma toFixed2_sample : JS.toFixed2 (1234 / 1000) = 123 / 100.
Proof.
  unfold JS.toFixed2. destruct (Rlt_dec (1234 / 1000) 0); [lra|].
  unfold JS.roundHundredths.
  rewrite (Zfloor_eq 123); [reflexivity|]. lra.
Qed.

(** C8 as stated fails on the code: two broadcasts of one reporter from
    different places within the same millisecond carry the same
    identifier; and a recipient 1.234 km away is sent the distance 1.23. *)
Lemma sos_alert_id_repeats_within_millisecond :
  let first :=
    sosBroadcast [Samples.caller; Samples.neighbour] Samples.noon
      Samples.caller 0 0 None in
  let second :=
    sosBroadcast [Samples.caller; Samples.neighbour] Samples.noon
      Samples.caller 1 1 (Some "Market road") in
  (exists data data',
     response first = Success data None /\
     response second = Success data' None /\
     sosAlertId data = sosAlertId data' /\
     filter isEmit (effects first) <> filter isEmit (effects second)) /\
  calculateDistance 0 0 (Samples.degreesNorth (1234 / 1000)) 0
    = 1234 / 1000 /\
  effects first =
    [Find "u0";
     Emit "user:u9" "nearby-sos-alert"
       (NearbySosAlert (sosAlert Samples.caller Samples.noon 0 0 None)
          (123 / 100))].
Proof.
  cbv zeta. pose proof PI_gt_3 as Hpi.
  assert (Hd : calculateDistance 0 0 (Samples.degreesNorth (1234 / 1000)) 0
               = 1234 / 1000) by (apply degreesNorth_distance; nra).
  assert (Hfirst :
    effects (sosBroadcast [Samples.caller; Samples.neighbour] Samples.noon
               Samples.caller 0 0 None) =
    [Find "u0";
     Emit "user:u9" "nearby-sos-alert"
       (NearbySosAlert (sosAlert Samples.caller Samples.noon 0 0 None)
          (123 / 100))]).
  { rewrite (sosBroadcast_result _ _ _ _ _ _ origin_valid). cbv zeta.
    cbn [effects].
    change (find (_id Samples.caller) [Samples.caller; Samples.neighbour])
      with [ {| candidateId := "u9"; candidateName := "Pooja";
                candidateAccountId := "WS-u9";
                candidateLatitude := Samples.degreesNorth (1234 / 1000);
                candidateLongitude := 0; candidateAddress := None |} ].
    rewrite filter_cons_bool, filter_nil.
    unfold hasLocation, JS.truthyNum, withinRadius, distanceKm.
    cbn [candidateLatitude candidateLongitude].
    rewrite Hd.
    rewrite (bool_decide_eq_true_2 (Samples.degreesNorth _ <> 0))
      by (apply degreesNorth_nonzero; lra).
    rewrite (bool_decide_eq_true_2 (1234 / 1000 <= 5)) by lra.
    cbn [andb map]. unfold sosEvent, distanceKm.
    cbn [candidateId candidateLatitude candidateLongitude].
    rewrite Hd, toFixed2_sample. reflexivity. }
  split; [|split; [exact Hd|exact Hfirst]].
  assert (Hv : validateCoordinates 1 1 = true)
    by (apply validateCoordinates_true; lra).
  rewrite Hfirst.
  rewrite (sosBroadcast_result _ _ _ 0 0 None origin_valid).
  rewrite (sosBroadcast_result _ _ _ 1 1 (Some "Market road") Hv).
  cbv zeta. cbn [response effects].
  do 2 eexists. split; [reflexivity|]. split; [reflexivity|].
  split; [reflexivity|].
  change (find (_id Samples.caller) [Samples.caller; Samples.neighbour])
    with [ {| candidateId := "u9"; candidateName := "Pooja";
              candidateAccountId := "WS-u9";
              candidateLatitude := Samples.degreesNorth (1234 / 1000);
              candidateLongitude := 0; candidateAddress := None |} ].
  rewrite (filter_cons_bool
             (fun c => hasLocation c && withinRadius 1 1 5 c)), filter_nil.
  destruct (hasLocation _ && withinRadius 1 1 5 _); cbn [map sosEvent];
    rewrite !(filter_cons_bool isEmit), filter_nil; cbn [isEmit].
  - unfold sosEvent. cbn [isEmit]. intros H.
    pose proof (f_equal
                  (fun l => match l with
                            | [Emit _ _ (NearbySosAlert a _)] =>
                                alertLatitude a
                            | _ => 0
                            end) H) as Hlat.
    cbn [alertLatitude sosAlert] in Hlat. lra.
  - discriminate.
Qed.
End SosBroadcast.

Section ProximityClaims.
Local Open Scope R_scope.
Import EmergencyRoutes ProximitySpec.

(** C8, as amended: on valid coordinates and a snapshot without a latitude
    of exactly zero, [broadcastSOS] names the alert
    "sos_<reporter id>_<clock in ms>" (so two alerts share the name only
    for the same reporter id at the same clock value), queries once, and for each
    candidate within the fixed 5 km, in snapshot order, emits
    [nearby-sos-alert] to the room "user:<id>" with the alert and the
    distance rounded to two decimals.  It answers with the ids of those
    candidates and their number, whoever is connected: an event reaches
    the live sockets of its room, and a room without live socket receives
    nothing. *)
Theorem sos_broadcast_reaches_candidates_within_5km
    (db : list User) (now : Z) (reqUser : User) (latitude longitude : R)
    (address : option string) :
  validateCoordinates latitude longitude = true ->
  Forall (fun c => candidateLatitude c <> 0) (find (_id reqUser) db) ->
  let out := sosBroadcast db now reqUser latitude longitude address in
  let matched :=
    filter (fun c => withinRadius latitude longitude 5 c)
           (find (_id reqUser) db) in
  let alertData := sosAlert reqUser now latitude longitude address in
  (exists data,
     response out = Success data None /\
     sosAlertId data = makeAlertId reqUser now /\
     nearbyUserIds data = map candidateId matched /\
     nearbyUsersNotified data = length (nearbyUserIds data)) /\
  effects out =
    Find (_id reqUser)
    :: map (sosEvent alertData latitude longitude) matched /\
  (forall (other : User) (now' : Z),
     makeAlertId reqUser now = makeAlertId other now' ->
     _id reqUser = _id other /\ now = now') /\
  (forall srv : Presence.Server,
     deliveries srv (effects out) =
     flat_map
       (fun c =>
          map (fun socket =>
                 (socket, "nearby-sos-alert",
                  NearbySosAlert alertData
                    (JS.toFixed2 (distanceKm latitude longitude c))))
              (Presence.recipients srv ("user:" +:+ candidateId c)))
       matched) /\
  (forall srv : Presence.Server,
     (forall c, c ∈ matched ->
        Presence.recipients srv ("user:" +:+ candidateId c) = []) ->
     deliveries srv (effects out) = []).
Proof.
  intros Hv Hnz. cbv zeta.
  rewrite (sosBroadcast_result _ _ _ _ _ _ Hv). cbv zeta.
  rewrite (located_filter _ _ _ _ Hnz). cbn [response effects].
  split; [eexists; repeat split; reflexivity|].
  split; [reflexivity|].
  split; [intros other now'; apply makeAlertId_inj|].
  split; [intros srv; apply deliveries_of_broadcast|].
  intros srv Hoff. rewrite deliveries_of_broadcast.
  induction (filter _ _) as [|c rest IH]; [done|].
  cbn [flat_map]. rewrite (Hoff c) by (by left). cbn [map app].
  apply IH. intros c' Hc'. apply Hoff. by right.
Qed.

Lemma neighbour_snapshot :
  Forall (fun c => candidateLatitude c <> 0)
    (find (_id Samples.caller) [Samples.caller; Samples.neighbour]).
Proof.
  change (find (_id Samples.caller) [Samples.caller; Samples.neighbour])
    with [ {| candidateId := "u9"; candidateName := "Pooja";
              candidateAccountId := "WS-u9";
              candidateLatitude := Samples.degreesNorth (1234 / 1000);
              candidateLongitude := 0; candidateAddress := None |} ].
  repeat constructor. cbn [candidateLatitude].
  apply degreesNorth_nonzero. lra.
Qed.

Lemma sos_broadcast_reaches_candidates_within_5km_witness :
  exists data,
    response
      (sosBroadcast [Samples.caller; Samples.neighbour] Samples.noon
         Samples.caller 0 0 None)
      = Success data None /\
    sosAlertId data = makeAlertId Samples.caller Samples.noon /\
    nearbyUserIds data =
      map candidateId
        (filter (fun c => withinRadius 0 0 5 c)
           (find (_id Samples.caller) [Samples.caller; Samples.neighbour])) /\
    nearbyUsersNotified data = length (nearbyUserIds data).
Proof.
  exact (proj1 (sos_broadcast_reaches_candidates_within_5km
                  [Samples.caller; Samples.neighbour] Samples.noon
                  Samples.caller 0 0 None origin_valid neighbour_snapshot)).
Defined.

(** C10: a caller without a stored latitude is refused by [/nearby/users]
    before the query, whatever coordinates the request carries: with valid
    coordinates and radius the answer is the 400 "location not available",
    and no request of that caller reaches the query; [/sos-broadcast] has
    no such test and runs the query for the same caller. *)
Theorem nearby_requires_stored_caller_location
    (db : list User) (now : Z) (reqUser : User) (latitude longitude : R)
    (radius : option R) (address : option string) :
  currentLocation reqUser ≫= Model.latitude = None ->
  validateCoordinates latitude longitude = true ->
  match radius with Some r => 0 <= r <= 100 | None => True end ->
  let near := nearbyUsersRoute db reqUser latitude longitude radius in
  let sos := sosBroadcast db now reqUser latitude longitude address in
  (response near =
     Error "Your location is not available. Please enable location updates."
           400 /\
   effects near = [] /\ Model.user near = reqUser) /\
  (forall latitude' longitude' radius',
     let any :=
       nearbyUsersRoute db reqUser latitude' longitude' radius' in
     effects any = [] /\ forall data msg, response any <> Success data msg) /\
  (exists data, response sos = Success data None) /\
  head (effects sos) = Some (Find (_id reqUser)).
Proof.
  intros Hloc Hv Hr. cbv zeta.
  assert (Hcl : callerLocated reqUser = false).
  { unfold callerLocated. destruct (currentLocation reqUser) as [loc|]; [|done].
    cbn in Hloc. by rewrite Hloc. }
  split; [|split].
  - unfold nearbyUsersRoute.
    pose proof Hv as Hf. rewrite validateCoordinates_isFloat in Hf.
    rewrite Hf, Hv, Hcl. cbn [andb negb].
    assert (Hrad : match radius with
                   | Some r => isFloat 0 100 r
                   | None => true
                   end = true).
    { destruct radius as [r|]; [|done]. unfold isFloat.
      destruct Hr. by rewrite !bool_decide_eq_true_2. }
    rewrite Hrad. done.
  - intros latitude' longitude' radius'. cbv zeta.
    unfold nearbyUsersRoute. rewrite Hcl. cbn [negb].
    destruct (negb _); [done|]. destruct (negb _); done.
  - rewrite (sosBroadcast_result _ _ _ _ _ _ Hv). cbv zeta.
    split; [by eexists|done].
Qed.

Lemma nearby_requires_stored_caller_location_witness :
  response (nearbyUsersRoute Samples.town Samples.unlocated 0 0 None) =
    Error "Your location is not available. Please enable location updates."
          400 /\
  head (effects (sosBroadcast Samples.town Samples.noon Samples.unlocated
                   0 0 None))
    = Some (Find "u7").
Proof.
  pose proof (nearby_requires_stored_caller_location Samples.town
                Samples.noon Samples.unlocated 0 0 None None
                eq_refl origin_valid I) as [(Hr & _) (_ & _ & Hs)].
  split; [exact Hr | exact Hs].
Defined.
End ProximityClaims.

(** * Further properties of the code *)

(** ** Rooms and registry over the runs of the process *)

Section PresenceRunsFacts.
Import Presence PresenceRuns.

(** The children rooms are joined whether or not the test on the length is
    made. *)
Lemma joinedRooms_unfold socket :
  joinedRooms socket =
  [id socket; "user:" +:+ userId socket]
  ++ match parentId socket with
     | Some p => ["parent:" +:+ p]
     | None => []
     end
  ++ map (fun c => "child:" +:+ c) (children socket)
  ++ ["child:" +:+ userId socket].
Proof.
  unfold joinedRooms. case_bool_decide as Hlen; [done|].
  destruct (children socket); [done|]. cbn in Hlen. lia.
Qed.

Lemma includes_colon_prefix (prefix rest : string) :
  JS.includes ":" (prefix +:+ String ":" rest) = true.
Proof. apply includes_app_cons. Qed.


Lemma live_elem srv socket :
  live srv socket <-> exists rooms, (socket, rooms) ∈ sockets srv.
Proof.
  unfold live. rewrite list_elem_of_fmap. split.
  - intros ([s rooms] & -> & Hin). by exists rooms.
  - intros (rooms & Hin). by exists (socket, rooms).
Qed.

Lemma reachable_wellFormed srv : reachable srv -> wellFormed srv.
Proof.
  induction 1 as [|socket srv _ [IHf IHn] Hfresh Hcolon
                  |socket srv _ [IHf IHn] Hlive].
  - split; constructor.
  - split; cbn [sockets connection].
    + apply Forall_app. split; [done|]. by repeat constructor.
    + rewrite map_app. apply NoDup_app. split; [done|]. split.
      * intros sid Hsid Hnew. apply list_elem_of_singleton in Hnew as ->.
        change (id socket ∈ (fun entry : Socket * list string => id entry.1)
                              <$> sockets srv) in Hsid.
        apply list_elem_of_fmap in Hsid as ([other rooms] & Hid & Hin).
        apply (Hfresh other); [|done]. apply live_elem. by exists rooms.
      * apply NoDup_singleton.
  - split; cbn [sockets disconnect].
    + apply Forall_forall. intros entry [_ Hin]%list_elem_of_filter.
      by apply (proj1 (Forall_forall _ _) IHf).
    + eapply sublist_NoDup; [exact IHn|].
      apply (fmap_sublist (fun entry : Socket * list string => id entry.1)).
      apply sublist_filter.
Qed.

(** Two live sockets with the same id are the same socket. *)
Lemma live_id_inj srv a b :
  wellFormed srv -> live srv a -> live srv b -> id a = id b -> a = b.
Proof.
  intros [_ Hnd] [ra Ha]%live_elem [rb Hb]%live_elem Hid.
  induction (sockets srv) as [|entry l IH]; [by apply elem_of_nil in Ha|].
  cbn [map] in Hnd. apply NoDup_cons in Hnd as [Hnot Hnd].
  apply elem_of_cons in Ha as [Ha|Ha]; apply elem_of_cons in Hb as [Hb|Hb].
  - congruence.
  - subst entry. exfalso. apply Hnot. cbn [fst]. rewrite Hid.
    change (id b ∈ (fun entry : Socket * list string => id entry.1) <$> l).
    apply list_elem_of_fmap. by exists (b, rb).
  - subst entry. exfalso. apply Hnot. cbn [fst]. rewrite <- Hid.
    change (id a ∈ (fun entry : Socket * list string => id entry.1) <$> l).
    apply list_elem_of_fmap. by exists (a, ra).
  - by apply IH.
Qed.

(** Every entry of the registry names a live socket of that user. *)
Lemma registry_sound srv :
  reachable srv ->
  forall user sid,
    connectedUsers srv !! user = Some sid ->
    exists socket, live srv socket /\ id socket = sid /\ userId socket = user.
Proof.
  induction 1 as [|socket srv Hreach IH Hfresh Hcolon
                  |socket srv Hreach IH Hlive]; intros user sid Hentry.
  - cbn [connectedUsers] in Hentry. by rewrite lookup_empty in Hentry.
  - cbn [connectedUsers connection] in Hentry.
    destruct (decide (userId socket = user)) as [<-|Hne].
    + rewrite lookup_insert_eq in Hentry. injection Hentry as <-.
      exists socket. split; [|done]. unfold live. cbn [sockets connection].
      rewrite fmap_app. apply elem_of_app. right. by left.
    + rewrite lookup_insert_ne in Hentry by done.
      destruct (IH _ _ Hentry) as (other & Hother & Hid & Hu).
      exists other. split; [|done]. unfold live. cbn [sockets connection].
      rewrite fmap_app. apply elem_of_app. by left.
  - cbn [connectedUsers disconnect] in Hentry.
    destruct (decide (userId socket = user)) as [<-|Hne].
    + by rewrite lookup_delete_eq in Hentry.
    + rewrite lookup_delete_ne in Hentry by done.
      destruct (IH _ _ Hentry) as (other & Hother & Hid & Hu).
      exists other. split; [|done].
      apply live_elem in Hother as [rooms Hin]. apply live_elem.
      exists rooms. cbn [sockets disconnect].
      apply list_elem_of_filter. split; [|done]. cbn [fst]. intros Hsame.
      apply Hne. rewrite <- Hu. f_equal. symmetry.
      apply (live_id_inj srv); [by apply reachable_wellFormed| |done|done].
      apply live_elem. by exists rooms.
Qed.

Lemma elem_recipients srv room socket :
  socket ∈ recipients srv room <->
  exists rooms, (socket, rooms) ∈ sockets srv /\ room ∈ rooms.
Proof.
  unfold recipients.
  change (map fst (filter (fun entry : Socket * list string => room ∈ entry.2)
                     (sockets srv)))
    with ((filter (fun entry : Socket * list string => room ∈ entry.2)
             (sockets srv)).*1).
  rewrite list_elem_of_fmap. split.
  - intros ([s rooms] & -> & [Hroom Hin]%list_elem_of_filter). by exists rooms.
  - intros (rooms & Hin & Hroom). exists (socket, rooms). split; [done|].
    by apply list_elem_of_filter.
Qed.

(** In a run, a room reaches the live sockets that joined it on
    connection. *)
Lemma recipients_joined srv room socket :
  wellFormed srv ->
  socket ∈ recipients srv room <->
  live srv socket /\ room ∈ joinedRooms socket.
Proof.
  intros [Hwf _]. rewrite elem_recipients, live_elem. split.
  - intros (rooms & Hin & Hroom).
    destruct (proj1 (Forall_forall _ _) Hwf _ Hin) as [Hrooms _].
    cbn [fst snd] in Hrooms. subst rooms. split; [by exists (joinedRooms socket)|done].
  - intros [(rooms & Hin) Hroom]. exists rooms. split; [done|].
    destruct (proj1 (Forall_forall _ _) Hwf _ Hin) as [Hrooms _].
    cbn [fst snd] in Hrooms. by subst rooms.
Qed.

Lemma live_no_colon srv socket :
  wellFormed srv -> live srv socket -> JS.includes ":" (id socket) = false.
Proof.
  intros [Hwf _] [rooms Hin]%live_elem.
  by destruct (proj1 (Forall_forall _ _) Hwf _ Hin) as [_ Hcolon].
Qed.

Lemma user_room_colon (x : string) : JS.includes ":" ("user:" +:+ x) = true.
Proof. exact (includes_app_cons ":" "user" x). Qed.

Lemma parent_room_colon (x : string) :
  JS.includes ":" ("parent:" +:+ x) = true.
Proof. exact (includes_app_cons ":" "parent" x). Qed.

Lemma child_room_colon (x : string) : JS.includes ":" ("child:" +:+ x) = true.
Proof. exact (includes_app_cons ":" "child" x). Qed.

Lemma user_room_joined socket (user : string) :
  JS.includes ":" (id socket) = false ->
  "user:" +:+ user ∈ joinedRooms socket <-> userId socket = user.
Proof.
  intros Hcolon. rewrite joinedRooms_unfold. split.
  - intros Hin. repeat (apply elem_of_cons in Hin as [Hin|Hin]).
    + rewrite <- Hin in Hcolon.
      by rewrite user_room_colon in Hcolon.
    + by apply (inj (String.append "user:")) in Hin.
    + apply elem_of_app in Hin as [Hin|Hin].
      { destruct (parentId socket); [|by apply elem_of_nil in Hin].
        apply list_elem_of_singleton in Hin. discriminate. }
      apply elem_of_app in Hin as [Hin|Hin].
      { apply list_elem_of_fmap in Hin as (c & Hc & _). discriminate. }
      apply list_elem_of_singleton in Hin. discriminate.
  - intros <-. right. by left.
Qed.

Lemma parent_room_joined socket (parent : string) :
  JS.includes ":" (id socket) = false ->
  "parent:" +:+ parent ∈ joinedRooms socket <-> parentId socket = Some parent.
Proof.
  intros Hcolon. rewrite joinedRooms_unfold. split.
  - intros Hin. repeat (apply elem_of_cons in Hin as [Hin|Hin]).
    + rewrite <- Hin in Hcolon.
      by rewrite parent_room_colon in Hcolon.
    + discriminate.
    + apply elem_of_app in Hin as [Hin|Hin].
      { destruct (parentId socket) as [p|]; [|by apply elem_of_nil in Hin].
        apply list_elem_of_singleton in Hin.
        by apply (inj (String.append "parent:")) in Hin as ->. }
      apply elem_of_app in Hin as [Hin|Hin].
      { apply list_elem_of_fmap in Hin as (c & Hc & _). discriminate. }
      apply list_elem_of_singleton in Hin. discriminate.
  - intros ->. do 2 right. apply elem_of_app. left. by left.
Qed.

Lemma child_room_joined socket (child : string) :
  JS.includes ":" (id socket) = false ->
  "child:" +:+ child ∈ joinedRooms socket <->
  userId socket = child \/ child ∈ children socket.
Proof.
  intros Hcolon. rewrite joinedRooms_unfold. split.
  - intros Hin. repeat (apply elem_of_cons in Hin as [Hin|Hin]).
    + rewrite <- Hin in Hcolon.
      by rewrite child_room_colon in Hcolon.
    + discriminate.
    + apply elem_of_app in Hin as [Hin|Hin].
      { destruct (parentId socket); [|by apply elem_of_nil in Hin].
        apply list_elem_of_singleton in Hin. discriminate. }
      apply elem_of_app in Hin as [Hin|Hin].
      { apply list_elem_of_fmap in Hin as (c & Hc & Hcin).
        apply (inj (String.append "child:")) in Hc as ->. by right. }
      apply list_elem_of_singleton in Hin.
      apply (inj (String.append "child:")) in Hin as ->. by left.
  - intros [<-|Hc]; do 2 right; apply elem_of_app; right;
      apply elem_of_app.
    + right. by left.
    + left. apply list_elem_of_fmap. by exists child.
Qed.

Lemma plain_room_joined socket (room : string) :
  JS.includes ":" room = false ->
  room ∈ joinedRooms socket <-> room = id socket.
Proof.
  intros Hcolon. rewrite joinedRooms_unfold. split.
  - intros Hin. repeat (apply elem_of_cons in Hin as [Hin|Hin]).
    + done.
    + subst room.
      by rewrite user_room_colon in Hcolon.
    + apply elem_of_app in Hin as [Hin|Hin].
      { destruct (parentId socket) as [p|]; [|by apply elem_of_nil in Hin].
        apply list_elem_of_singleton in Hin. subst room.
        by rewrite parent_room_colon in Hcolon. }
      apply elem_of_app in Hin as [Hin|Hin].
      { apply list_elem_of_fmap in Hin as (c & -> & _).
        by rewrite child_room_colon in Hcolon. }
      apply list_elem_of_singleton in Hin. subst room.
      by rewrite child_room_colon in Hcolon.
  - intros ->. by left.
Qed.

(** X1: in every run of the process, an entry of [connectedUsers] names a
    socket that is live and belongs to that user, and an event emitted to the
    stored socket id (as the journey routes do for the parent) reaches that
    socket and no other. *)
Theorem registry_entry_reaches_its_socket
    (srv : Server) (user sid : string) :
  reachable srv ->
  connectedUsers srv !! user = Some sid ->
  exists socket,
    live srv socket /\ userId socket = user /\ id socket = sid /\
    forall other, other ∈ recipients srv sid <-> other = socket.
Proof.
  intros Hreach Hentry.
  destruct (registry_sound srv Hreach _ _ Hentry) as (socket & Hlive & Hid & Hu).
  pose proof (reachable_wellFormed srv Hreach) as Hwf.
  pose proof (live_no_colon srv socket Hwf Hlive) as Hcolon.
  exists socket. repeat split; try done.
  - intros Hother. apply (recipients_joined _ _ _ Hwf) in Hother as [Hl Hroom].
    apply plain_room_joined in Hroom; [|by rewrite <- Hid].
    apply (live_id_inj srv); [done..|]. congruence.
  - intros ->. apply (recipients_joined _ _ _ Hwf). split; [done|].
    apply plain_room_joined; [by rewrite <- Hid|done].
Qed.

(** X2: in every run of the process, the room "user:U" holds the live
    sockets of user U, the room "parent:P" the live sockets of the users
    whose parent is P (not those of P), and the room "child:C" the live
    sockets of C and of the users who list C among their children. *)
Theorem room_members (srv : Server) (socket : Socket) :
  reachable srv ->
  (forall user,
     socket ∈ recipients srv ("user:" +:+ user) <->
     live srv socket /\ userId socket = user) /\
  (forall parent,
     socket ∈ recipients srv ("parent:" +:+ parent) <->
     live srv socket /\ parentId socket = Some parent) /\
  (forall child,
     socket ∈ recipients srv ("child:" +:+ child) <->
     live srv socket /\ (userId socket = child \/ child ∈ children socket)).
Proof.
  intros Hreach. pose proof (reachable_wellFormed srv Hreach) as Hwf.
  split; [|split]; intros x; rewrite (recipients_joined _ _ _ Hwf);
    split; intros [Hlive H]; (split; [done|]);
    pose proof (live_no_colon srv socket Hwf Hlive) as Hcolon.
  - by apply user_room_joined in H.
  - by apply user_room_joined.
  - by apply parent_room_joined in H.
  - by apply parent_room_joined.
  - by apply child_room_joined in H.
  - by apply child_room_joined.
Qed.

Lemma family_reachable : reachable Cases.family.
Proof.
  apply reachable_connection; [apply reachable_connection| |done].
  - apply reachable_start.
  - intros other Hother. by apply elem_of_nil in Hother.
  - done.
  - intros other Hother. apply list_elem_of_singleton in Hother as ->. done.
Qed.

Lemma registry_entry_reaches_its_socket_witness :
  exists socket,
    live Cases.family socket /\ userId socket = "child1" /\
    id socket = "socketC" /\
    forall other, other ∈ recipients Cases.family "socketC" <-> other = socket.
Proof.
  apply (registry_entry_reaches_its_socket Cases.family "child1" "socketC").
  - exact family_reachable.
  - reflexivity.
Defined.

Lemma room_members_witness :
  Cases.socketChild ∈ recipients Cases.family "parent:parent1" /\
  Samples.socketA ∉ recipients Cases.family "parent:parent1".
Proof.
  split.
  - apply (proj1 (proj2 (room_members Cases.family Cases.socketChild
                           family_reachable))).
    split; [|reflexivity]. right. by left.
  - intros Hin.
    by apply (proj1 (proj2 (room_members Cases.family Samples.socketA
                              family_reachable))) in Hin as [_ Hp].
Defined.
End PresenceRunsFacts.

(** ** Location, app state and battery, and what they mean for the searches *)

Section AccountFacts.
Local Open Scope R_scope.
Import EmergencyRoutes ProximitySpec AccountRoutes.

Lemma putLocation_result now reqUser latitude longitude address :
  validateCoordinates latitude longitude = true ->
  putLocation now reqUser latitude longitude address =
  let location :=
    {| Model.latitude := Some latitude; Model.longitude := Some longitude;
       Model.address := JS.orStr address None;
       Model.timestamp := Some now |} in
  {| response := Success location (Some "Location updated successfully");
     user := withLocation reqUser location;
     effects := [Save (withLocation reqUser location)] |}.
Proof.
  intros Hv. unfold putLocation.
  pose proof Hv as Hf. rewrite validateCoordinates_isFloat in Hf.
  by rewrite Hf, Hv.
Qed.

Lemma nearbyUsersRoute_unlocated db reqUser latitude longitude radius :
  validateCoordinates latitude longitude = true ->
  match radius with Some r => 0 <= r <= 100 | None => True end ->
  callerLocated reqUser = false ->
  nearbyUsersRoute db reqUser latitude longitude radius =
  {| response :=
       Error "Your location is not available. Please enable location updates."
             400;
     user := reqUser; effects := [] |}.
Proof.
  intros Hv Hr Hloc. unfold nearbyUsersRoute.
  pose proof Hv as Hf. rewrite validateCoordinates_isFloat in Hf.
  rewrite Hf, Hv, Hloc. cbn [andb negb].
  assert (Hrad : match radius with
                 | Some r => isFloat 0 100 r
                 | None => true
                 end = true).
  { destruct radius as [r|]; [|done]. unfold isFloat.
    destruct Hr. by rewrite !bool_decide_eq_true_2. }
  by rewrite Hrad.
Qed.

(** X3: a user who has just stored a valid location can search nearby
    users from any valid origin, unless the stored latitude is exactly 0:
    then the search is refused with "location not available" before any
    query. *)
Theorem stored_location_opens_nearby_search
    (db : list User) (now : Z) (reqUser : User) (latitude longitude : R)
    (address : option string) (originLat originLng : R) (radius : option R) :
  validateCoordinates latitude longitude = true ->
  validateCoordinates originLat originLng = true ->
  match radius with Some r => 0 <= r <= 100 | None => True end ->
  let located :=
    Model.user (putLocation now reqUser latitude longitude address) in
  let near := nearbyUsersRoute db located originLat originLng radius in
  (latitude <> 0 ->
   exists data, response near = Success data None /\
                effects near = [Find (_id reqUser)]) /\
  (latitude = 0 ->
   response near =
     Error "Your location is not available. Please enable location updates."
           400 /\
   effects near = []).
Proof.
  intros Hv Ho Hr. cbv zeta.
  rewrite (putLocation_result _ _ _ _ _ Hv). cbv zeta. cbn [Model.user].
  split; intros Hlat.
  - rewrite nearbyUsersRoute_result; [by eexists|done|done|].
    unfold callerLocated, withLocation. cbn.
    by apply bool_decide_eq_true_2.
  - rewrite nearbyUsersRoute_unlocated; [split; reflexivity|done|done|].
    unfold callerLocated, withLocation. cbn.
    apply bool_decide_eq_false_2. intros Hne. by apply Hne.
Qed.

Lemma stored_location_opens_nearby_search_witness :
  response
    (nearbyUsersRoute Samples.town
       (Model.user (putLocation Samples.noon Samples.unlocated 0 (368 / 10) None))
       0 0 None)
  = Error "Your location is not available. Please enable location updates."
          400.
Proof.
  assert (Hv : validateCoordinates 0 (368 / 10) = true)
    by (apply validateCoordinates_true; lra).
  exact (proj1 (proj2 (stored_location_opens_nearby_search Samples.town
                         Samples.noon Samples.unlocated 0 (368 / 10) None
                         0 0 None Hv origin_valid I) eq_refl)).
Defined.

(** X4: once an app-enabled user has stored a valid location, the query
    of every other caller returns that user with the stored coordinates. *)
Theorem stored_location_is_found_by_others
    (now : Z) (reqUser : User) (latitude longitude : R)
    (address : option string) (self : string) (before after : list User) :
  validateCoordinates latitude longitude = true ->
  isAppEnabled reqUser = true ->
  _id reqUser <> self ->
  let located :=
    Model.user (putLocation now reqUser latitude longitude address) in
  {| candidateId := _id reqUser; candidateName := name reqUser;
     candidateAccountId := accountId reqUser;
     candidateLatitude := latitude; candidateLongitude := longitude;
     candidateAddress := JS.orStr address None |}
  ∈ find self (before ++ located :: after).
Proof.
  intros Hv Hen Hne. cbv zeta.
  rewrite (putLocation_result _ _ _ _ _ Hv). cbv zeta. cbn [Model.user].
  unfold find. apply list_elem_of_omap.
  eexists. split; [apply elem_of_app; right; by left|].
  unfold selected, withLocation. cbn.
  rewrite Hen, bool_decide_eq_true_2 by done. done.
Qed.

Lemma stored_location_is_found_by_others_witness :
  {| candidateId := "u7"; candidateName := "Tara";
     candidateAccountId := "WS-u7";
     candidateLatitude := 1; candidateLongitude := 0;
     candidateAddress := None |}
  ∈ find "u0"
      (Samples.town ++
       [Model.user (putLocation Samples.noon Samples.unlocated 1 0 None)]).
Proof.
  exact (stored_location_is_found_by_others Samples.noon Samples.unlocated
           1 0 None "u0" Samples.town [] oneNorth_valid eq_refl
           ltac:(discriminate)).
Defined.
(** A candidate of the query comes from an app-enabled document other than
    the caller's. *)
Lemma find_candidate_doc self db c :
  c ∈ find self db ->
  exists doc, doc ∈ db /\ _id doc = candidateId c /\
              isAppEnabled doc = true /\ _id doc <> self.
Proof.
  unfold find. intros (doc & Hin & Hsel)%list_elem_of_omap.
  exists doc. split; [done|]. unfold selected in Hsel.
  case_bool_decide as Hne; cbn [andb] in Hsel; [|done].
  destruct (isAppEnabled doc); [|done].
  destruct (currentLocation doc) as [loc|]; [|done].
  destruct (Model.latitude loc), (Model.longitude loc); simplify_eq. done.
Qed.

(** X5: a user who has switched the app off is left out of every other
    user's nearby search and SOS broadcast, whatever location is stored. *)
Theorem disabled_app_hides_user
    (db : list User) (now : Z) (caller reqUser : User)
    (children : list string) (latitude longitude : R)
    (address : option string) (radius : option R) :
  let hidden := Model.user (putAppState reqUser children false).1 in
  (forall doc, doc ∈ db -> _id doc = _id reqUser -> doc = hidden) ->
  (forall data msg,
     response (sosBroadcast db now caller latitude longitude address)
       = Success data msg ->
     _id reqUser ∉ nearbyUserIds data) /\
  (forall data msg,
     response (nearbyUsersRoute db caller latitude longitude radius)
       = Success data msg ->
     _id reqUser ∉ map userId (nearbyUsers data)).
Proof.
  cbv zeta. cbn [fst Model.user putAppState]. intros Hdoc.
  assert (Hnone : forall self matched,
            matched ⊆ find self db ->
            _id reqUser ∉ map candidateId matched).
  { intros self matched Hsub Hin.
    change (_id reqUser ∈ candidateId <$> matched) in Hin.
    apply list_elem_of_fmap in Hin as (c & Hid & Hc).
    apply Hsub, find_candidate_doc in Hc as (doc & Hin & Hsame & Hen & _).
    rewrite (Hdoc doc Hin) in Hen by congruence. done. }
  split; intros data msg Hresp.
  - destruct (validateCoordinates latitude longitude) eqn:Hv.
    + rewrite (sosBroadcast_result _ _ _ _ _ _ Hv) in Hresp. cbv zeta in Hresp.
      cbn [response] in Hresp. injection Hresp as <- _. cbn [nearbyUserIds].
      apply (Hnone (_id caller)). intros c Hc.
      by apply list_elem_of_filter in Hc as [_ Hc].
    + unfold sosBroadcast in Hresp. rewrite Hv in Hresp.
      by destruct (negb (isFloat _ _ _ && isFloat _ _ _)).
  - unfold nearbyUsersRoute in Hresp.
    destruct (negb (_ && _ && _)); [done|].
    destruct (negb (validateCoordinates _ _)); [done|].
    destruct (negb (callerLocated caller)); [done|].
    cbn [response] in Hresp. injection Hresp as <- _. cbn [nearbyUsers].
    rewrite collectNearby_filter. cbn [app].
    intros Hin. apply (Hnone (_id caller)
      (filter (fun c => hasLocation c &&
                        withinRadius latitude longitude (default 5 radius) c)
              (find (_id caller) db))).
    + intros c Hc. by apply list_elem_of_filter in Hc as [_ Hc].
    + change (_id reqUser ∈ userId <$> sort (map (entry latitude longitude)
                (filter (fun c => hasLocation c &&
                           withinRadius latitude longitude (default 5 radius) c)
                        (find (_id caller) db)))) in Hin.
      rewrite sort_perm in Hin.
      apply list_elem_of_fmap in Hin as (e & He & Hin).
      change (e ∈ entry latitude longitude <$> filter (fun c => hasLocation c &&
                  withinRadius latitude longitude (default 5 radius) c)
                (find (_id caller) db)) in Hin.
      apply list_elem_of_fmap in Hin as (c & -> & Hc).
      change (_id reqUser ∈ candidateId <$> filter (fun c => hasLocation c &&
                  withinRadius latitude longitude (default 5 radius) c)
                (find (_id caller) db)).
      apply list_elem_of_fmap. by exists c.
Qed.

Lemma disabled_app_hides_user_witness :
  exists data,
    response
      (sosBroadcast
         [Samples.caller;
          Model.user (putAppState Samples.neighbour [] false).1]
         Samples.noon Samples.caller 0 0 None)
      = Success data None /\
    "u9" ∉ nearbyUserIds data.
Proof.
  pose proof (sosBroadcast_result
                [Samples.caller;
                 Model.user (putAppState Samples.neighbour [] false).1]
                Samples.noon Samples.caller 0 0 None origin_valid) as Hres.
  cbv zeta in Hres. eexists. split; [by rewrite Hres|].
  refine (proj1 (disabled_app_hides_user
                   [Samples.caller;
                    Model.user (putAppState Samples.neighbour [] false).1]
                   Samples.noon Samples.caller Samples.neighbour []
                   0 0 None None _) _ None _).
  - intros doc Hin Hid.
    apply elem_of_cons in Hin as [->|Hin]; [discriminate|].
    by apply list_elem_of_singleton in Hin.
  - by rewrite Hres.
Defined.
End AccountFacts.

(** ** Who receives the events of the account routes *)

Section AccountEvents.
Import AccountRoutes PresenceRuns.

Lemma elem_delivered srv emitted socket ev n :
  (socket, ev, n) ∈ delivered srv emitted <->
  exists e, e ∈ emitted /\ socket ∈ Presence.recipients srv (room e) /\
            ev = event e /\ n = notice e.
Proof.
  unfold delivered. rewrite list_elem_of_In, in_flat_map. split.
  - intros (e & He & Hin). exists e. apply list_elem_of_In in He.
    apply in_map_iff in Hin as (s & Heq & Hs). apply list_elem_of_In in Hs.
    by simplify_eq.
  - intros (e & He & Hs & -> & ->). exists e. split; [by apply list_elem_of_In|].
    apply in_map_iff. exists socket. split; [done|]. by apply list_elem_of_In.
Qed.

(** X6: in every run of the process, [child-battery-updated] is emitted
    to the room "parent:P" of the sender's parent P and so reaches the live
    sockets of the users whose parent is P (the sender and the sender's
    siblings); a socket of a user without that parent, P included, does not
    get it. *)
Theorem battery_update_recipients
    (srv : Presence.Server) (now : Z) (reqUser : User) (stored : Battery)
    (level : Z) (charging : bool)
    (socket : Presence.Socket) (ev : string) (n : Notice) :
  reachable srv ->
  (0 <= level <= 100)%Z ->
  (socket, ev, n)
    ∈ delivered srv (postBatteryStatus now reqUser stored level charging).2
  <->
  live srv socket /\
  (exists parent, parentId reqUser = Some parent /\
                  Presence.parentId socket = Some parent) /\
  ev = "child-battery-updated" /\
  n = ChildBatteryUpdated (_id reqUser) level charging now.
Proof.
  intros Hreach [Hlo Hhi]. unfold postBatteryStatus.
  rewrite !bool_decide_eq_true_2 by done. cbn [andb negb snd].
  rewrite elem_delivered. split.
  - intros (e & He & Hs & -> & ->).
    destruct (parentId reqUser) as [parent|]; [|by apply elem_of_nil in He].
    apply list_elem_of_singleton in He as ->. cbn [room event notice] in *.
    apply (proj1 (proj2 (room_members srv socket Hreach))) in Hs as [Hl Hp].
    split; [done|]. split; [by exists parent|done].
  - intros (Hl & (parent & Hp & Hsp) & -> & ->). rewrite Hp.
    eexists. split; [by left|]. cbn [room event notice].
    split; [|done].
    by apply (proj1 (proj2 (room_members srv socket Hreach))).
Qed.

Lemma battery_update_recipients_witness :
  (Cases.socketChild, "child-battery-updated",
   ChildBatteryUpdated "child1" 40 false Samples.noon)
    ∈ delivered Cases.family
        (postBatteryStatus Samples.noon
           (Samples.traveler (Some "parent1") None)
           {| batteryLevel := 100; isCharging := false;
              batteryUpdatedAt := None |}
           40 false).2 /\
  (Samples.socketA, "child-battery-updated",
   ChildBatteryUpdated "child1" 40 false Samples.noon)
    ∉ delivered Cases.family
        (postBatteryStatus Samples.noon
           (Samples.traveler (Some "parent1") None)
           {| batteryLevel := 100; isCharging := false;
              batteryUpdatedAt := None |}
           40 false).2.
Proof.
  assert (Hlevel : (0 <= 40 <= 100)%Z) by lia.
  split.
  - apply (battery_update_recipients Cases.family Samples.noon
             (Samples.traveler (Some "parent1") None) _ 40 false
             Cases.socketChild _ _ family_reachable Hlevel).
    split; [right; by left|]. split; [by exists "parent1"|done].
  - intros Hin.
    apply (battery_update_recipients Cases.family Samples.noon
             (Samples.traveler (Some "parent1") None) _ 40 false
             Samples.socketA _ _ family_reachable Hlevel)
      in Hin as (_ & (parent & _ & Hp) & _).
    discriminate.
Defined.

(** X7: in every run of the process, the three events of [PUT /app-state]
    reach: [app-state-changed] the sender's own live sockets;
    [child-app-state-changed] the live sockets of the users whose parent is
    the sender's parent; [parent-app-state-changed] the live sockets of each
    listed child and of every user who lists that child. *)
Theorem app_state_recipients
    (srv : Presence.Server) (reqUser : User) (children : list string)
    (enabled : bool)
    (socket : Presence.Socket) (ev : string) (n : Notice) :
  reachable srv ->
  (socket, ev, n) ∈ delivered srv (putAppState reqUser children enabled).2
  <->
  live srv socket /\
  ((ev = "app-state-changed" /\ n = AppStateChanged (_id reqUser) enabled /\
    Presence.userId socket = _id reqUser) \/
   (ev = "child-app-state-changed" /\
    n = ChildAppStateChanged (_id reqUser) enabled /\
    exists parent, parentId reqUser = Some parent /\
                   Presence.parentId socket = Some parent) \/
   (ev = "parent-app-state-changed" /\
    n = ParentAppStateChanged (_id reqUser) enabled /\
    exists child, child ∈ children /\
                  (Presence.userId socket = child \/
                   child ∈ Presence.children socket))).
Proof.
  intros Hreach.
  destruct (room_members srv socket Hreach) as (Huser & Hparent & Hchild).
  unfold putAppState. cbn [snd withAppEnabled _id parentId Model.isAppEnabled].
  assert (Hkids :
    (if bool_decide (0 < length children)%nat
     then flat_map
            (fun c => [{| room := "child:" +:+ c;
                          event := "parent-app-state-changed";
                          notice := ParentAppStateChanged (_id reqUser) enabled |};
                       {| room := "user:" +:+ c;
                          event := "parent-app-state-changed";
                          notice := ParentAppStateChanged (_id reqUser) enabled |}])
            children
     else []) =
    flat_map
      (fun c => [{| room := "child:" +:+ c;
                    event := "parent-app-state-changed";
                    notice := ParentAppStateChanged (_id reqUser) enabled |};
                 {| room := "user:" +:+ c;
                    event := "parent-app-state-changed";
                    notice := ParentAppStateChanged (_id reqUser) enabled |}])
      children).
  { case_bool_decide as Hlen; [done|].
    destruct children; [done|]. cbn in Hlen. lia. }
  rewrite Hkids. clear Hkids. rewrite elem_delivered. split.
  - intros (e & He & Hs & -> & ->).
    apply elem_of_app in He as [He|He];
      [|apply elem_of_app in He as [He|He]].
    + apply list_elem_of_singleton in He as ->. cbn [room event notice] in *.
      apply Huser in Hs as [Hl Hu]. split; [done|]. by left.
    + destruct (parentId reqUser) as [parent|]; [|by apply elem_of_nil in He].
      apply list_elem_of_singleton in He as ->. cbn [room event notice] in *.
      apply Hparent in Hs as [Hl Hp]. split; [done|].
      right. left. split; [done|]. split; [done|]. by exists parent.
    + apply list_elem_of_In, in_flat_map in He as (c & Hc & He).
      apply list_elem_of_In in Hc, He.
      apply elem_of_cons in He as [->|He];
        [|apply list_elem_of_singleton in He as ->];
        cbn [room event notice] in *.
      * apply Hchild in Hs as [Hl Hs]. split; [done|].
        do 2 right. split; [done|]. split; [done|]. by exists c.
      * apply Huser in Hs as [Hl Hs]. split; [done|].
        do 2 right. split; [done|]. split; [done|]. exists c. split; [done|].
        by left.
  - intros [Hl [(-> & -> & Hu)|[(-> & -> & parent & Hp & Hsp)
                               |(-> & -> & c & Hc & Hs)]]].
    + eexists. split; [apply elem_of_app; left; by left|].
      cbn [room event notice]. split; [|done]. by apply Huser.
    + rewrite Hp. eexists.
      split; [apply elem_of_app; right; apply elem_of_app; left; by left|].
      cbn [room event notice]. split; [|done]. by apply Hparent.
    + eexists. split.
      * apply elem_of_app; right; apply elem_of_app; right.
        apply list_elem_of_In, in_flat_map. exists c.
        split; [by apply list_elem_of_In|]. left. reflexivity.
      * cbn [room event notice]. split; [|done]. by apply Hchild.
Qed.

Lemma app_state_recipients_witness :
  (Cases.socketChild, "parent-app-state-changed",
   ParentAppStateChanged "parent1" false)
    ∈ delivered Cases.family
        (putAppState Cases.guardian ["child1"] false).2 /\
  (Samples.socketA, "parent-app-state-changed",
   ParentAppStateChanged "parent1" false)
    ∈ delivered Cases.family
        (putAppState Cases.guardian ["child1"] false).2.
Proof.
  split.
  - apply (app_state_recipients Cases.family Cases.guardian ["child1"] false
             Cases.socketChild _ _ family_reachable).
    split; [right; by left|]. do 2 right. split; [done|]. split; [done|].
    exists "child1". split; [by left|]. by left.
  - apply (app_state_recipients Cases.family Cases.guardian ["child1"] false
             Samples.socketA _ _ family_reachable).
    split; [by left|]. do 2 right. split; [done|]. split; [done|].
    exists "child1". split; [by left|]. right. by left.
Defined.
End AccountEvents.

(** ** Emergency contacts *)

Section ContactFacts.
Import ContactRoutes.

Lemma findContact_None wanted contacts :
  findContact wanted contacts = None <-> wanted ∉ map id contacts.
Proof.
  unfold findContact. induction contacts as [|c rest IH]; cbn [List.find map].
  - split; [intros _ Hin; by apply elem_of_nil in Hin|done].
  - case_bool_decide as Hid.
    + split; [done|]. intros Hnot. exfalso. apply Hnot. rewrite Hid. by left.
    + rewrite IH. split.
      * intros Hnot [Heq|Hin]%elem_of_cons; [by apply Hid|by apply Hnot].
      * intros Hnot Hin. apply Hnot. by right.
Qed.

Lemma findContact_Some wanted contacts c :
  findContact wanted contacts = Some c -> c ∈ contacts /\ id c = wanted.
Proof.
  unfold findContact. intros [Hin Hid]%find_some.
  split; [by apply list_elem_of_In|]. by apply bool_decide_eq_true_1 in Hid.
Qed.

Lemma assignFirst_ids wanted newName newPhone contacts :
  map id (assignFirst wanted newName newPhone contacts) = map id contacts.
Proof.
  induction contacts as [|c rest IH]; [done|]. cbn [assignFirst].
  case_bool_decide; cbn [map id]; [done|]. by rewrite IH.
Qed.

Lemma deleted_ids contactId contacts :
  map id (List.filter (fun c => negb (bool_decide (id c = contactId))) contacts)
  = List.filter (fun i => negb (bool_decide (i = contactId))) (map id contacts).
Proof.
  induction contacts as [|c rest IH]; [done|]. cbn [List.filter map].
  destruct (negb _); cbn [map]; by rewrite IH.
Qed.

Lemma NoDup_list_filter {A} (f : A -> bool) (l : list A) :
  NoDup l -> NoDup (List.filter f l).
Proof.
  induction 1 as [|x l Hx Hnd IH]; cbn [List.filter]; [constructor|].
  destruct (f x); [|done]. constructor; [|done].
  intros Hin. apply Hx. apply list_elem_of_In, filter_In in Hin as [Hin _].
  by apply list_elem_of_In.
Qed.

(** X8: adding, updating and deleting contacts keep the contact ids of a
    user pairwise distinct: an id that is already there is refused by the
    add route, and the other two never introduce an id. *)
Theorem contact_ids_stay_distinct
    (contacts : list Contact) (contactId name phone : string)
    (newName newPhone : option string) :
  NoDup (map id contacts) ->
  (forall stored,
     (postContact (Some contacts) contactId name phone).2 = Some stored ->
     NoDup (map id stored)) /\
  (forall stored,
     (putContact (Some contacts) contactId newName newPhone).2 = Some stored ->
     NoDup (map id stored)) /\
  (forall stored,
     (deleteContact (Some contacts) contactId).2 = Some stored ->
     NoDup (map id stored)).
Proof.
  intros Hnd. split; [|split]; intros stored Hstored.
  - unfold postContact in Hstored.
    destruct (negb _); [by simplify_eq/=|].
    destruct (findContact contactId contacts) eqn:Hfind;
      cbn [snd] in Hstored; simplify_eq; [done|].
    rewrite map_app. apply NoDup_app. split; [done|]. split.
    + intros i Hi Hnew. apply list_elem_of_singleton in Hnew as ->.
      by apply findContact_None in Hfind.
    + apply NoDup_singleton.
  - unfold putContact in Hstored.
    destruct (negb _); [by simplify_eq/=|].
    destruct (findContact contactId contacts);
      cbn [snd] in Hstored; simplify_eq; [|done].
    by rewrite assignFirst_ids.
  - unfold deleteContact in Hstored.
    destruct (negb _); cbn [snd] in Hstored; simplify_eq; [done|].
    rewrite deleted_ids. by apply NoDup_list_filter.
Qed.

Lemma book_lacks (contactId : string) :
  contactId <> "c1" -> contactId <> "c2" -> contactId ∉ map id Cases.book.
Proof.
  intros H1 H2. cbn. rewrite !elem_of_cons, elem_of_nil. tauto.
Qed.

Lemma book_distinct : NoDup (map id Cases.book).
Proof.
  cbn. apply NoDup_cons. split.
  - rewrite list_elem_of_singleton. discriminate.
  - apply NoDup_singleton.
Qed.

Lemma contact_ids_stay_distinct_witness :
  NoDup (map id (Cases.book ++
                 [{| id := "c3"; name := "Priya"; phone := "9000000001" |}])).
Proof.
  exact (proj1 (contact_ids_stay_distinct Cases.book "c3" "Priya" "9000000001"
                  None None book_distinct) _ eq_refl).
Defined.

Lemma list_filter_all {A} (f : A -> bool) (l : list A) :
  (forall x, x ∈ l -> f x = true) -> List.filter f l = l.
Proof.
  induction l as [|x l IH]; intros Hall; [done|]. cbn [List.filter].
  rewrite (Hall x) by (by left). f_equal. apply IH. intros y Hy.
  apply Hall. by right.
Qed.

Lemma list_filter_sublist {A} (f : A -> bool) (l : list A) :
  List.filter f l `sublist_of` l.
Proof.
  induction l as [|x l IH]; [constructor|]. cbn [List.filter].
  destruct (f x); by constructor.
Qed.

(** X9: deleting a contact id removes every contact with that id and keeps
    the others in order; it answers success whether or not the id was there
    (no 404, unlike the update route), and deleting again changes nothing. *)
Theorem delete_contact_removes_id
    (contacts : list Contact) (contactId : string) :
  contactId <> "" ->
  exists stored,
    deleteContact (Some contacts) contactId
      = (Success () (Some "Contact deleted successfully"), Some stored) /\
    (contactId ∉ map id stored) /\
    (forall c, id c <> contactId -> (c ∈ stored <-> c ∈ contacts)) /\
    stored `sublist_of` contacts /\
    (contactId ∉ map id contacts -> stored = contacts) /\
    deleteContact (Some stored) contactId
      = (Success () (Some "Contact deleted successfully"), Some stored).
Proof.
  intros Hne. unfold deleteContact, notEmpty.
  rewrite (bool_decide_eq_false_2 _ Hne). cbn [negb].
  eexists. split; [reflexivity|].
  assert (Hgone : contactId ∉ map id
            (List.filter (fun c => negb (bool_decide (id c = contactId)))
               contacts)).
  { intros Hin. change (contactId ∈ id <$> List.filter
        (fun c => negb (bool_decide (id c = contactId))) contacts) in Hin.
    apply list_elem_of_fmap in Hin as (c & Hid & Hc).
    apply list_elem_of_In, filter_In in Hc as [_ Hkeep].
    by rewrite bool_decide_eq_true_2 in Hkeep. }
  split; [done|]. split; [|split; [|split]].
  - intros c Hc. rewrite !list_elem_of_In, filter_In.
    rewrite (bool_decide_eq_false_2 _ Hc). cbn [negb]. tauto.
  - apply list_filter_sublist.
  - intros Habsent. apply list_filter_all. intros c Hc.
    apply negb_true_iff, bool_decide_eq_false_2. intros Hid.
    apply Habsent. rewrite <- Hid.
    change (id c ∈ id <$> contacts). apply list_elem_of_fmap. by exists c.
  - f_equal. f_equal. apply list_filter_all. intros c Hc.
    apply list_elem_of_In, filter_In in Hc as [_ Hkeep]. done.
Qed.

Lemma delete_contact_removes_id_witness :
  deleteContact (Some Cases.book) "c9"
  = (Success () (Some "Contact deleted successfully"), Some Cases.book).
Proof.
  destruct (delete_contact_removes_id Cases.book "c9" ltac:(discriminate))
    as (stored & Hdel & _ & _ & _ & Hsame & _).
  rewrite Hdel. f_equal. f_equal. apply Hsame.
  apply book_lacks; discriminate.
Defined.

(** X10: adding a contact under an id that is not there and then deleting
    that id gives back the stored contacts; and the added contact is the one
    [find] returns for the id in between. *)
Theorem add_then_delete_contact
    (contacts : list Contact) (contactId name phone : string) :
  contactId <> "" -> name <> "" -> phone <> "" ->
  contactId ∉ map id contacts ->
  exists added,
    postContact (Some contacts) contactId name phone
      = (Success {| id := contactId; name := name; phone := phone |}
           (Some "Contact added successfully"), Some added) /\
    findContact contactId added
      = Some {| id := contactId; name := name; phone := phone |} /\
    length added = S (length contacts) /\
    (deleteContact (Some added) contactId).2 = Some contacts.
Proof.
  intros Hid Hname Hphone Hfresh. unfold postContact, notEmpty.
  rewrite !bool_decide_eq_false_2 by done. cbn [negb andb].
  rewrite (proj2 (findContact_None _ _) Hfresh).
  eexists. split; [reflexivity|].
  assert (Hkeep : forall c, c ∈ contacts ->
            negb (bool_decide (id c = contactId)) = true).
  { intros c Hc. apply negb_true_iff, bool_decide_eq_false_2. intros Heq.
    apply Hfresh. rewrite <- Heq. change (id c ∈ id <$> contacts).
    apply list_elem_of_fmap. by exists c. }
  split; [|split].
  - unfold findContact. clear Hkeep.
    induction contacts as [|c rest IH]; cbn [app List.find id].
    + by rewrite bool_decide_eq_true_2.
    + rewrite bool_decide_eq_false_2.
      * apply IH. intros Hin. apply Hfresh. by right.
      * intros Heq. apply Hfresh. rewrite <- Heq. by left.
  - rewrite length_app. cbn. lia.
  - unfold deleteContact, notEmpty. rewrite (bool_decide_eq_false_2 _ Hid).
    cbn [negb snd]. f_equal. rewrite List.filter_app. cbn [List.filter id].
    rewrite bool_decide_eq_true_2 by done. cbn [negb].
    rewrite app_nil_r. by apply list_filter_all.
Qed.

Lemma add_then_delete_contact_witness :
  (deleteContact
     (postContact (Some Cases.book) "c3" "Priya" "9000000001").2 "c3").2
  = Some Cases.book.
Proof.
  destruct (add_then_delete_contact Cases.book "c3" "Priya" "9000000001"
              ltac:(discriminate) ltac:(discriminate) ltac:(discriminate)
              (book_lacks "c3" ltac:(discriminate) ltac:(discriminate)))
    as (added & Hadd & _ & _ & Hdel).
  rewrite Hadd. exact Hdel.
Defined.

(** X11: updating a contact that exists changes the name and the phone of
    the first contact with that id to the fields given (a field left out is
    kept), and nothing else: ids, order, number and the contacts with other
    ids stay. *)
Theorem update_contact_changes_one
    (contacts : list Contact) (contactId : string)
    (newName newPhone : option string) (contact : Contact) :
  contactId <> "" -> newName <> Some "" -> newPhone <> Some "" ->
  findContact contactId contacts = Some contact ->
  let updated :=
    {| id := contactId; name := default (name contact) newName;
       phone := default (phone contact) newPhone |} in
  exists stored,
    putContact (Some contacts) contactId newName newPhone
      = (Success updated (Some "Contact updated successfully"), Some stored) /\
    map id stored = map id contacts /\
    findContact contactId stored = Some updated /\
    List.filter (fun c => negb (bool_decide (id c = contactId))) stored
      = List.filter (fun c => negb (bool_decide (id c = contactId))) contacts.
Proof.
  intros Hid Hname Hphone Hfind. cbv zeta.
  destruct (findContact_Some _ _ _ Hfind) as [_ Hcid].
  unfold putContact, notEmpty. rewrite (bool_decide_eq_false_2 _ Hid).
  assert (Hn : from_option (fun field => negb (bool_decide (field = "")))
                 true newName = true).
  { destruct newName as [n|]; [|done]. cbn.
    rewrite bool_decide_eq_false_2; [done|congruence]. }
  assert (Hp : from_option (fun field => negb (bool_decide (field = "")))
                 true newPhone = true).
  { destruct newPhone as [n|]; [|done]. cbn.
    rewrite bool_decide_eq_false_2; [done|congruence]. }
  rewrite Hn, Hp, Hfind. cbn [negb andb]. rewrite Hcid.
  eexists. split; [reflexivity|]. split; [apply assignFirst_ids|].
  clear Hn Hp. unfold findContact in *.
  induction contacts as [|c rest IH]; [done|].
  cbn [List.find assignFirst] in *.
  case_bool_decide as Hc.
  - injection Hfind as ->. cbn [List.find List.filter id].
    rewrite Hc, !bool_decide_eq_true_2 by done. done.
  - destruct (IH Hfind) as [IH1 IH2]. cbn [List.find List.filter].
    rewrite (bool_decide_eq_false_2 _ Hc). cbn [negb]. by rewrite IH2.
Qed.

Lemma update_contact_changes_one_witness :
  (putContact (Some Cases.book) "c2" None (Some "9111111111")).1
  = Success {| id := "c2"; name := "Anil"; phone := "9111111111" |}
      (Some "Contact updated successfully").
Proof.
  destruct (update_contact_changes_one Cases.book "c2" None
              (Some "9111111111") Cases.anil
              ltac:(discriminate) ltac:(discriminate) ltac:(discriminate)
              eq_refl) as (stored & Hput & _).
  rewrite Hput. reflexivity.
Defined.
End ContactFacts.

(** ** The life of a journey: start, stop and the checks in between *)

Section JourneyLifecycle.
Local Open Scope R_scope.
Import JourneyRoutes JourneyStates Presence PresenceRuns.

Lemma start_accepted connectedUsers now reqUser from to path :
  validateCoordinates (Model.lat (coordinates from)) (Model.lng (coordinates from)) = true ->
  validateCoordinates (Model.lat (coordinates to)) (Model.lng (coordinates to)) = true ->
  let out := start connectedUsers now reqUser from to path in
  response out = Success (startedJourney now from to path)
                   (Some "Journey started successfully") /\
  Model.user out = withJourney reqUser (startedJourney now from to path) /\
  effects out =
    Save (Model.user out) ::
    match Model.parentId reqUser with
    | Some parent =>
        match connectedUsers !! parent with
        | Some parentSocketId =>
            [Emit parentSocketId "child-journey-started"
               (ChildJourneyStarted (_id reqUser) (childName reqUser)
                  (startedJourney now from to path))]
        | None => []
        end
    | None => []
    end.
Proof.
  intros Hfrom Hto. unfold start.
  pose proof Hfrom as Hf. pose proof Hto as Ht.
  rewrite validateCoordinates_isFloat in Hf, Ht.
  rewrite <- andb_assoc, Hf, Ht, Hfrom, Hto. cbn [negb andb orb].
  done.
Qed.

Lemma checkDeviation_idle_report connectedUsers now reqUser lat lng :
  validateCoordinates lat lng = true ->
  (activeJourney reqUser = None \/
   exists journey, activeJourney reqUser = Some journey /\
     (isActive journey = false \/ selectedRoutePath journey = [])) ->
  checkDeviation connectedUsers now reqUser lat lng
  = {| response := Success idleReport None; user := reqUser;
       effects := [] |}.
Proof.
  intros Hv H. unfold checkDeviation. pose proof Hv as Hf.
  rewrite validateCoordinates_isFloat in Hf. rewrite Hf, Hv.
  cbn [negb]. destruct H as [->|(journey & -> & [->| ->])]; [done..|].
  cbn [length]. by rewrite orb_true_r.
Qed.

(** X12: a journey without a route path is never monitored.  After
    [/stop], and after a [/start] whose body has no [selectedRoutePath] or
    an empty one, every [/check-deviation] at valid coordinates answers "on
    route" without a distance, however far the position is from the
    journey's endpoints, and neither saves nor emits anything. *)
Theorem journey_without_path_is_not_monitored
    (connectedUsers registry : gmap string string) (now later : Z)
    (reqUser : User) (from to : Place) (path : option (list (R * R)))
    (lat lng : R) :
  validateCoordinates lat lng = true ->
  validateCoordinates (Model.lat (coordinates from)) (Model.lng (coordinates from)) = true ->
  validateCoordinates (Model.lat (coordinates to)) (Model.lng (coordinates to)) = true ->
  path = None \/ path = Some [] ->
  let stopped := Model.user (stop connectedUsers reqUser) in
  let started := Model.user (start connectedUsers now reqUser from to path) in
  checkDeviation registry later stopped lat lng
    = {| response := Success idleReport None; user := stopped;
         effects := [] |} /\
  checkDeviation registry later started lat lng
    = {| response := Success idleReport None; user := started;
         effects := [] |}.
Proof.
  intros Hv Hfrom Hto Hpath. cbv zeta. split.
  - apply checkDeviation_idle_report; [done|]. right.
    exists stoppedJourney. split; [done|]. by left.
  - destruct (start_accepted connectedUsers now reqUser from to path
                Hfrom Hto) as (_ & -> & _).
    apply checkDeviation_idle_report; [done|]. right.
    exists (startedJourney now from to path). split; [done|]. right.
    by destruct Hpath as [->| ->].
Qed.

Lemma twoNorth_valid : validateCoordinates 2 0 = true.
Proof. apply validateCoordinates_true; lra. Qed.

Lemma journey_without_path_is_not_monitored_witness :
  response
    (checkDeviation ∅ 2000
       (Model.user
          (start ∅ 1000 (Samples.traveler None None) Samples.origin
             Samples.twoNorth None))
       0 0)
  = Success idleReport None.
Proof.
  rewrite (proj2 (journey_without_path_is_not_monitored ∅ ∅ 1000 2000
                    (Samples.traveler None None) Samples.origin
                    Samples.twoNorth None 0 0
                    origin_valid origin_valid twoNorth_valid
                    (or_introl eq_refl))).
  reflexivity.
Defined.

(** X13: starting a journey re-arms the deviation alert.  Whatever the
    state of the journey the user had before (an alert pending, or already
    escalated to the parent), the first check off the new path raises the
    alert anew, stamped with the time of that check, and saves it. *)
Theorem start_rearms_deviation_alert
    (connectedUsers registry : gmap string string) (now later : Z)
    (reqUser : User) (from to : Place) (path : list (R * R)) (lat lng : R) :
  validateCoordinates lat lng = true ->
  validateCoordinates (Model.lat (coordinates from)) (Model.lng (coordinates from)) = true ->
  validateCoordinates (Model.lat (coordinates to)) (Model.lng (coordinates to)) = true ->
  path <> [] ->
  JS.gt (minDistanceToPath lat lng path) (Num DEVIATION_THRESHOLD) = true ->
  let started :=
    Model.user (start connectedUsers now reqUser from to (Some path)) in
  let out := checkDeviation registry later started lat lng in
  (exists report,
     response out = Success report None /\
     alertSent report = true /\ onRoute report = false /\
     distanceFromRoute report = Some (minDistanceToPath lat lng path)) /\
  (exists journey,
     activeJourney (Model.user out) = Some journey /\
     deviationAlertSent journey = true /\
     deviationAlertTime journey = Some later /\
     selectedRoutePath journey = path /\ startedAt journey = Some now) /\
  effects out = [Save (Model.user out)].
Proof.
  intros Hv Hfrom Hto Hp Hoff. cbv zeta.
  destruct (start_accepted connectedUsers now reqUser from to (Some path)
              Hfrom Hto) as (_ & -> & _).
  assert (Hj : activeJourney
                 (withJourney reqUser (startedJourney now from to (Some path)))
               = Some (startedJourney now from to (Some path))) by done.
  assert (Ha : isActive (startedJourney now from to (Some path)) = true)
    by done.
  assert (Hp' : selectedRoutePath (startedJourney now from to (Some path))
                <> []) by done.
  open_checkDeviation Hv Hj Ha Hp'.
  change (selectedRoutePath (startedJourney now from to (Some path)))
    with path.
  rewrite Hoff. cbn [deviationAlertSent startedJourney negb andb].
  split; [|split].
  - eexists. split; [reflexivity|]. done.
  - eexists. split; [reflexivity|]. done.
  - done.
Qed.

Lemma start_rearms_deviation_alert_witness :
  exists journey,
    activeJourney
      (Model.user
         (checkDeviation ∅ 2000
            (Model.user
               (start ∅ 1000
                  (Samples.traveler (Some "parent1")
                     (Some (Samples.trip true (Some 5%Z))))
                  Samples.origin Samples.twoNorth (Some Samples.northPath)))
            0 0))
    = Some journey /\
    deviationAlertTime journey = Some 2000%Z.
Proof.
  destruct (start_rearms_deviation_alert ∅ ∅ 1000 2000
              (Samples.traveler (Some "parent1")
                 (Some (Samples.trip true (Some 5%Z))))
              Samples.origin Samples.twoNorth Samples.northPath 0 0
              origin_valid origin_valid twoNorth_valid
              ltac:(discriminate) northPath_off_route)
    as (_ & (journey & Hj & _ & Ht & _) & _).
  exists journey. split; [exact Hj | exact Ht].
Defined.

Lemma deliveries_single srv saved room event payload d :
  d ∈ EmergencyRoutes.deliveries srv [Save saved; Emit room event payload] <->
  exists socket, socket ∈ recipients srv room /\ d = (socket, event, payload).
Proof.
  unfold EmergencyRoutes.deliveries. cbn [flat_map app]. rewrite app_nil_r.
  change (map ?f ?l) with (f <$> l). rewrite list_elem_of_fmap.
  split; intros (socket & H1 & H2); by exists socket.
Qed.

(** X14: who hears that a journey started or stopped.  In every run of the
    process, when the registry holds a socket id for the child's parent the
    event reaches exactly the live socket with that id, which is a socket
    of the parent; when the registry holds none (or the child has no
    parent) the journey is still saved and started or stopped, and nobody
    is told. *)
Theorem journey_events_reach_registered_parent
    (srv : Server) (now : Z) (reqUser : User) (from to : Place)
    (path : option (list (R * R))) :
  reachable srv ->
  validateCoordinates (Model.lat (coordinates from)) (Model.lng (coordinates from)) = true ->
  validateCoordinates (Model.lat (coordinates to)) (Model.lng (coordinates to)) = true ->
  let started := start (connectedUsers srv) now reqUser from to path in
  let stopped := stop (connectedUsers srv) reqUser in
  match Model.parentId reqUser ≫= (connectedUsers srv !!.) with
  | Some sid =>
      exists socket,
        live srv socket /\ id socket = sid /\
        Some (userId socket) = Model.parentId reqUser /\
        (forall d, d ∈ EmergencyRoutes.deliveries srv (effects started) <->
           d = (socket, "child-journey-started",
                ChildJourneyStarted (_id reqUser) (childName reqUser)
                  (startedJourney now from to path))) /\
        (forall d, d ∈ EmergencyRoutes.deliveries srv (effects stopped) <->
           d = (socket, "child-journey-stopped",
                ChildJourneyStopped (_id reqUser) (childName reqUser)))
  | None =>
      EmergencyRoutes.deliveries srv (effects started) = [] /\
      EmergencyRoutes.deliveries srv (effects stopped) = [] /\
      effects started = [Save (Model.user started)] /\
      effects stopped = [Save (Model.user stopped)]
  end.
Proof.
  intros Hreach Hfrom Hto. cbv zeta.
  destruct (start_accepted (connectedUsers srv) now reqUser from to path
              Hfrom Hto) as (_ & Hu & He).
  rewrite He, Hu. clear He Hu. unfold stop.
  cbn [effects Model.user Model.parentId withJourney _id].
  change (childName (withJourney reqUser ?j)) with (childName reqUser).
  destruct (Model.parentId reqUser) as [parent|]; cbn [mbind option_bind];
    [|done].
  destruct (connectedUsers srv !! parent) as [sid|] eqn:Hentry; [|done].
  destruct (registry_sound srv Hreach _ _ Hentry)
    as (socket & Hlive & Hid & Huser).
  pose proof (reachable_wellFormed srv Hreach) as Hwf.
  pose proof (live_no_colon srv socket Hwf Hlive) as Hcolon.
  assert (Hrooms : forall other, other ∈ recipients srv sid <-> other = socket).
  { intros other. split.
    - intros Hother.
      apply (recipients_joined _ _ _ Hwf) in Hother as [Hl Hroom].
      apply plain_room_joined in Hroom; [|by rewrite <- Hid].
      apply (live_id_inj srv); [done..|]. congruence.
    - intros ->. apply (recipients_joined _ _ _ Hwf). split; [done|].
      apply plain_room_joined; [by rewrite <- Hid|done]. }
  exists socket. split; [done|]. split; [done|]. split; [by rewrite Huser|].
  split; intros d; rewrite deliveries_single; split.
  - intros (other & Hother%Hrooms & ->). by subst.
  - intros ->. exists socket. split; [by apply Hrooms|done].
  - intros (other & Hother%Hrooms & ->). by subst.
  - intros ->. exists socket. split; [by apply Hrooms|done].
Qed.

Lemma journey_events_reach_registered_parent_witness :
  EmergencyRoutes.deliveries Cases.family
    (effects (stop (connectedUsers Cases.family)
                (Samples.traveler None None))) = [].
Proof.
  exact (proj1 (proj2 (journey_events_reach_registered_parent Cases.family
                         1000 (Samples.traveler None None) Samples.origin
                         Samples.twoNorth None family_reachable origin_valid
                         twoNorth_valid))).
Defined.
End JourneyLifecycle.

(** ** Paged listings *)

Section PagingFacts.
Import Paging.

Lemma ceil_div (total limit : Z) :
  (0 < limit)%Z ->
  let n := Zceil (IZR total / IZR limit) in
  ((n - 1) * limit < total <= n * limit)%Z.
Proof.
  intros Hl n. pose proof (Zceil_bound (IZR total / IZR limit)) as [Hlo Hhi].
  fold n in Hlo, Hhi. apply IZR_lt in Hl.
  assert (Heq : (IZR total / IZR limit * IZR limit = IZR total)%R)
    by (field; lra).
  split.
  - apply lt_IZR. rewrite mult_IZR, minus_IZR. rewrite <- Heq.
    apply Rmult_lt_compat_r; lra.
  - apply le_IZR. rewrite mult_IZR. rewrite <- Heq.
    apply Rmult_le_compat_r; lra.
Qed.

Lemma nonempty_length {A} (l : list A) : l <> [] <-> (0 < length l)%nat.
Proof. destruct l; cbn; split; intros; try done; lia. Qed.

Lemma pages_concat {A} (l k : nat) (found : list A) :
  concat (map (fun p => take l (drop ((p - 1) * l) found)) (seq 1 k))
  = take (k * l) found.
Proof.
  induction k as [|k IH]; [done|].
  rewrite seq_S, map_app, concat_app, IH. cbn [map concat plus].
  rewrite app_nil_r. replace (S k - 1)%nat with k by lia.
  rewrite take_take_drop. f_equal. lia.
Qed.

(** X15: the paging object agrees with the page of documents it comes
    with.  For a page number and a limit of at least 1: the limit is at
    most 100; [hasNextPage] holds exactly when the page is before
    [totalPages], which is exactly when documents are left after this page;
    [totalPages] is the least number of pages of that size that holds all
    documents; a page up to [totalPages] is not empty and has at most
    [limit] documents, a page beyond it is empty. *)
Theorem paged_listing_consistent {A}
    (fallback : Z) (found : list A) (queryPage queryLimit : option Z) :
  let result := listing fallback found queryPage queryLimit in
  let pg := pagination result in
  (1 <= page pg)%Z -> (1 <= limit pg)%Z ->
  (limit pg <= 100)%Z /\
  (hasNextPage pg = true <-> (page pg < totalPages pg)%Z) /\
  (hasNextPage pg = true <->
   drop (Z.to_nat (page pg * limit pg)) found <> []) /\
  (hasPrevPage pg = true <-> (1 < page pg)%Z) /\
  ((totalPages pg - 1) * limit pg < total pg <= totalPages pg * limit pg)%Z /\
  (length (docs result) <= Z.to_nat (limit pg))%nat /\
  ((page pg <= totalPages pg)%Z -> docs result <> []) /\
  ((totalPages pg < page pg)%Z -> docs result = []).
Proof.
  unfold listing. cbn [pagination docs page limit total totalPages
                       hasNextPage hasPrevPage].
  set (P := orDefault queryPage 1).
  set (L := Z.min (orDefault queryLimit fallback) 100).
  intros HP HL.
  pose proof (ceil_div (Z.of_nat (length found)) L ltac:(lia)) as Hceil.
  cbv zeta in Hceil.
  set (N := Zceil (IZR (Z.of_nat (length found)) / IZR L)) in *.
  rewrite !bool_decide_eq_true. unfold window.
  split; [lia|]. split; [nia|]. split.
  { rewrite nonempty_length, length_drop. split; intros H; nia. }
  split; [lia|]. split; [done|]. split.
  { rewrite length_take. lia. }
  split.
  - intros Hle. rewrite nonempty_length, length_take, length_drop. nia.
  - intros Hgt. rewrite drop_ge; [by rewrite take_nil|]. nia.
Qed.

Lemma paged_listing_consistent_witness :
  (1 < totalPages
         (pagination (listing 50 ["a"; "b"; "c"] (Some 1%Z) (Some 2%Z))))%Z.
Proof.
  pose proof (paged_listing_consistent 50 ["a"; "b"; "c"] (Some 1%Z)
                (Some 2%Z)) as H.
  cbv zeta in H. destruct H as (_ & Hnext & Hleft & _).
  - unfold listing, page, pagination, orDefault. cbn. case_bool_decide; lia.
  - unfold listing, limit, pagination, orDefault. cbn. case_bool_decide; lia.
  - apply Hnext, Hleft. discriminate.
Defined.
(** X16: walking the pages enumerates the documents.  For a limit of at
    least 1, the pages 1, 2, ..., [totalPages] of an unchanged collection,
    one after the other, are the matching documents in order, each exactly
    once. *)
Theorem pages_enumerate_documents {A}
    (fallback : Z) (found : list A) (queryLimit : option Z) :
  (1 <= limit (pagination (listing fallback found None queryLimit)))%Z ->
  let pageDocs (n : nat) :=
    docs (listing fallback found (Some (Z.of_nat n)) queryLimit) in
  let pages :=
    totalPages (pagination (listing fallback found None queryLimit)) in
  concat (map pageDocs (seq 1 (Z.to_nat pages))) = found.
Proof.
  unfold listing. cbn [pagination docs limit totalPages].
  set (L := Z.min (orDefault queryLimit fallback) 100). intros HL.
  pose proof (ceil_div (Z.of_nat (length found)) L ltac:(lia)) as Hceil.
  cbv zeta in Hceil.
  set (N := Zceil (IZR (Z.of_nat (length found)) / IZR L)) in *.
  rewrite (map_ext_in _
             (fun p => take (Z.to_nat L) (drop ((p - 1) * Z.to_nat L) found))).
  - rewrite pages_concat. apply take_ge. nia.
  - intros n [Hn _]%in_seq. unfold window, orDefault.
    rewrite bool_decide_eq_false_2 by lia. do 2 f_equal. nia.
Qed.

Lemma pages_enumerate_documents_witness :
  concat
    (map (fun n => docs (listing 50 ["a"; "b"; "c"] (Some (Z.of_nat n))
                           (Some 2%Z)))
       (seq 1 (Z.to_nat
                 (totalPages
                    (pagination (listing 50 ["a"; "b"; "c"] None
                                   (Some 2%Z)))))))
  = ["a"; "b"; "c"].
Proof.
  apply (pages_enumerate_documents 50 ["a"; "b"; "c"] (Some 2%Z)).
  unfold listing, limit, pagination, orDefault. cbn. case_bool_decide; lia.
Defined.

(** X17: the alert listing validates its paging parameters.  A request is
    answered with a page exactly when [page] is left out or at least 1 and
    [limit] is left out or between 1 and 100; the page then has the number
    and the limit that were asked for (1 and 20 when left out) and at most
    100 alerts; every other request is rejected as invalid and never
    reaches the collection. *)
Theorem alert_listing_validates_paging {A}
    (found : list A) (queryPage queryLimit : option Z) :
  match getAlerts found queryPage queryLimit with
  | Success result message =>
      let pg := pagination result in
      message = None /\
      page pg = default 1%Z queryPage /\ (1 <= page pg)%Z /\
      limit pg = default 20%Z queryLimit /\ (1 <= limit pg <= 100)%Z /\
      (length (docs result) <= 100)%nat
  | ValidationError =>
      (exists n, queryPage = Some n /\ (n < 1)%Z) \/
      (exists n, queryLimit = Some n /\ (n < 1 \/ 100 < n)%Z)
  | Error _ _ => False
  end.
Proof.
  unfold getAlerts, isInt.
  destruct queryPage as [p|], queryLimit as [l|];
    cbn [from_option andb negb default];
    repeat case_bool_decide; cbn [andb negb];
    try (left; eexists; split; [reflexivity|lia]);
    try (right; eexists; split; [reflexivity|lia]);
    unfold listing, orDefault;
    cbn [pagination docs page limit default from_option];
    cbv [Datatypes.id];
    rewrite ?bool_decide_eq_false_2 by lia;
    (split; [done|]); (split; [lia|]); (split; [lia|]);
    (split; [lia|]); (split; [lia|]);
    unfold window; rewrite length_take; lia.
Qed.
End PagingFacts.

(** ** Emergency recordings *)

Section AudioFacts.
Import AudioRoutes.



End AudioFacts.

(** ** Missing posters *)

Section PosterFacts.
Import MissingPosters.

Lemma sorted_snoc {A} (R : A -> A -> Prop) (l : list A) (a : A) :
  StronglySorted R l -> Forall (fun x => R x a) l ->
  StronglySorted R (l ++ [a]).
Proof.
  induction 1 as [|x l Hs IH Hx]; intros Hall; cbn.
  - repeat constructor.
  - apply Forall_cons in Hall as [Hxa Hall]. constructor; [by apply IH|].
    apply Forall_app. split; [done|]. by constructor.
Qed.

Lemma sorted_rev {A} (R : A -> A -> Prop) (l : list A) :
  StronglySorted R l -> StronglySorted (fun x y => R y x) (rev l).
Proof.
  induction 1 as [|x l Hs IH Hx]; cbn; [constructor|].
  apply sorted_snoc; [done|]. apply Forall_forall. intros y Hy.
  apply (proj1 (Forall_forall _ _) Hx).
  apply list_elem_of_In, in_rev. by apply list_elem_of_In in Hy.
Qed.

Lemma sorted_take {A} (R : A -> A -> Prop) (n : nat) (l : list A) :
  StronglySorted R l -> StronglySorted R (take n l).
Proof.
  intros Hs. revert n.
  induction Hs as [|x l Hs IH Hx]; intros [|n]; cbn; try constructor.
  - apply IH.
  - by apply Forall_take.
Qed.

Lemma sorted_delete {A} (R : A -> A -> Prop) (i : nat) (l : list A) :
  StronglySorted R l -> StronglySorted R (base.delete i l).
Proof.
  intros Hs. revert i.
  induction Hs as [|x l Hs IH Hx]; intros [|i]; cbn; try constructor; try done.
  by apply Forall_delete.
Qed.

Lemma sorted_ids_distinct (posters : list Poster) :
  StronglySorted (fun p q => (id p < id q)%Z) posters ->
  NoDup (map id posters).
Proof.
  induction 1 as [|p l Hs IH Hp]; cbn; constructor; [|done].
  intros Hin. change (id p ∈ id <$> l) in Hin.
  apply list_elem_of_fmap in Hin as (q & Hid & Hq).
  pose proof (proj1 (Forall_forall _ _) Hp q Hq) as Hlt. cbn beta in Hlt.
  lia.
Qed.

(** The invariant of the module state. *)
Lemma reachable_ordered store :
  reachable store ->
  StronglySorted (fun p q => (id p < id q)%Z) (missingPosters store) /\
  Forall (fun p => (1 <= id p < nextId store)%Z) (missingPosters store) /\
  (1 <= nextId store)%Z.
Proof.
  induction 1 as [|nowIso reqUser name description contactNumber photoUri
                   store Hreach (Hs & Hb & Hn)
                  |reqUser posterId store Hreach (Hs & Hb & Hn)].
  - cbn. split; [constructor|]. split; [constructor|lia].
  - unfold create. destruct (_ || _); [done|].
    cbn [snd missingPosters nextId]. split; [|split; [|lia]].
    + apply sorted_snoc; [done|]. eapply Forall_impl; [exact Hb|].
      intros p Hp. cbn in *. lia.
    + apply Forall_app. split.
      * eapply Forall_impl; [exact Hb|]. intros p Hp. cbn in *. lia.
      * repeat constructor; cbn; lia.
  - unfold delete. destruct (findIndex _ _ _); [|done].
    cbn [snd missingPosters nextId]. split; [|split; [|done]].
    + by apply sorted_delete.
    + by apply Forall_delete.
Qed.

Lemma findIndex_Some posterId user posters i :
  findIndex posterId user posters = Some i ->
  exists p, posters !! i = Some p /\ Some (id p) = posterId /\
            userId p = user.
Proof.
  revert i. induction posters as [|p rest IH]; intros i; cbn; [done|].
  destruct (bool_decide (Some (id p) = posterId) &&
            bool_decide (userId p = user)) eqn:E.
  - intros [= <-]. exists p. apply andb_true_iff in E as [H1 H2].
    apply bool_decide_eq_true in H1, H2. done.
  - destruct (findIndex posterId user rest) as [j|]; [|done].
    intros [= <-]. exact (IH j eq_refl).
Qed.

Lemma findIndex_None posterId user posters :
  findIndex posterId user posters = None ->
  forall p, p ∈ posters -> Some (id p) = posterId -> userId p <> user.
Proof.
  induction posters as [|p rest IH]; cbn; intros Hnone q Hq Hid Hu.
  - by apply elem_of_nil in Hq.
  - destruct (bool_decide (Some (id p) = posterId) &&
              bool_decide (userId p = user)) eqn:E; [done|].
    destruct (findIndex posterId user rest) eqn:Hrest; [done|].
    apply elem_of_cons in Hq as [->|Hq]; [|by eapply IH].
    apply andb_false_iff in E as [E|E]; by apply bool_decide_eq_false in E.
Qed.

Lemma delete_unique_id (posters : list Poster) (i : nat) (p : Poster) :
  NoDup (map id posters) -> posters !! i = Some p ->
  base.delete i posters = List.filter (fun q => negb (bool_decide (id q = id p)))
                            posters.
Proof.
  revert i. induction posters as [|q rest IH]; intros i Hnd Hi; [done|].
  cbn [map] in Hnd. apply NoDup_cons in Hnd as [Hq Hnd].
  destruct i as [|i]; cbn in Hi |- *.
  - injection Hi as ->. rewrite bool_decide_eq_true_2 by done. cbn.
    symmetry. apply list_filter_all. intros r Hr.
    apply negb_true_iff, bool_decide_eq_false_2. intros Heq. apply Hq.
    rewrite <- Heq. change (id r ∈ id <$> rest).
    apply list_elem_of_fmap. by exists r.
  - rewrite bool_decide_eq_false_2; cbn [negb]; [f_equal; by apply IH|].
    intros Heq. apply Hq. rewrite Heq. change (id p ∈ id <$> rest).
    apply list_elem_of_fmap. exists p. split; [done|].
    by eapply list_elem_of_lookup_2.
Qed.

(** X19: poster ids are never reused.  In every state the module reaches,
    the stored posters carry pairwise distinct ids in increasing order of
    creation, all of them below [nextId]; so a poster that is created gets
    an id that no stored poster has, also after posters were deleted. *)
Theorem poster_ids_are_never_reused
    (store : Store) (nowIso : string) (reqUser : Requester)
    (name description contactNumber photoUri : option string) :
  reachable store ->
  NoDup (map id (missingPosters store)) /\
  StronglySorted (fun p q => (id p < id q)%Z) (missingPosters store) /\
  (forall p, p ∈ missingPosters store -> (1 <= id p < nextId store)%Z) /\
  (forall created,
     poster (create nowIso reqUser name description contactNumber photoUri
               store).1 = Some created ->
     (id created ∉ map id (missingPosters store)) /\
     userId created = _id reqUser /\
     missingPosters
       (create nowIso reqUser name description contactNumber photoUri
          store).2 = missingPosters store ++ [created]).
Proof.
  intros Hreach. destruct (reachable_ordered store Hreach) as (Hs & Hb & Hn).
  split; [by apply sorted_ids_distinct|]. split; [done|].
  split; [by apply Forall_forall|].
  intros created. unfold create. destruct (_ || _); [done|].
  cbn [fst snd poster missingPosters]. intros [= <-]. cbn [id userId].
  split; [|done]. intros Hin.
  change (nextId store ∈ id <$> missingPosters store) in Hin.
  apply list_elem_of_fmap in Hin as (q & Hid & Hq).
  pose proof (proj1 (Forall_forall _ _) Hb q Hq) as Hlt. cbn beta in Hlt.
  lia.
Qed.

Lemma board_reachable : reachable Cases.board.
Proof. do 2 apply reachable_create. apply reachable_initial. Qed.

Lemma poster_ids_are_never_reused_witness :
  NoDup (map id (missingPosters Cases.board)).
Proof.
  exact (proj1 (poster_ids_are_never_reused Cases.board "" Cases.asha
                  None None None None board_reachable)).
Defined.

(** X20: only its creator deletes a poster.  In every state the module
    reaches, a delete request either finds a poster with the id asked for
    that the requester created, answers 200 and removes that poster and
    nothing else, or answers 404 and leaves the store as it is, which is
    what happens for an id that is not a number, an id that is not stored
    and a poster of somebody else; posters of other users always stay. *)
Theorem poster_deleted_only_by_creator
    (store : Store) (reqUser : Requester) (posterId : option Z) :
  reachable store ->
  let out := delete reqUser posterId store in
  ((status out.1 = 200%Z /\
    exists p, p ∈ missingPosters store /\ Some (id p) = posterId /\
      userId p = _id reqUser /\
      missingPosters out.2
        = List.filter (fun q => negb (bool_decide (id q = id p)))
            (missingPosters store) /\
      id p ∉ map id (missingPosters out.2)) \/
   (status out.1 = 404%Z /\ out.2 = store /\
    forall p, p ∈ missingPosters store -> Some (id p) = posterId ->
      userId p <> _id reqUser)) /\
  nextId out.2 = nextId store /\
  (forall q, q ∈ missingPosters store -> userId q <> _id reqUser ->
     q ∈ missingPosters out.2).
Proof.
  intros Hreach. cbv zeta.
  destruct (reachable_ordered store Hreach) as (Hs & Hb & Hn).
  pose proof (sorted_ids_distinct _ Hs) as Hnd.
  unfold delete.
  destruct (findIndex posterId (_id reqUser) (missingPosters store))
    as [i|] eqn:Hfind; cbn [fst snd status missingPosters nextId].
  - destruct (findIndex_Some _ _ _ _ Hfind) as (p & Hi & Hid & Hu).
    rewrite (delete_unique_id _ _ _ Hnd Hi).
    split; [left; split; [done|]; exists p|split; [done|]].
    + split; [by eapply list_elem_of_lookup_2|]. split; [done|].
      split; [done|]. split; [done|]. intros Hin.
      change (id p ∈ id <$> List.filter
                (fun q => negb (bool_decide (id q = id p)))
                (missingPosters store)) in Hin.
      apply list_elem_of_fmap in Hin as (q & Hq & Hin).
      apply list_elem_of_In, filter_In in Hin as [_ Hkeep].
      by rewrite bool_decide_eq_true_2 in Hkeep.
    + intros q Hq Hother. apply list_elem_of_In, filter_In.
      split; [by apply list_elem_of_In|].
      apply negb_true_iff, bool_decide_eq_false_2. intros Heq.
      assert (q = p) as ->; [|done].
      apply list_elem_of_lookup_1 in Hq as [j Hj].
      assert (i = j) as ->; [|congruence].
      apply (NoDup_lookup (map id (missingPosters store)) i j (id p));
        [done| |]; rewrite list_lookup_fmap.
      * by rewrite Hi.
      * rewrite Hj. cbn. by rewrite Heq.
  - split; [right|done]. split; [done|]. split; [done|].
    by apply findIndex_None.
Qed.

Lemma poster_deleted_only_by_creator_witness :
  nextId (delete Cases.asha (Some 2%Z) Cases.board).2 = nextId Cases.board.
Proof.
  exact (proj1 (proj2 (poster_deleted_only_by_creator Cases.board Cases.asha
                         (Some 2%Z) board_reachable))).
Defined.

(** X21: the poster list shows the newest fifty, newest first.  In every
    state the module reaches, the list has at most fifty posters, they are
    the last fifty that are stored in the reverse of the order of creation
    (ids decreasing), and a poster that has just been created is at the
    head of the list. *)
Theorem recent_posters_newest_first
    (store : Store) (nowIso : string) (reqUser : Requester)
    (name description contactNumber photoUri : option string) :
  reachable store ->
  (length (recentPosters store) <= 50)%nat /\
  recentPosters store
    = rev (drop (length (missingPosters store) - 50) (missingPosters store)) /\
  StronglySorted (fun p q => (id q < id p)%Z) (recentPosters store) /\
  (forall created,
     poster (create nowIso reqUser name description contactNumber photoUri
               store).1 = Some created ->
     head (recentPosters
             (create nowIso reqUser name description contactNumber photoUri
                store).2) = Some created).
Proof.
  intros Hreach. destruct (reachable_ordered store Hreach) as (Hs & _).
  unfold recentPosters. split; [rewrite length_take; lia|].
  split; [apply firstn_rev|]. split.
  - apply sorted_take. by apply (sorted_rev _ _ Hs).
  - intros created. unfold create. destruct (_ || _); [done|].
    cbn [fst snd poster missingPosters]. intros [= <-].
    by rewrite rev_unit.
Qed.

Lemma recent_posters_newest_first_witness :
  (length (recentPosters Cases.board) <= 50)%nat.
Proof.
  exact (proj1 (recent_posters_newest_first Cases.board "" Cases.asha
                  None None None None board_reachable)).
Defined.
End PosterFacts.

(** ** Removal of duplicate contacts *)

Section CleanupFacts.
Import ContactRoutes Cleanup.

Local Notation "'phoneKey'" :=
  (fun c : Contact => normalizedPhone (phone c)) (only parsing).

Lemma uniqueContacts_sublist seen contacts :
  uniqueContacts seen contacts `sublist_of` contacts.
Proof.
  revert seen. induction contacts as [|c rest IH]; intros seen; cbn;
    [constructor|].
  case_bool_decide; by constructor.
Qed.

Lemma uniqueContacts_fresh seen contacts :
  NoDup (map phoneKey (uniqueContacts seen contacts)) /\
  forall c, c ∈ uniqueContacts seen contacts -> phoneKey c ∉ seen.
Proof.
  revert seen. induction contacts as [|c rest IH]; intros seen; cbn.
  - split; [constructor|]. intros c Hc. by apply elem_of_nil in Hc.
  - case_bool_decide as Hseen; [apply IH|].
    destruct (IH ({[normalizedPhone (phone c)]} ∪ seen)) as [Hnd Hfresh].
    split.
    + cbn. constructor; [|done]. intros Hin.
      change (normalizedPhone (phone c) ∈
              phoneKey <$> uniqueContacts
                ({[normalizedPhone (phone c)]} ∪ seen) rest) in Hin.
      apply list_elem_of_fmap in Hin as (k & Hk & Hin).
      apply Hfresh in Hin. cbn beta in Hk. apply Hin.
      apply elem_of_union. left. by apply elem_of_singleton.
    + intros k [->|Hk]%elem_of_cons; [done|].
      apply Hfresh in Hk. intros Hin. apply Hk.
      apply elem_of_union. by right.
Qed.

Lemma uniqueContacts_covers seen contacts c :
  c ∈ contacts ->
  phoneKey c ∈ seen \/
  exists kept, kept ∈ uniqueContacts seen contacts /\
               phoneKey kept = phoneKey c.
Proof.
  revert seen. induction contacts as [|c' rest IH]; intros seen Hc;
    [by apply elem_of_nil in Hc|]. cbn.
  apply elem_of_cons in Hc as [->|Hc].
  - case_bool_decide as Hseen; [by left|]. right. exists c'.
    split; [by left|done].
  - case_bool_decide as Hseen; [by apply IH|].
    destruct (IH ({[normalizedPhone (phone c')]} ∪ seen) Hc)
      as [Hin|(kept & Hk & Heq)].
    + apply elem_of_union in Hin as [Hin|Hin]; [|by left].
      apply elem_of_singleton in Hin. right. exists c'.
      split; [by left|done].
    + right. exists kept. split; [by right|done].
Qed.

Lemma uniqueContacts_first seen before c after :
  phoneKey c ∉ seen -> phoneKey c ∉ map phoneKey before ->
  c ∈ uniqueContacts seen (before ++ c :: after).
Proof.
  revert seen. induction before as [|b before IH]; intros seen Hseen Hb; cbn.
  - rewrite bool_decide_eq_false_2 by done. by left.
  - cbn in Hb. apply not_elem_of_cons in Hb as [Hne Hb].
    case_bool_decide; [by apply IH|]. right. apply IH; [|done].
    intros [Hin|Hin]%elem_of_union; [|done].
    apply elem_of_singleton in Hin. by apply Hne.
Qed.

Lemma uniqueContacts_same_length seen contacts :
  length (uniqueContacts seen contacts) = length contacts ->
  uniqueContacts seen contacts = contacts.
Proof.
  revert seen. induction contacts as [|c rest IH]; intros seen; cbn; [done|].
  case_bool_decide.
  - pose proof (sublist_length _ _ (uniqueContacts_sublist seen rest)). lia.
  - cbn. intros [= Hlen]. f_equal. by apply IH.
Qed.

Lemma uniqueContacts_distinct seen contacts :
  NoDup (map phoneKey contacts) ->
  (forall c, c ∈ contacts -> phoneKey c ∉ seen) ->
  uniqueContacts seen contacts = contacts.
Proof.
  revert seen. induction contacts as [|c rest IH]; intros seen Hnd Hseen;
    cbn; [done|].
  cbn in Hnd. apply NoDup_cons in Hnd as [Hc Hnd].
  rewrite bool_decide_eq_false_2 by (apply Hseen; by left).
  f_equal. apply IH; [done|]. intros k Hk Hin.
  apply elem_of_union in Hin as [Hin|Hin].
  - apply elem_of_singleton in Hin. apply Hc. rewrite <- Hin.
    change (phoneKey k ∈ phoneKey <$> rest). apply list_elem_of_fmap.
    by exists k.
  - apply (Hseen k); [by right|done].
Qed.

(** X22: the clean-up keeps the first contact of every phone number.  What
    it leaves of a user's contacts is a selection of them in their order,
    with pairwise distinct phone numbers once spaces, hyphens and
    parentheses are taken out; every contact is either kept or has an
    earlier contact with the same number that is, and a contact with no
    earlier contact of the same number is kept.  The user is saved exactly
    when a number occurred twice, and running the clean-up again saves
    nothing. *)
Theorem cleanup_keeps_first_contact_per_phone (contacts : list Contact) :
  let unique := uniqueContacts ∅ contacts in
  unique `sublist_of` contacts /\
  NoDup (map phoneKey unique) /\
  (forall c, c ∈ contacts ->
     exists kept, kept ∈ unique /\ phoneKey kept = phoneKey c) /\
  (forall before c after,
     contacts = before ++ c :: after ->
     phoneKey c ∉ map phoneKey before -> c ∈ unique) /\
  (NoDup (map phoneKey contacts) -> cleanupUser (Some contacts) = None) /\
  (~ NoDup (map phoneKey contacts) ->
   cleanupUser (Some contacts) = Some unique) /\
  cleanupUser (Some unique) = None.
Proof.
  cbv zeta. pose proof (uniqueContacts_sublist ∅ contacts) as Hsub.
  destruct (uniqueContacts_fresh ∅ contacts) as [Hnd _].
  assert (Hkeep : forall l, NoDup (map phoneKey l) ->
            cleanupUser (Some l) = None).
  { intros l Hl. unfold cleanupUser. case_bool_decide; [|done].
    rewrite uniqueContacts_distinct; [|done|set_solver].
    rewrite bool_decide_eq_false_2; [done|lia]. }
  split; [done|]. split; [done|]. split; [|split; [|split; [|split]]].
  - intros c Hc. destruct (uniqueContacts_covers ∅ contacts c Hc)
      as [Hin|H]; [set_solver|done].
  - intros before c after -> Hfirst.
    apply uniqueContacts_first; [set_solver|done].
  - apply Hkeep.
  - intros Hdup. unfold cleanupUser.
    pose proof (sublist_length _ _ Hsub) as Hlen.
    destruct (decide (length (uniqueContacts ∅ contacts) = length contacts))
      as [Heq|Hne].
    + apply uniqueContacts_same_length in Heq. rewrite Heq in Hnd. done.
    + rewrite bool_decide_eq_true_2 by lia.
      rewrite bool_decide_eq_true_2 by lia. done.
  - by apply Hkeep.
Qed.
End CleanupFacts.

(** ** The exemptions of the general rate limiter *)

Section RateLimitFacts.
Import RateLimit.

Lemma startsWith_app pattern rest : startsWith pattern (pattern +:+ rest) = true.
Proof.
  induction pattern as [|c pattern IH]; simpl; [by destruct rest|].
  by rewrite bool_decide_eq_true_2.
Qed.

Lemma startsWith_inv pattern s :
  startsWith pattern s = true -> exists rest, s = pattern +:+ rest.
Proof.
  revert s. induction pattern as [|c pattern IH]; intros s; cbn.
  - intros _. by exists s.
  - destruct s as [|c' s]; [done|].
    intros [Hc Hs]%andb_true_iff. apply bool_decide_eq_true in Hc as ->.
    destruct (IH s Hs) as [rest ->]. by exists rest.
Qed.

Lemma includes_unfold pattern s :
  includes pattern s =
  startsWith pattern s ||
  match s with
  | EmptyString => false
  | String _ rest => includes pattern rest
  end.
Proof. by destruct s. Qed.

Lemma includes_app pattern front rest :
  includes pattern (front +:+ pattern +:+ rest) = true.
Proof.
  induction front as [|c front IH].
  - change (EmptyString +:+ pattern +:+ rest) with (pattern +:+ rest).
    rewrite includes_unfold, startsWith_app. done.
  - change (String c front +:+ pattern +:+ rest)
      with (String c (front +:+ pattern +:+ rest)).
    rewrite includes_unfold, IH. apply orb_true_r.
Qed.

Lemma includes_inv pattern s :
  includes pattern s = true ->
  exists front rest, s = front +:+ pattern +:+ rest.
Proof.
  induction s as [|c s IH]; rewrite includes_unfold;
    intros [Hs|Hi]%orb_true_iff; try done.
  - destruct (startsWith_inv _ _ Hs) as [rest ->]. by exists EmptyString, rest.
  - destruct (startsWith_inv _ _ Hs) as [rest ->]. by exists EmptyString, rest.
  - destruct (IH Hi) as (front & rest & ->). by exists (String c front), rest.
Qed.

Lemma append_cons (x : ascii) (a b : string) :
  String x a +:+ b = String x (a +:+ b).
Proof. reflexivity. Qed.

Lemma append_assoc (a b c : string) : (a +:+ b) +:+ c = a +:+ b +:+ c.
Proof.
  induction a as [|x a IH]; [done|]. by rewrite !append_cons, IH.
Qed.

Lemma append_empty (a : string) : a +:+ "" = a.
Proof. induction a as [|x a IH]; [done|]. by rewrite append_cons, IH. Qed.

Lemma skipPatterns_nonempty pattern front rest :
  pattern ∈ skipPatterns -> front +:+ pattern +:+ rest <> "".
Proof.
  intros Hp Heq. destruct front; [|done].
  unfold skipPatterns in Hp.
  repeat (apply elem_of_cons in Hp as [->|Hp]; [done|]).
  by apply elem_of_nil in Hp.
Qed.

(** X23: the general rate limiter is skipped for every request whose URL
    or path contains one of the seven exempt patterns anywhere, and for no
    other request.  The URL includes the query string, so a request to any
    route is exempt once its query string names an exempt pattern. *)
Theorem rate_limit_skips_on_substring (originalUrl path : string) :
  (skip originalUrl path = true <->
   exists pattern front rest,
     pattern ∈ skipPatterns /\
     (originalUrl = front +:+ pattern +:+ rest \/
      path = front +:+ pattern +:+ rest)) /\
  (forall pattern,
     pattern ∈ skipPatterns ->
     skip (originalUrl +:+ "?" +:+ pattern) path = true).
Proof.
  assert (Hskip : forall url p,
    skip url p = true <->
    exists pattern front rest,
      pattern ∈ skipPatterns /\
      (url = front +:+ pattern +:+ rest \/ p = front +:+ pattern +:+ rest)).
  { intros url p. unfold skip. rewrite existsb_exists. split.
    - intros (pattern & Hin%list_elem_of_In & [Hi|Hi]%orb_true_iff);
        apply includes_inv in Hi as (front & rest & Heq);
        exists pattern, front, rest; (split; [done|]); [|by right].
      unfold JS.orStr in Heq. case_bool_decide as Hempty; cbn in Heq.
      + by right.
      + by left.
    - intros (pattern & front & rest & Hin & [-> | ->]);
        exists pattern; (split; [by apply list_elem_of_In|]);
        apply orb_true_iff.
      + left. unfold JS.orStr.
        rewrite bool_decide_eq_false_2 by (by apply skipPatterns_nonempty).
        apply includes_app.
      + right. apply includes_app. }
  split; [apply Hskip|]. intros pattern Hin. apply Hskip.
  exists pattern, (originalUrl +:+ "?"), "". split; [done|]. left.
  by rewrite append_empty, append_assoc.
Qed.
End RateLimitFacts.

(** ** Parent and child links *)

Section ChildFacts.
Import ChildRoutes.

Lemma findOne_Some wanted db doc :
  findOne wanted db = Some doc ->
  accountId doc = wanted /\ exists key, db !! key = Some doc.
Proof.
  unfold findOne. intros [Hin Hacc]%find_some.
  apply bool_decide_eq_true in Hacc. split; [done|].
  apply in_map_iff in Hin as ([key doc'] & Heq & Hin). cbn in Heq. subst doc'.
  exists key. by apply elem_of_map_to_list, list_elem_of_In.
Qed.

Lemma findOne_stored db key doc :
  consistent db -> db !! key = Some doc ->
  findOne (accountId doc) db = Some doc.
Proof.
  intros (Hkey & Huniq & _) Hdoc.
  destruct (findOne (accountId doc) db) as [found|] eqn:Hfind.
  - destruct (findOne_Some _ _ _ Hfind) as (Hacc & key' & Hfound).
    pose proof (Huniq _ _ _ _ Hfound Hdoc Hacc) as ->. congruence.
  - unfold findOne in Hfind.
    pose proof (find_none _ _ Hfind doc) as Hnone. cbn beta in Hnone.
    rewrite bool_decide_eq_true_2 in Hnone by done.
    discriminate Hnone. apply in_map_iff. exists (key, doc).
    split; [done|]. by apply list_elem_of_In, elem_of_map_to_list.
Qed.

Lemma add_links db parent child given :
  consistent db ->
  db !! _id parent = Some parent -> db !! _id child = Some child ->
  parentId child = None -> _id child <> _id parent ->
  (_id child ∉ children parent) /\
  consistent
    (save (withChildren parent (children parent ++ [_id child]))
       (save (linked child (Some (_id parent)) given) db)).
Proof.
  intros (Hkey & Huniq & Hup & Hdown & Hnd & Hself) Hp Hc Hfree Hne.
  assert (Hnew : _id child ∉ children parent).
  { intros Hin. destruct (Hdown _ _ _ Hp Hin) as (doc & Hdoc & Hpar).
    congruence. }
  split; [done|]. unfold save. cbn [_id withChildren linked].
  split; [|split; [|split; [|split; [|split]]]].
  - intros key doc [[<- <-]|[? [[<- <-]|[? Hdoc]]%lookup_insert_Some]
      ]%lookup_insert_Some; cbn; eauto.
  - intros key key' doc doc'
      [[<- <-]|[? [[<- <-]|[? Hdoc]]%lookup_insert_Some]]%lookup_insert_Some
      [[<- <-]|[? [[<- <-]|[? Hdoc']]%lookup_insert_Some]]%lookup_insert_Some;
      cbn; intros Hacc; try done; eauto.
  - assert (Hlook : forall p pd c,
              db !! p = Some pd -> c ∈ children pd ->
              exists pd',
                <[_id parent := withChildren parent
                                  (children parent ++ [_id child])]>
                  (<[_id child := linked child (Some (_id parent)) given]> db)
                  !! p = Some pd' /\ c ∈ children pd').
    { intros p pd c Hpd Hin.
      destruct (decide (p = _id parent)) as [->|Hp'].
      - eexists. split; [apply lookup_insert_eq|]. cbn.
        apply elem_of_app. left. congruence.
      - destruct (decide (p = _id child)) as [->|Hc'].
        + eexists. split.
          * rewrite lookup_insert_ne by done. apply lookup_insert_eq.
          * cbn. congruence.
        + exists pd. by rewrite !lookup_insert_ne. }
    intros key doc p
      [[<- <-]|[? [[<- <-]|[? Hdoc]]%lookup_insert_Some]]%lookup_insert_Some;
      cbn; intros Hpar.
    + destruct (Hup _ _ _ Hp Hpar) as (pd & Hpd & Hin). by eapply Hlook.
    + injection Hpar as <-. eexists. split; [apply lookup_insert_eq|].
      cbn. apply elem_of_app. right. by left.
    + destruct (Hup _ _ _ Hdoc Hpar) as (pd & Hpd & Hin). by eapply Hlook.
  - assert (Hstay : forall p pd c,
              db !! p = Some pd -> c ∈ children pd -> c <> _id child).
    { intros p pd c Hpd Hin ->.
      destruct (Hdown _ _ _ Hpd Hin) as (doc & Hdoc & Hpar). congruence. }
    assert (Hlook : forall p pd c,
              db !! p = Some pd -> c ∈ children pd ->
              exists doc,
                <[_id parent := withChildren parent
                                  (children parent ++ [_id child])]>
                  (<[_id child := linked child (Some (_id parent)) given]> db)
                  !! c = Some doc /\ parentId doc = Some p).
    { intros p pd c Hpd Hin.
      destruct (Hdown _ _ _ Hpd Hin) as (doc & Hdoc & Hpar).
      destruct (decide (c = _id parent)) as [->|Hc1].
      - eexists. split; [apply lookup_insert_eq|]. cbn. congruence.
      - exists doc. split; [|done]. rewrite lookup_insert_ne by done.
        rewrite lookup_insert_ne; [done|]. intros <-.
        exact (Hstay _ _ _ Hpd Hin eq_refl). }
    intros p pd c
      [[<- <-]|[? [[<- <-]|[? Hdoc]]%lookup_insert_Some]]%lookup_insert_Some;
      cbn; intros Hin.
    + apply elem_of_app in Hin as [Hin|Hin%list_elem_of_singleton].
      * by eapply Hlook.
      * subst c. eexists. split.
        -- rewrite lookup_insert_ne by done. apply lookup_insert_eq.
        -- done.
    + by eapply Hlook.
    + by eapply Hlook.
  - intros p pd
      [[<- <-]|[? [[<- <-]|[? Hdoc]]%lookup_insert_Some]]%lookup_insert_Some;
      cbn; eauto.
    apply NoDup_app. split; [eauto|]. split; [|apply NoDup_singleton].
    intros c Hin ->%list_elem_of_singleton. done.
  - intros key doc
      [[<- <-]|[? [[<- <-]|[? Hdoc]]%lookup_insert_Some]]%lookup_insert_Some;
      cbn; eauto. congruence.
Qed.

Lemma remove_links db parent child doc :
  consistent db ->
  db !! child = Some doc -> parentId doc = Some parent ->
  exists parentDoc,
    db !! parent = Some parentDoc /\ child ∈ children parentDoc /\
    child <> parent /\
    consistent
      (save (withChildren parentDoc
               (List.filter (fun id => negb (bool_decide (id = child)))
                  (children parentDoc)))
         (save (linked doc None None) db)).
Proof.
  intros (Hkey & Huniq & Hup & Hdown & Hnd & Hself) Hc Hpar.
  destruct (Hup _ _ _ Hc Hpar) as (parentDoc & Hp & Hlisted).
  exists parentDoc. split; [done|]. split; [done|].
  assert (Hne : child <> parent).
  { intros ->. by apply (Hself _ _ Hc). }
  split; [done|].
  pose proof (Hkey _ _ Hc) as Hcid. pose proof (Hkey _ _ Hp) as Hpid.
  unfold save. cbn [_id withChildren linked]. rewrite Hcid, Hpid.
  set (parent' := withChildren parentDoc _).
  set (child' := linked doc None None).
  assert (Hkept : forall c, c ∈ children parentDoc -> c <> child ->
            c ∈ children parent').
  { intros c Hin Hc'. cbn. apply list_elem_of_In, filter_In.
    split; [by apply list_elem_of_In|].
    by apply negb_true_iff, bool_decide_eq_false_2. }
  assert (Hfiltered : forall c, c ∈ children parent' ->
            c ∈ children parentDoc /\ c <> child).
  { intros c [Hin Hc']%list_elem_of_In%filter_In.
    split; [by apply list_elem_of_In|].
    by apply negb_true_iff, bool_decide_eq_false in Hc'. }
  split; [|split; [|split; [|split; [|split]]]].
  - intros key d [[<- <-]|[? [[<- <-]|[? Hd]]%lookup_insert_Some]
      ]%lookup_insert_Some; cbn; eauto.
  - intros key key' d d'
      [[<- <-]|[? [[<- <-]|[? Hd]]%lookup_insert_Some]]%lookup_insert_Some
      [[<- <-]|[? [[<- <-]|[? Hd']]%lookup_insert_Some]]%lookup_insert_Some;
      cbn; intros Hacc; try done; eauto.
  - assert (Hlook : forall p pd c,
              db !! p = Some pd -> c ∈ children pd -> c <> child ->
              exists pd',
                <[parent := parent']> (<[child := child']> db) !! p
                  = Some pd' /\ c ∈ children pd').
    { intros p pd c Hpd Hin Hc'.
      destruct (decide (p = parent)) as [->|Hp'].
      - eexists. split; [apply lookup_insert_eq|].
        apply Hkept; [congruence|done].
      - destruct (decide (p = child)) as [->|Hc''].
        + eexists. split.
          * rewrite lookup_insert_ne by done. apply lookup_insert_eq.
          * cbn. congruence.
        + exists pd. by rewrite !lookup_insert_ne. }
    intros key d p
      [[<- <-]|[? [[<- <-]|[? Hd]]%lookup_insert_Some]]%lookup_insert_Some;
      cbn; intros Hpar'; [|done|].
    + destruct (Hup _ _ _ Hp Hpar') as (pd & Hpd & Hin).
      by eapply Hlook.
    + destruct (Hup _ _ _ Hd Hpar') as (pd & Hpd & Hin).
      by eapply (Hlook p pd key).
  - assert (Hlook : forall p pd c,
              db !! p = Some pd -> c ∈ children pd -> c <> child ->
              exists d,
                <[parent := parent']> (<[child := child']> db) !! c
                  = Some d /\ parentId d = Some p).
    { intros p pd c Hpd Hin Hc'.
      destruct (Hdown _ _ _ Hpd Hin) as (d & Hd & Hpar').
      destruct (decide (c = parent)) as [->|Hc1].
      - eexists. split; [apply lookup_insert_eq|]. cbn. congruence.
      - exists d. by rewrite !lookup_insert_ne. }
    intros p pd c
      [[<- <-]|[? [[<- <-]|[? Hd]]%lookup_insert_Some]]%lookup_insert_Some;
      intros Hin.
    + apply Hfiltered in Hin as [Hin Hc']. by eapply Hlook.
    + cbn in Hin. eapply Hlook; [done..|]. intros ->.
      destruct (Hdown _ _ _ Hc Hin) as (d & Hd & Hpar'). congruence.
    + eapply Hlook; [done..|]. intros ->.
      destruct (Hdown _ _ _ Hd Hin) as (d & Hd' & Hpar'). congruence.
  - intros p pd
      [[<- <-]|[? [[<- <-]|[? Hd]]%lookup_insert_Some]]%lookup_insert_Some;
      cbn; eauto.
    apply NoDup_list_filter. eauto.
  - intros key d
      [[<- <-]|[? [[<- <-]|[? Hd]]%lookup_insert_Some]]%lookup_insert_Some;
      cbn; eauto.
Qed.
Lemma postAdd_linked db reqUser wanted given child :
  consistent db -> db !! _id reqUser = Some reqUser ->
  wanted <> "" ->
  findOne wanted db = Some child -> parentId child = None ->
  _id child <> _id reqUser ->
  let child' :=
    linked child (Some (_id reqUser))
      (match JS.orStr given None with
       | Some name => Some name
       | None => displayName child
       end) in
  let parent' :=
    withChildren reqUser (children reqUser ++ [_id child]) in
  (exists view,
     (postAdd db reqUser wanted given).1
     = Success view (Some "Child account added successfully")) /\
  (postAdd db reqUser wanted given).2
    = <[_id reqUser := parent']> (<[_id child := child']> db) /\
  db !! _id child = Some child /\
  consistent (postAdd db reqUser wanted given).2.
Proof.
  intros Hdb Hp Hwanted Hfind Hfree Hne. cbv zeta.
  destruct (findOne_Some _ _ _ Hfind) as (_ & key & Hc).
  pose proof (proj1 Hdb _ _ Hc) as Hkey. subst key.
  destruct (add_links db reqUser child
              (match JS.orStr given None with
               | Some name => Some name
               | None => displayName child
               end) Hdb Hp Hc Hfree Hne) as [Hnew Hdb'].
  unfold postAdd, ContactRoutes.notEmpty.
  rewrite (bool_decide_eq_false_2 _ Hwanted), Hfind. cbn [negb].
  rewrite (bool_decide_eq_false_2 (parentId child <> None))
    by (intros H; by apply H).
  rewrite (bool_decide_eq_false_2 _ Hne).
  cbn [_id linked fst snd].
  rewrite (bool_decide_eq_false_2 _ Hnew). cbn [negb].
  split; [by eexists|]. split; [done|]. split; [done|]. exact Hdb'.
Qed.

Lemma deleteChild_consistent db reqUser childId :
  consistent db -> consistent (deleteChild db reqUser childId).2.
Proof.
  intros Hdb. unfold deleteChild.
  destruct (db !! childId) as [doc|] eqn:Hc; [|done].
  cbn [mbind option_bind]. case_bool_decide as Hpar; [|done].
  destruct (remove_links db (_id reqUser) childId doc Hdb Hc Hpar)
    as (parentDoc & Hp' & _ & Hne & Hdb').
  cbn [snd].
  assert (Hl : save (linked doc None None) db !! _id reqUser
               = Some parentDoc).
  { unfold save. cbn [_id linked]. rewrite (proj1 Hdb _ _ Hc).
    by rewrite lookup_insert_ne. }
  rewrite Hl. exact Hdb'.
Qed.

(** On an id in the spelling of [ObjectId.toString()] the route is the
    handler on that id. *)
Lemma deleteChildRequest_canonical db reqUser childId :
  isMongoId childId = true -> objectIdText childId = childId ->
  deleteChildRequest db reqUser childId = deleteChild db reqUser childId.
Proof.
  intros Hid Hlower. unfold deleteChildRequest, deleteChild.
  by rewrite Hid, Hlower.
Qed.

(** X24: linking keeps the parent and child links in step, and unlinking
    does when the child id is spelled as it is stored.  On a collection
    where every child's parent lists the child and every listed child names
    that parent (and ids and account ids are unique, no child is listed
    twice, nobody is the own parent), the collection after [POST /add] is
    such a collection again, and so is the collection after
    [DELETE /children/:childId] for a [childId] in lower case, whatever the
    answer; a [childId] that is not 24 hexadecimal digits is refused and
    changes nothing.  For a [childId] with an upper-case digit that names a
    child of the caller, the child is unlinked but stays in the caller's
    list of children, and the links no longer agree. *)
Theorem family_links_stay_consistent
    (db : gmap string Account) (reqUser : Account)
    (wanted childId : string) (given : option string) :
  consistent db -> db !! _id reqUser = Some reqUser ->
  consistent (postAdd db reqUser wanted given).2 /\
  (objectIdText childId = childId ->
   consistent (deleteChildRequest db reqUser childId).2) /\
  (isMongoId childId = false ->
   deleteChildRequest db reqUser childId = (ValidationError, db)) /\
  (forall doc,
     isMongoId childId = true -> objectIdText childId <> childId ->
     db !! objectIdText childId = Some doc ->
     parentId doc = Some (_id reqUser) ->
     (deleteChildRequest db reqUser childId).1
       = Success () (Some "Child account removed successfully") /\
     (exists unlinked parentDoc,
        (deleteChildRequest db reqUser childId).2 !! objectIdText childId
          = Some unlinked /\
        parentId unlinked = None /\
        (deleteChildRequest db reqUser childId).2 !! _id reqUser
          = Some parentDoc /\
        objectIdText childId ∈ children parentDoc) /\
     ~ consistent (deleteChildRequest db reqUser childId).2).
Proof.
  intros Hdb Hp. split; [|split; [|split]].
  - destruct (decide (wanted = "")) as [->|Hwanted]; [done|].
    destruct (findOne wanted db) as [child|] eqn:Hfind.
    + destruct (parentId child) as [other|] eqn:Hfree.
      * unfold postAdd, ContactRoutes.notEmpty.
        rewrite (bool_decide_eq_false_2 _ Hwanted), Hfind, Hfree. done.
      * destruct (decide (_id child = _id reqUser)) as [Heq|Hne].
        -- unfold postAdd, ContactRoutes.notEmpty.
           rewrite (bool_decide_eq_false_2 _ Hwanted), Hfind, Hfree.
           cbn [negb]. rewrite bool_decide_eq_false_2 by (intros H; by apply H).
           by rewrite (bool_decide_eq_true_2 _ Heq).
        -- pose proof (postAdd_linked db reqUser wanted given child Hdb Hp
                         Hwanted Hfind Hfree Hne) as H.
           cbv zeta in H. by destruct H as (_ & _ & _ & H).
    + unfold postAdd, ContactRoutes.notEmpty.
      by rewrite (bool_decide_eq_false_2 _ Hwanted), Hfind.
  - intros Hlower. destruct (isMongoId childId) eqn:Hid.
    + rewrite deleteChildRequest_canonical by done.
      by apply deleteChild_consistent.
    + unfold deleteChildRequest. by rewrite Hid.
  - intros Hid. unfold deleteChildRequest. by rewrite Hid.
  - intros doc Hid Hupper Hc Hpar.
    destruct (remove_links db (_id reqUser) (objectIdText childId) doc
                Hdb Hc Hpar) as (parentDoc & Hp' & Hlisted & Hne & _).
    assert (Hout : deleteChildRequest db reqUser childId
              = (Success () (Some "Child account removed successfully"),
                 <[_id reqUser :=
                     withChildren parentDoc
                       (List.filter
                          (fun id => negb (bool_decide (id = childId)))
                          (children parentDoc))]>
                   (<[objectIdText childId := linked doc None None]> db))).
    { unfold deleteChildRequest. rewrite Hid, Hc. cbn [negb mbind option_bind].
      rewrite (bool_decide_eq_true_2 _ Hpar). unfold save.
      cbn [_id linked withChildren]. rewrite (proj1 Hdb _ _ Hc).
      rewrite lookup_insert_ne by done. rewrite Hp'.
      by rewrite (proj1 Hdb _ _ Hp'). }
    rewrite Hout. cbn [fst snd].
    assert (Hstays : objectIdText childId ∈
              children (withChildren parentDoc
                          (List.filter
                             (fun id => negb (bool_decide (id = childId)))
                             (children parentDoc)))).
    { cbn. apply list_elem_of_In, filter_In.
      split; [by apply list_elem_of_In|].
      by apply negb_true_iff, bool_decide_eq_false_2. }
    assert (Hchild :
              <[_id reqUser :=
                  withChildren parentDoc
                    (List.filter
                       (fun id => negb (bool_decide (id = childId)))
                       (children parentDoc))]>
                (<[objectIdText childId := linked doc None None]> db)
                !! objectIdText childId = Some (linked doc None None)).
    { rewrite lookup_insert_ne by (by apply not_eq_sym).
      apply lookup_insert_eq. }
    split; [done|]. split.
    + eexists _, _. split; [exact Hchild|]. split; [done|].
      split; [apply lookup_insert_eq|exact Hstays].
    + intros (_ & _ & _ & Hdown & _).
      destruct (Hdown _ _ _ (lookup_insert_eq _ _ _) Hstays)
        as (d & Hd & Hparent).
      rewrite Hchild in Hd. injection Hd as <-. done.
Qed.

Lemma accounts_lookup key doc :
  Cases.accounts !! key = Some doc ->
  (key = "p1" /\ doc = Cases.mother) \/ (key = "c1" /\ doc = Cases.daughter).
Proof.
  unfold Cases.accounts.
  intros [[<- <-]|[_ [[<- <-]|[_ H]]%lookup_insert_Some]]%lookup_insert_Some.
  - by left.
  - by right.
  - by rewrite lookup_empty in H.
Qed.

Lemma accounts_consistent : consistent Cases.accounts.
Proof.
  split; [|split; [|split; [|split; [|split]]]].
  - by intros key doc [[-> ->]|[-> ->]]%accounts_lookup.
  - by intros key key' doc doc' [[-> ->]|[-> ->]]%accounts_lookup
         [[-> ->]|[-> ->]]%accounts_lookup.
  - by intros key doc parent [[-> ->]|[-> ->]]%accounts_lookup.
  - intros key doc child [[-> ->]|[-> ->]]%accounts_lookup Hin;
      by apply elem_of_nil in Hin.
  - intros key doc [[-> ->]|[-> ->]]%accounts_lookup; constructor.
  - by intros key doc [[-> ->]|[-> ->]]%accounts_lookup.
Qed.

Lemma mother_stored : Cases.accounts !! _id Cases.mother = Some Cases.mother.
Proof. apply lookup_insert_eq. Qed.

Lemma daughter_stored :
  Cases.accounts !! _id Cases.daughter = Some Cases.daughter.
Proof.
  unfold Cases.accounts. rewrite lookup_insert_ne by done.
  apply lookup_insert_eq.
Qed.

Lemma household_lookup key doc :
  Cases.household !! key = Some doc ->
  (key = Cases.guardianId /\ doc = Cases.keeper) \/
  (key = Cases.wardId /\ doc = Cases.ward).
Proof.
  unfold Cases.household.
  intros [[<- <-]|[_ [[<- <-]|[_ H]]%lookup_insert_Some]]%lookup_insert_Some.
  - by left.
  - by right.
  - by rewrite lookup_empty in H.
Qed.

Lemma keeper_stored :
  Cases.household !! _id Cases.keeper = Some Cases.keeper.
Proof. apply lookup_insert_eq. Qed.

Lemma ward_stored : Cases.household !! Cases.wardId = Some Cases.ward.
Proof.
  unfold Cases.household. rewrite lookup_insert_ne by done.
  apply lookup_insert_eq.
Qed.

Lemma household_consistent : consistent Cases.household.
Proof.
  split; [|split; [|split; [|split; [|split]]]].
  - by intros key doc [[-> ->]|[-> ->]]%household_lookup.
  - by intros key key' doc doc' [[-> ->]|[-> ->]]%household_lookup
         [[-> ->]|[-> ->]]%household_lookup.
  - intros key doc parent [[-> ->]|[-> ->]]%household_lookup; [done|].
    intros [= <-]. exists Cases.keeper. split; [apply keeper_stored|].
    by left.
  - intros key doc child [[-> ->]|[-> ->]]%household_lookup Hin.
    + apply list_elem_of_singleton in Hin as ->. exists Cases.ward.
      split; [apply ward_stored|done].
    + by apply elem_of_nil in Hin.
  - intros key doc [[-> ->]|[-> ->]]%household_lookup.
    + apply NoDup_singleton.
    + constructor.
  - by intros key doc [[-> ->]|[-> ->]]%household_lookup.
Qed.

Lemma family_links_stay_consistent_witness :
  consistent (postAdd Cases.household Cases.keeper "ASHA4T9X" None).2 /\
  consistent
    (deleteChildRequest Cases.household Cases.keeper Cases.wardId).2 /\
  ~ consistent
      (deleteChildRequest Cases.household Cases.keeper
         "64B7F0A1C2D3E4F5A6B7C8DA").2.
Proof.
  split; [|split].
  - exact (proj1 (family_links_stay_consistent Cases.household Cases.keeper
                    "ASHA4T9X" Cases.wardId None household_consistent
                    keeper_stored)).
  - exact (proj1 (proj2 (family_links_stay_consistent Cases.household
                           Cases.keeper "ASHA4T9X" Cases.wardId None
                           household_consistent keeper_stored))
             eq_refl).
  - exact (proj2 (proj2 (proj2 (proj2 (proj2
             (family_links_stay_consistent Cases.household Cases.keeper
                "ASHA4T9X" "64B7F0A1C2D3E4F5A6B7C8DA" None
                household_consistent keeper_stored))) Cases.ward
             eq_refl ltac:(discriminate) ward_stored eq_refl))).
Defined.

(** X25: two accounts can become each other's parent.  The link route
    refuses an account that already has a parent and refuses oneself, but
    not an account that is one's own parent: when an account has linked a
    second one as its child, the second one can link the first as its
    child, and then each of the two is both parent and child of the
    other. *)
Theorem accounts_can_parent_each_other
    (db : gmap string Account) (first second : Account)
    (given given' : option string) :
  consistent db ->
  db !! _id first = Some first -> db !! _id second = Some second ->
  _id first <> _id second ->
  parentId first = None -> parentId second = None ->
  accountId first <> "" -> accountId second <> "" ->
  let db1 := (postAdd db first (accountId second) given).2 in
  exists first1 second1,
    db1 !! _id first = Some first1 /\ db1 !! _id second = Some second1 /\
    parentId second1 = Some (_id first) /\
    let out := postAdd db1 second1 (accountId first) given' in
    (exists view,
       out.1 = Success view (Some "Child account added successfully")) /\
    exists first2 second2,
      out.2 !! _id first = Some first2 /\
      out.2 !! _id second = Some second2 /\
      parentId first2 = Some (_id second) /\
      parentId second2 = Some (_id first) /\
      _id second ∈ children first2 /\ _id first ∈ children second2.
Proof.
  intros Hdb Hfirst Hsecond Hne Hfree1 Hfree2 Hacc1 Hacc2. cbv zeta.
  pose proof (findOne_stored db _ _ Hdb Hsecond) as Hfind.
  pose proof (postAdd_linked db first (accountId second) given second
                Hdb Hfirst Hacc2 Hfind Hfree2 (not_eq_sym Hne)) as H.
  cbv zeta in H. destruct H as (_ & Hdb1 & _ & Hcons1).
  set (db1 := (postAdd db first (accountId second) given).2) in *.
  set (first1 := withChildren first (children first ++ [_id second])) in *.
  set (second1 := linked second (Some (_id first)) _) in *.
  assert (H1 : db1 !! _id first = Some first1)
    by (rewrite Hdb1; apply lookup_insert_eq).
  assert (H2 : db1 !! _id second = Some second1).
  { rewrite Hdb1. rewrite lookup_insert_ne by done. apply lookup_insert_eq. }
  exists first1, second1. split; [done|]. split; [done|]. split; [done|].
  pose proof (findOne_stored db1 _ _ Hcons1 H1) as Hfind1.
  pose proof (postAdd_linked db1 second1 (accountId first) given' first1
                Hcons1 H2 Hacc1 Hfind1 Hfree1 Hne) as H.
  cbv zeta in H. destruct H as (Hview & Hdb2 & _ & _).
  split; [exact Hview|].
  change (_id first1) with (_id first) in Hdb2.
  change (_id second1) with (_id second) in Hdb2.
  rewrite Hdb2. eexists _, _. split.
  { rewrite lookup_insert_ne by (by apply not_eq_sym).
    apply lookup_insert_eq. }
  split; [apply lookup_insert_eq|]. cbn.
  split; [done|]. split; [done|]. split.
  - apply elem_of_app. right. by left.
  - apply elem_of_app. right. by left.
Qed.

Lemma accounts_can_parent_each_other_witness :
  exists first1 second1,
    (postAdd Cases.accounts Cases.mother "ASHA4T9X" None).2 !! "p1"
      = Some first1 /\
    (postAdd Cases.accounts Cases.mother "ASHA4T9X" None).2 !! "c1"
      = Some second1 /\
    parentId second1 = Some "p1".
Proof.
  destruct (accounts_can_parent_each_other Cases.accounts Cases.mother
              Cases.daughter None None accounts_consistent mother_stored
              daughter_stored ltac:(discriminate) eq_refl eq_refl
              ltac:(discriminate) ltac:(discriminate))
    as (first1 & second1 & H1 & H2 & H3 & _).
  exists first1, second1. split; [exact H1|]. split; [exact H2|exact H3].
Defined.

(** X26: unlinking undoes linking, except for the child's display name.
    When a parent links an account and then removes it again, the
    collection is as before the link but for the child's [displayName],
    which is erased: also a display name that the child carried before it
    was linked is gone. *)
Theorem add_then_remove_child
    (db : gmap string Account) (reqUser child : Account) (wanted : string)
    (given : option string) :
  consistent db -> db !! _id reqUser = Some reqUser ->
  wanted <> "" ->
  findOne wanted db = Some child -> parentId child = None ->
  _id child <> _id reqUser ->
  let added := (postAdd db reqUser wanted given).2 in
  exists reqUser1,
    added !! _id reqUser = Some reqUser1 /\
    children reqUser1 = children reqUser ++ [_id child] /\
    deleteChild added reqUser1 (_id child)
    = (Success () (Some "Child account removed successfully"),
       <[_id child := linked child None None]> db).
Proof.
  intros Hdb Hp Hwanted Hfind Hfree Hne. cbv zeta.
  pose proof (postAdd_linked db reqUser wanted given child
                Hdb Hp Hwanted Hfind Hfree Hne) as H.
  cbv zeta in H. destruct H as (_ & Hdb1 & Hc & Hcons1).
  rewrite Hdb1.
  set (parent1 := withChildren reqUser (children reqUser ++ [_id child])).
  set (child1 := linked child (Some (_id reqUser)) _).
  exists parent1. split; [apply lookup_insert_eq|]. split; [done|].
  destruct (add_links db reqUser child None Hdb Hp Hc Hfree Hne)
    as [Hnew _].
  unfold deleteChild.
  rewrite lookup_insert_ne by (by apply not_eq_sym).
  rewrite lookup_insert_eq. cbn [mbind option_bind].
  change (parentId child1) with (Some (_id reqUser)).
  change (_id parent1) with (_id reqUser).
  rewrite bool_decide_eq_true_2 by done.
  unfold save. cbn [_id linked withChildren child1 parent1].
  rewrite lookup_insert_ne by done. rewrite lookup_insert_eq.
  f_equal. subst parent1 child1.
  cbn [_id children withChildren linked accountId name displayName parentId].
  rewrite List.filter_app. cbn [List.filter].
  rewrite bool_decide_eq_true_2 by done. cbn [negb]. rewrite app_nil_r.
  rewrite list_filter_all.
  2:{ intros c Hin. apply negb_true_iff, bool_decide_eq_false_2.
      intros ->. done. }
  apply map_eq. intros key.
  destruct (decide (key = _id reqUser)) as [->|Hk1].
  - rewrite lookup_insert_eq, lookup_insert_ne by (by apply not_eq_sym).
    rewrite Hp. by destruct reqUser.
  - rewrite lookup_insert_ne by done.
    destruct (decide (key = _id child)) as [->|Hk2].
    + by rewrite !lookup_insert_eq.
    + by rewrite !lookup_insert_ne.
Qed.

Lemma add_then_remove_child_witness :
  exists reqUser1,
    (postAdd Cases.accounts Cases.mother "ASHA4T9X" (Some "Ashu")).2 !! "p1"
      = Some reqUser1 /\
    deleteChild (postAdd Cases.accounts Cases.mother "ASHA4T9X"
                   (Some "Ashu")).2 reqUser1 "c1"
    = (Success () (Some "Child account removed successfully"),
       <["c1" := Cases.daughter]> Cases.accounts).
Proof.
  destruct (add_then_remove_child Cases.accounts Cases.mother Cases.daughter
              "ASHA4T9X" (Some "Ashu") accounts_consistent mother_stored
              ltac:(discriminate)
              (findOne_stored _ _ _ accounts_consistent daughter_stored)
              eq_refl ltac:(discriminate))
    as (reqUser1 & H1 & _ & H2).
  exists reqUser1. split; [exact H1|exact H2].
Defined.
End ChildFacts.

(** ** Start-up *)

Section StartupFacts.
Import Startup.
Local Open Scope R_scope.

Lemma backoff_shift (delay : R) (n : nat) :
  flat_map (fun k => [Connect; Wait (delay * 1.5 ^ k)]) (seq 1 n)
  = flat_map (fun k => [Connect; Wait (delay * 1.5 * 1.5 ^ k)]) (seq 0 n).
Proof.
  rewrite <- seq_shift, flat_map_concat_map, map_map,
    <- flat_map_concat_map.
  apply flat_map_ext. intros k. cbn [pow]. do 3 f_equal. ring.
Qed.

Lemma connectFrom_connects connected retries turns :
  forall i delay n,
    (i + turns = retries)%nat -> (n < turns)%nat ->
    (forall k, (k < n)%nat -> connected (i + k)%nat = false) ->
    connected (i + n)%nat = true ->
    connectFrom connected retries i turns delay
    = flat_map (fun k => [Connect; Wait (delay * 1.5 ^ k)]) (seq 0 n)
      ++ [Connect; Listen].
Proof.
  induction turns as [|turns IH]; intros i delay n Hi Hn Hfail Hok; [lia|].
  cbn [connectFrom]. destruct n as [|n].
  - rewrite Nat.add_0_r in Hok. by rewrite Hok.
  - pose proof (Hfail 0%nat ltac:(lia)) as H0. rewrite Nat.add_0_r in H0.
    rewrite H0, bool_decide_eq_true_2 by lia.
    rewrite (IH (S i) (delay * 1.5) n); [|lia|lia| |].
    + cbn [seq flat_map app pow]. rewrite backoff_shift.
      by rewrite Rmult_1_r.
    + intros k Hk. replace (S i + k)%nat with (i + S k)%nat by lia.
      apply Hfail. lia.
    + by replace (S i + n)%nat with (i + S n)%nat by lia.
Qed.

Lemma connectFrom_gives_up connected retries turns :
  forall i delay,
    (i + S turns = retries)%nat ->
    (forall k, (k <= turns)%nat -> connected (i + k)%nat = false) ->
    connectFrom connected retries i (S turns) delay
    = flat_map (fun k => [Connect; Wait (delay * 1.5 ^ k)]) (seq 0 turns)
      ++ [Connect; Exit 1].
Proof.
  induction turns as [|turns IH]; intros i delay Hi Hfail.
  - cbn. pose proof (Hfail 0%nat ltac:(lia)) as H0.
    rewrite Nat.add_0_r in H0. rewrite H0.
    by rewrite bool_decide_eq_false_2 by lia.
  - remember (S turns) as m. cbn [connectFrom]. subst m.
    pose proof (Hfail 0%nat ltac:(lia)) as H0. rewrite Nat.add_0_r in H0.
    rewrite H0, bool_decide_eq_true_2 by lia.
    rewrite (IH (S i) (delay * 1.5)); [|lia|].
    + cbn [seq flat_map app pow]. rewrite backoff_shift.
      by rewrite Rmult_1_r.
    + intros k Hk. replace (S i + k)%nat with (i + S k)%nat by lia.
      apply Hfail. lia.
Qed.

(** X27: the start-up retries with a growing delay and gives up after
    [retries] attempts.  When the attempt of turn [n] (counted from 0, below
    [retries]) is the first that succeeds, the process has waited [n] times,
    the [k]th wait being [delay * 1.5 ^ k], and then listens, and it never
    exits; when all [retries] attempts fail it waits [retries - 1] times
    like that and exits with code 1 without a wait after the last attempt,
    and it never listens; with [retries] 0 it does nothing at all. *)
Theorem start_up_backs_off_and_gives_up
    (connected : nat -> bool) (retries : nat) (delay : R) :
  (forall n,
     (n < retries)%nat ->
     (forall k, (k < n)%nat -> connected k = false) ->
     connected n = true ->
     connectWithRetry connected retries delay
     = flat_map (fun k => [Connect; Wait (delay * 1.5 ^ k)]) (seq 0 n)
       ++ [Connect; Listen]) /\
  ((0 < retries)%nat ->
   (forall k, (k < retries)%nat -> connected k = false) ->
   connectWithRetry connected retries delay
   = flat_map (fun k => [Connect; Wait (delay * 1.5 ^ k)])
       (seq 0 (retries - 1))
     ++ [Connect; Exit 1]) /\
  connectWithRetry connected 0 delay = [].
Proof.
  split; [|split; [|done]].
  - intros n Hn Hfail Hok. by apply connectFrom_connects.
  - intros Hpos Hfail. unfold connectWithRetry.
    destruct retries as [|turns]; [lia|].
    rewrite connectFrom_gives_up; [|done|].
    + by replace (S turns - 1)%nat with turns by lia.
    + intros k Hk. apply Hfail. cbn. lia.
Qed.

Lemma start_up_backs_off_and_gives_up_witness :
  connectWithRetry (fun k => bool_decide (k = 2%nat)) 5 5000
  = [Connect; Wait (5000 * 1.5 ^ 0); Connect; Wait (5000 * 1.5 ^ 1);
     Connect; Listen].
Proof.
  apply (proj1 (start_up_backs_off_and_gives_up
                  (fun k => bool_decide (k = 2%nat)) 5 5000) 2%nat).
  - lia.
  - intros k Hk. apply bool_decide_eq_false_2. lia.
  - reflexivity.
Defined.
End StartupFacts.
